(** * EchoVault command handlers: a shallow embedding

    The handlers of the string, list, sorted-set and hash modules are
    embedded as functions from a command array and a keyspace to a reply and
    a keyspace.  Go strings are byte strings ([string]), [int]/[int64] are
    integers with 64-bit wrap-around written out, [float64] scores are IEEE
    binary64 values ([spec_float] at precision 53), and a Go run-time panic
    (index or slice bound out of range) is the result [Panic]. *)

From Stdlib Require Import ZArith List String Ascii Lia Permutation Sorted.
From Stdlib Require Import Floats.SpecFloat.
From stdpp Require Import base option list gmap strings pretty.

Open Scope Z_scope.

(** ** Results and replies *)

(** What a handler call produces: reply bytes, an [error] value, or a Go
    run-time panic. *)
Inductive Res (A : Type) : Type :=
| Ok (a : A)
| Err (msg : string)
| Panic.
Arguments Ok {A} a.
Arguments Err {A} msg.
Arguments Panic {A}.

Definition CR : ascii := ascii_of_nat 13.
Definition NL : ascii := ascii_of_nat 10.
Definition CRLF : string := String CR (String NL "").
Definition LF : string := String NL "".

(** [len(s)] of a Go string or slice, as an [int]. *)
Definition slen (s : string) : Z := Z.of_nat (String.length s).
Definition llen {A} (l : list A) : Z := Z.of_nat (length l).

(** [fmt.Sprintf("%d", n)]. *)
Definition fmtD (n : Z) : string := pretty n.

(** 64-bit two's complement wrap-around of [int] and [int64] arithmetic. *)
Definition wrap64 (z : Z) : Z := (z + 2 ^ 63) mod 2 ^ 64 - 2 ^ 63.

(** [s[lo:hi]] on a string: panics unless [0 <= lo <= hi <= len(s)]. *)
Definition sliceStr (s : string) (lo hi : Z) : Res string :=
  if (0 <=? lo) && (lo <=? hi) && (hi <=? slen s)
  then Ok (substring (Z.to_nat lo) (Z.to_nat (hi - lo)) s)
  else Panic.

(** [l[lo:hi]] on a slice; [l[lo:]] is [sliceList l lo (len l)]. *)
Definition sliceList {A} (l : list A) (lo hi : Z) : Res (list A) :=
  if (0 <=? lo) && (lo <=? hi) && (hi <=? llen l)
  then Ok (take (Z.to_nat (hi - lo)) (drop (Z.to_nat lo) l))
  else Panic.

(** [l[i]]: panics out of range. *)
Definition indexList {A} (l : list A) (i : Z) : Res A :=
  if (0 <=? i) && (i <? llen l)
  then match l !! Z.to_nat i with Some x => Ok x | None => Panic end
  else Panic.

(** [cmd[1:]]: panics on an empty command. *)
Definition tailOf (cmd : list string) : Res (list string) :=
  match cmd with
  | [] => Panic
  | _ :: args => Ok args
  end.

(** [cmd[i]] where the handler has already checked [len(cmd)]. *)
Definition arg (cmd : list string) (i : nat) : string := nth i cmd "".

(** [string(b)] for a byte [b]: the UTF-8 encoding of the code point [b],
    so one byte below 128 and two bytes from 128 on. *)
Definition byteString (b : ascii) : string :=
  let n := nat_of_ascii b in
  if (n <? 128)%nat then String b ""
  else String (ascii_of_nat (192 + n / 64))
         (String (ascii_of_nat (128 + n mod 64)) "").

(** The loop [for i := len(str) - 1; i >= 0; i-- { res = res + string(str[i]) }]. *)
Fixpoint reverseBytes (str : string) : string :=
  match str with
  | EmptyString => ""
  | String b rest => reverseBytes rest +:+ byteString b
  end.

(** [strings.ToLower] and [strings.EqualFold] on ASCII command words: the
    upper-case letters A-Z are mapped to a-z, every other byte is kept. *)
Definition lowerByte (b : ascii) : ascii :=
  let n := nat_of_ascii b in
  if (65 <=? n)%nat && (n <=? 90)%nat then ascii_of_nat (n + 32) else b.

Fixpoint ToLower (s : string) : string :=
  match s with
  | EmptyString => ""
  | String b rest => String (lowerByte b) (ToLower rest)
  end.

Definition upperByte (b : ascii) : ascii :=
  let n := nat_of_ascii b in
  if (97 <=? n)%nat && (n <=? 122)%nat then ascii_of_nat (n - 32) else b.

Fixpoint ToUpper (s : string) : string :=
  match s with
  | EmptyString => ""
  | String b rest => String (upperByte b) (ToUpper rest)
  end.

Definition EqualFold (s t : string) : bool := String.eqb (ToLower s) (ToLower t).

(** [slices.Contains] on strings. *)
Definition Contains (l : list string) (s : string) : bool :=
  existsb (String.eqb s) l.

(** ** Scores *)

(** [sorted_set.Score] is a [float64]. *)
Definition Score : Type := spec_float.

Definition Inf (sign : Z) : Score := S754_infinity (sign <? 0).
Definition ScoreOfInt (n : Z) : Score := binary_normalize 53 1024 n 0 false.
Definition ScoreAdd (a b : Score) : Score := SFadd 53 1024 a b.
Definition IsNaN (a : Score) : bool :=
  match a with S754_nan => true | _ => false end.

(** Go's [==], [!=], [<=], [>=] and [<] on [float64]. *)
Definition ScoreEq (a b : Score) : bool := SFeqb a b.
Definition ScoreNe (a b : Score) : bool := negb (SFeqb a b).
Definition ScoreLe (a b : Score) : bool := SFleb a b.
Definition ScoreGe (a b : Score) : bool := SFleb b a.
Definition ScoreLt (a b : Score) : bool := SFltb a b.

(** [cmp.Compare] on [float64]: a NaN is less than any non-NaN and equal to
    a NaN. *)
Definition cmpCompare (x y : Score) : Z :=
  if IsNaN x then (if IsNaN y then 0 else -1)
  else if IsNaN y then 1
  else if ScoreLt x y then -1
  else if ScoreLt y x then 1
  else 0.

(** ** Values *)

(** What [AdaptType] infers from a raw token, and what list elements and
    hash fields hold. *)
Inductive Scalar : Type :=
| SStr (s : string)
| SInt (n : Z)
| SFloat (f : Score).

Record MemberParam : Type := mkMember { Value : string; MScore : Score }.

(** ** The sorted-set engine *)

Module sorted_set_engine.

(** Package [internal/sorted_set] ([SortedSet], [NewSortedSet], [Get],
    [GetAll], [Remove], [Cardinality], [AddOrUpdate]) is not part of the
    sources; every definition of this module is modelled from section 4.2 of
    the spec. *)

(** Modelled from the spec: the type [SortedSet] is missing.  A sorted set
    is a collection of records [{value, score}] unique on [value]; it is kept
    as an association list whose order is the order in which [GetAll] hands
    the records out, which the sources do not fix. *)
Abbreviation SortedSet := (list MemberParam).

(** Modelled from the spec: [GetAll] is missing; it hands out every record. *)
Definition GetAll (set : SortedSet) : list MemberParam := set.

(** Modelled from the spec: [Cardinality] is missing; the element count. *)
Definition Cardinality (set : SortedSet) : Z := llen set.

(** Modelled from the spec: [Get] is missing; [get(value) -> Option<record>]. *)
Definition Get (set : SortedSet) (v : string) : option MemberParam :=
  find (fun m => String.eqb (Value m) v) set.

(** Modelled from the spec: the record [Get] returns is missing; the score
    read off [set.Get(v).Score] is the zero value when [v] is absent. *)
Definition GetScore (set : SortedSet) (v : string) : Score :=
  match Get set v with Some m => MScore m | None => S754_zero false end.

(** Modelled from the spec: [Remove] is missing; [remove(value) -> bool]. *)
Definition Remove (set : SortedSet) (v : string) : bool * SortedSet :=
  match Get set v with
  | Some _ => (true, filter (fun m => Value m ≠ v) set)
  | None => (false, set)
  end.

(** Modelled from the spec: insertion is missing; a record is inserted or
    overwritten so that [value] stays unique. *)
Fixpoint put (set : SortedSet) (m : MemberParam) : SortedSet :=
  match set with
  | [] => [m]
  | x :: rest => if String.eqb (Value x) (Value m) then m :: rest else x :: put rest m
  end.

(** Modelled from the spec: [NewSortedSet] is missing; the set of the given
    members, a later duplicate of a value replacing the earlier. *)
Definition NewSortedSet (members : list MemberParam) : SortedSet :=
  fold_left put members [].

(** Modelled from the spec: [policy] and [comparison] of [add_or_update]. *)
Inductive Policy := PolicyNone | OnlyIfAbsent | OnlyIfPresent.
Inductive Comparison := CompareNone | OnlyIfGreater | OnlyIfLess.

(** Modelled from the spec: the reading of the policy and comparison
    tokens that the handlers pass to [AddOrUpdate] is missing. *)
Definition readPolicy (o : option string) : Res Policy :=
  match o with
  | None => Ok PolicyNone
  | Some s => if EqualFold s "nx" then Ok OnlyIfAbsent
              else if EqualFold s "xx" then Ok OnlyIfPresent
              else Err "invalid update policy"
  end.

(** Modelled from the spec: see [readPolicy]. *)
Definition readComparison (o : option string) : Res Comparison :=
  match o with
  | None => Ok CompareNone
  | Some s => if EqualFold s "gt" then Ok OnlyIfGreater
              else if EqualFold s "lt" then Ok OnlyIfLess
              else Err "invalid comparison"
  end.

(** Modelled from the spec: one member of [add_or_update], giving the
    running count and set, or an error when an increment sums opposite
    infinities. *)
Definition addOne (policy : Policy) (comparison : Comparison) (changed incr : bool)
    (acc : Z * SortedSet) (m : MemberParam) : Res (Z * SortedSet) :=
  let '(count, set) := acc in
  match Get set (Value m) with
  | None =>
      match policy with
      | OnlyIfPresent => Ok (count, set)
      | _ => Ok (count + 1, put set m)
      end
  | Some old =>
      match policy with
      | OnlyIfAbsent => Ok (count, set)
      | _ =>
          let new := if incr then ScoreAdd (MScore old) (MScore m) else MScore m in
          if IsNaN new then Err "cannot pass score NaN"
          else
            let allowed :=
              match comparison with
              | CompareNone => true
              | OnlyIfGreater => ScoreLt (MScore old) new
              | OnlyIfLess => ScoreLt new (MScore old)
              end in
            if allowed && ScoreNe new (MScore old)
            then Ok (if changed then count + 1 else count, put set (mkMember (Value m) new))
            else Ok (count, set)
      end
  end.

(** Modelled from the spec: the members of [add_or_update] in order. *)
Fixpoint addAll (policy : Policy) (comparison : Comparison) (changed incr : bool)
    (acc : Z * SortedSet) (members : list MemberParam) : Res (Z * SortedSet) :=
  match members with
  | [] => Ok acc
  | m :: rest =>
      match addOne policy comparison changed incr acc m with
      | Ok acc' => addAll policy comparison changed incr acc' rest
      | Err e => Err e
      | Panic => Panic
      end
  end.

(** Modelled from the spec: [AddOrUpdate] is missing;
    [add_or_update(members, policy, comparison, changed, incr)]. *)
Definition AddOrUpdate (set : SortedSet) (members : list MemberParam)
    (updatePolicy comparison changed incr : option string) : Res (Z * SortedSet) :=
  match readPolicy updatePolicy with
  | Err e => Err e
  | Panic => Panic
  | Ok policy =>
      match readComparison comparison with
      | Err e => Err e
      | Panic => Panic
      | Ok cmp =>
          match policy, cmp with
          | OnlyIfAbsent, OnlyIfGreater | OnlyIfAbsent, OnlyIfLess =>
              Err "GT/LT flags not allowed if NX flag is provided"
          | _, _ =>
              if bool_decide (is_Some incr) && negb (length members =? 1)%nat
              then Err "INCR can only be used with one member/score pair"
              else addAll policy cmp (bool_decide (is_Some changed))
                     (bool_decide (is_Some incr)) (0, set) members
          end
      end
  end.

End sorted_set_engine.
Export sorted_set_engine.

(** ** The keyspace *)

Inductive StoredValue : Type :=
| VNil
| VString (s : string)
| VList (l : list Scalar)
| VHash (h : gmap string Scalar)
| VSortedSet (s : SortedSet).

(** The keyspace behind the [Server] / [EchoVault] interface is not part
    of the sources; the operations of this module are modelled from sections
    4.1 and 6 of the spec. *)
Module keyspace.

(** Modelled from the spec: the keyspace is missing.  It is the map key ->
    value of the live entries; expiry is left out. *)
Abbreviation Store := (gmap string StoredValue).

(** A handler is a computation on the keyspace.  Mutations made before an
    error or a panic stay in the keyspace. *)
Definition M (A : Type) : Type := Store -> Res A * Store.

Definition ret {A} (a : A) : M A := fun st => (Ok a, st).
Definition fail {A} (msg : string) : M A := fun st => (Err msg, st).
Definition panic {A} : M A := fun st => (Panic, st).
Definition bind {A B} (m : M A) (k : A -> M B) : M B :=
  fun st =>
    match m st with
    | (Ok a, st') => k a st'
    | (Err e, st') => (Err e, st')
    | (Panic, st') => (Panic, st')
    end.
Definition lift {A} (r : Res A) : M A := fun st => (r, st).

(** Modelled from the spec: [KeyExists] is missing; [key_exists]. *)
Definition KeyExists (key : string) : M bool :=
  fun st => (Ok (bool_decide (is_Some (st !! key))), st).
(** Modelled from the spec: [GetValue] is missing; [get_value], [nil] for
    a key that is not live. *)
Definition GetValue (key : string) : M StoredValue :=
  fun st => (Ok (default VNil (st !! key)), st).
(** Modelled from the spec: [SetValue] is missing; [set_value] replaces
    the value at the key. *)
Definition SetValue (key : string) (v : StoredValue) : M unit :=
  fun st => (Ok tt, <[key := v]> st).
(** Modelled from the spec: [CreateKeyAndLock] is missing;
    [create_and_write_lock] inserts a new entry with a sentinel empty value
    and fails when the key exists. *)
Definition CreateKeyAndLock (key : string) : M unit :=
  fun st =>
    match st !! key with
    | Some _ => (Err "key already exists", st)
    | None => (Ok tt, <[key := VNil]> st)
    end.
(** A handler that holds the pointer stored at [key] and mutates the
    collection through it: the entry at [key] then reads [v]. *)
Definition mutateAt (key : string) (v : StoredValue) : M unit :=
  fun st => (Ok tt, <[key := v]> st).
(** Modelled from the spec: the lock operations are missing; for a single
    sequential caller without cancellation they succeed and change nothing. *)
Definition KeyLock (key : string) : M unit := ret tt.
Definition KeyUnlock (key : string) : M unit := ret tt.
Definition KeyRLock (key : string) : M unit := ret tt.
Definition KeyRUnlock (key : string) : M unit := ret tt.

End keyspace.
Export keyspace.

Declare Scope handler_scope.
Delimit Scope handler_scope with handler.
Notation "'do' x <- m ; k" := (bind m (fun x => k))
  (at level 10, x name, m at level 100, k at level 200) : handler_scope.
Notation "'run' m ; k" := (bind m (fun _ => k))
  (at level 10, m at level 100, k at level 200) : handler_scope.
Open Scope handler_scope.

(** ** Functions of the Go library and of package [internal] *)

(** The handlers call these functions, whose code is outside the sources:
    [internal.AdaptType], [internal.CompareLex] and [internal.AbsInt] of
    this repository, and formatting, parsing, rune conversion and sorting of
    the Go library.  Handlers are stated over any implementation. *)
Class Externals : Type := {
  AdaptType : string -> Scalar;
  CompareLex : string -> string -> Z;
  AbsInt : Z -> Z;
  fmtV : Scalar -> string;          (* fmt verb %v *)
  fmtS : Scalar -> string;          (* fmt verb %s *)
  fmtF : Score -> string;           (* fmt verb %f *)
  FormatFloat : Score -> string;    (* strconv.FormatFloat(x, 'f', -1, 64) *)
  ParseFloat : string -> Res Score; (* strconv.ParseFloat(s, 64) *)
  Atoi : string -> Res Z;           (* strconv.Atoi *)
  runes : string -> list Z;         (* []rune(s) *)
  runesString : list Z -> string;   (* string(rs) *)
  Split : string -> list string;    (* strings.Split(s, "") *)
  SortFunc : forall A : Type, (A -> A -> Z) -> list A -> list A (* slices.SortFunc *)
}.

(** Type assertions [x.(int)], [x.(int64)] on an [AdaptType] result. *)
Definition asInt (x : Scalar) : option Z :=
  match x with SInt n => Some n | _ => None end.

(** [strings.Join(elems, "")]. *)
Definition Join (elems : list string) : string := foldr String.append "" elems.

(** [[]byte(s)]. *)
Definition bytes (s : string) : list ascii := list_ascii_of_string s.

(** ** Shared types and constants *)

(** [types.AccessKeys]. *)
Record AccessKeys : Type := mkKeys {
  Channels : list string;
  ReadKeys : list string;
  WriteKeys : list string
}.

(** Modelled from the spec: [constants.WrongArgsResponse] is not part of the
    sources; argument-count errors are reported as
    "wrong number of arguments". *)
Definition WrongArgsResponse : string := "wrong number of arguments".

(** Names of package [pkg/constants]; their values are not in the sources. *)
Inductive Constant : Type :=
| StringModule | StringCategory | WriteCategory | ReadCategory
| SlowCategory | FastCategory.

(** ** Module [str] (pkg/modules/string) *)

Module str.

Definition setRangeKeyFunc (cmd : list string) : Res AccessKeys :=
  if negb (length cmd =? 4)%nat then Err WrongArgsResponse
  else Ok (mkKeys [] [] (take 1 (drop 1 cmd))).

Definition strLenKeyFunc (cmd : list string) : Res AccessKeys :=
  if negb (length cmd =? 2)%nat then Err WrongArgsResponse
  else Ok (mkKeys [] (take 1 (drop 1 cmd)) []).

Definition subStrKeyFunc (cmd : list string) : Res AccessKeys :=
  if negb (length cmd =? 4)%nat then Err WrongArgsResponse
  else Ok (mkKeys [] (take 1 (drop 1 cmd)) []).

Section handlers.
Context `{Externals}.

(** The overwrite loop of [handleSetRange]: [i] is the index of the next
    byte of [newStr], [rest] the bytes from [i] on. *)
Fixpoint setRangeLoop (str newStr : string) (rest : list ascii) (i offset : Z)
    (strRunes : list Z) : Res (list Z) :=
  match rest with
  | [] => Ok strRunes
  | b :: rest' =>
      if offset <? slen str then
        if (0 <=? offset) && (offset <? llen strRunes)
        then setRangeLoop str newStr rest' (i + 1) (wrap64 (offset + 1))
               (<[Z.to_nat offset := Z.of_nat (nat_of_ascii b)]> strRunes)
        else Panic
      else
        match sliceList (runes newStr) i (llen (runes newStr)) with
        | Ok tail => Ok (strRunes ++ tail)
        | Err e => Err e
        | Panic => Panic
        end
  end.

Definition handleSetRange (cmd : list string) : M string :=
  do keys <- lift (setRangeKeyFunc cmd);
  do key <- lift (indexList (WriteKeys keys) 0);
  match asInt (AdaptType (arg cmd 2)) with
  | None => fail "offset must be an integer"
  | Some offset =>
      let newStr := arg cmd 3 in
      do found <- KeyExists key;
      if negb found then
        run CreateKeyAndLock key;
        run SetValue key (VString newStr);
        run KeyUnlock key;
        ret (":" +:+ fmtD (slen newStr) +:+ CRLF)
      else
        run KeyLock key;
        do v <- GetValue key;
        match v with
        | VString str =>
            if offset >=? slen str then
              let newStr := str +:+ newStr in
              run SetValue key (VString newStr);
              ret (":" +:+ fmtD (slen newStr) +:+ CRLF)
            else if offset <? 0 then
              let newStr := newStr +:+ str in
              run SetValue key (VString newStr);
              ret (":" +:+ fmtD (slen newStr) +:+ CRLF)
            else
              do strRunes <- lift (setRangeLoop str newStr (bytes newStr) 0 offset (runes str));
              run SetValue key (VString (runesString strRunes));
              ret (":" +:+ fmtD (llen strRunes) +:+ CRLF)
        | _ => fail ("value at key " +:+ key +:+ " is not a string")
        end
  end.

Definition handleStrLen (cmd : list string) : M string :=
  do keys <- lift (strLenKeyFunc cmd);
  do key <- lift (indexList (ReadKeys keys) 0);
  do found <- KeyExists key;
  if negb found then ret (":0" +:+ CRLF)
  else
    run KeyRLock key;
    do v <- GetValue key;
    match v with
    | VString value => ret (":" +:+ fmtD (slen value) +:+ CRLF)
    | _ => fail ("value at key " +:+ key +:+ " is not a string")
    end.

(** The index arithmetic of [handleSubStr]: the two slice bounds and the
    [reversed] flag. *)
Definition normStart (value : string) (start : Z) : Z :=
  if start <? 0 then wrap64 (slen value - AbsInt start) else start.

Definition normEnd (value : string) (end_ : Z) : Z :=
  if end_ <? 0 then wrap64 (slen value - AbsInt end_) else end_.

Definition subStrBounds (value : string) (start end_ : Z) : Z * Z * bool :=
  let start := normStart value start in
  let end_ := normEnd value end_ in
  let end_ := if (end_ >=? 0) && (end_ >=? start) then wrap64 (end_ + 1) else end_ in
  let end_ := if end_ >? slen value then slen value else end_ in
  if start >? end_ then (end_, start, true) else (start, end_, false).

Definition subStr (value : string) (start end_ : Z) : Res string :=
  let '(lo, hi, reversed) := subStrBounds value start end_ in
  match sliceStr value lo hi with
  | Ok str => Ok (if reversed then reverseBytes str else str)
  | Err e => Err e
  | Panic => Panic
  end.

Definition handleSubStr (cmd : list string) : M string :=
  do keys <- lift (subStrKeyFunc cmd);
  do key <- lift (indexList (ReadKeys keys) 0);
  match asInt (AdaptType (arg cmd 2)), asInt (AdaptType (arg cmd 3)) with
  | Some start, Some end_ =>
      do found <- KeyExists key;
      if negb found then fail ("key " +:+ key +:+ " does not exist")
      else
        run KeyRLock key;
        do v <- GetValue key;
        match v with
        | VString value =>
            do str <- lift (subStr value start end_);
            ret ("$" +:+ fmtD (slen str) +:+ CRLF +:+ str +:+ CRLF)
        | _ => fail ("value at key " +:+ key +:+ " is not a string")
        end
  | _, _ => fail "start and end indices must be integers"
  end.

(** The registry entries of the module. *)
Record Command : Type := mkCommand {
  CommandName : string;
  Module_ : Constant;
  Categories : list Constant;
  Description : string;
  Sync : bool;
  KeyExtractionFunc : list string -> Res AccessKeys;
  HandlerFunc : list string -> M string
}.

Definition Commands : list Command := [
  mkCommand "setrange" StringModule [StringCategory; WriteCategory; SlowCategory]
    ("(SETRANGE key offset value) " +:+ LF +:+
     "Overwrites part of a string value with another by offset. Creates the key if it doesn't exist.")
    true setRangeKeyFunc handleSetRange;
  mkCommand "strlen" StringModule [StringCategory; ReadCategory; FastCategory]
    "(STRLEN key) Returns length of the key's value if it's a string."
    false strLenKeyFunc handleStrLen;
  mkCommand "substr" StringModule [StringCategory; ReadCategory; SlowCategory]
    "(SUBSTR key start end) Returns a substring from the string value."
    false subStrKeyFunc handleSubStr;
  mkCommand "getrange" StringModule [StringCategory; ReadCategory; SlowCategory]
    "(GETRANGE key start end) Returns a substring from the string value."
    false subStrKeyFunc handleSubStr
].

(** The registry entry of a command word, if any. *)
Definition getCommand (name : string) : option Command :=
  find (fun c => String.eqb (CommandName c) name) Commands.

End handlers.
End str.

(** ** The string plugin (src/plugins/string) *)

Module string_plugin.
Section handlers.
Context `{Externals}.

Definition handleSetRange (cmd : list string) : M string :=
  do args <- lift (tailOf cmd);
  if negb (length args =? 3)%nat
  then fail "wrong number of args for SETRANGE command"
  else
    let key := arg cmd 1 in
    match asInt (AdaptType (arg cmd 2)) with
    | None => fail "offset must be integer"
    | Some offset =>
        let newStr := arg cmd 3 in
        do found <- KeyExists key;
        if negb found then
          run CreateKeyAndLock key;
          run SetValue key (VString newStr);
          run KeyUnlock key;
          ret (":" +:+ fmtD (slen newStr) +:+ CRLF +:+ LF)
        else
          do v <- GetValue key;
          match v with
          | VString str =>
              run KeyLock key;
              let reply newStr :=
                run SetValue key (VString newStr);
                ret (":" +:+ fmtD (slen newStr) +:+ CRLF +:+ LF) in
              if offset >=? slen str then reply (str +:+ newStr)
              else if offset <? 0 then reply (newStr +:+ str)
              else if offset =? 0 then
                do tail <- lift (sliceList (Split str) 1 (llen (Split str)));
                reply (newStr +:+ Join tail)
              else if offset =? wrap64 (slen str - 1) then
                do front <- lift (sliceList (Split str) 0 (slen str - 1));
                reply (Join front +:+ newStr)
              else
                let strArr := Split str in
                do front <- lift (sliceList strArr 0 offset);
                do tail <- lift (sliceList strArr (wrap64 (offset + 1)) (llen strArr));
                reply (Join (front ++ Split newStr ++ tail))
          | _ => fail ("value at key " +:+ key +:+ " is not a string")
          end
    end.

Definition handleStrLen (cmd : list string) : M string :=
  do args <- lift (tailOf cmd);
  if negb (length args =? 1)%nat
  then fail "wrong number of args for STRLEN command"
  else
    let key := arg cmd 1 in
    do found <- KeyExists key;
    if negb found then ret (":0" +:+ CRLF +:+ LF)
    else
      run KeyRLock key;
      do v <- GetValue key;
      match v with
      | VString value => ret (":" +:+ fmtD (slen value) +:+ CRLF +:+ LF)
      | _ => fail ("value at key " +:+ key +:+ " is not a string")
      end.

(** The index arithmetic of [handleSubStr]: [end] is first moved one past
    when it is not negative, then both indices are counted from the tail when
    negative and [end] is cut at [len(value)]. *)
Definition normStart (value : string) (start : Z) : Z :=
  if start <? 0 then wrap64 (slen value + start) else start.

Definition sliceEnd (value : string) (end_ : Z) : Z :=
  let end_ := if end_ >=? 0 then wrap64 (end_ + 1) else end_ in
  let end_ := if end_ <? 0 then wrap64 (slen value + end_) else end_ in
  if end_ >? slen value then slen value else end_.

Definition subStrBounds (value : string) (start end_ : Z) : Z * Z * bool :=
  let end_ := sliceEnd value end_ in
  let start := normStart value start in
  if start >? end_ then (end_, start, true) else (start, end_, false).

Definition subStr (value : string) (start end_ : Z) : Res string :=
  let '(lo, hi, reversed) := subStrBounds value start end_ in
  match sliceStr value lo hi with
  | Ok str => Ok (if reversed then reverseBytes str else str)
  | Err e => Err e
  | Panic => Panic
  end.

Definition handleSubStr (cmd : list string) : M string :=
  do args <- lift (tailOf cmd);
  if negb (length args =? 3)%nat
  then fail "wrong number of args for SUBSTR command"
  else
    let key := arg cmd 1 in
    match asInt (AdaptType (arg cmd 2)), asInt (AdaptType (arg cmd 3)) with
    | Some start, Some end_ =>
        do found <- KeyExists key;
        if negb found then fail ("key " +:+ key +:+ " does not exist")
        else
          run KeyRLock key;
          do v <- GetValue key;
          match v with
          | VString value =>
              do str <- lift (subStr value start end_);
              ret ("$" +:+ fmtD (slen str) +:+ CRLF +:+ str +:+ CRLF +:+ LF)
          | _ => fail ("value at key " +:+ key +:+ " is not a string")
          end
    | _, _ => fail "start and end indices must be integers"
    end.

(** [HandleCommand]: reading [cmd[0]] of an empty command panics. *)
Definition HandleCommand (cmd : list string) : M string :=
  match cmd with
  | [] => panic
  | word :: _ =>
      let c := ToLower word in
      if String.eqb c "setrange" then handleSetRange cmd
      else if String.eqb c "strlen" then handleStrLen cmd
      else if String.eqb c "substr" then handleSubStr cmd
      else if String.eqb c "getrange" then handleSubStr cmd
      else fail "command unknown"
  end.

End handlers.
End string_plugin.

(** ** The list plugin (src/plugins/list) *)

Module list_plugin.

Definition OK : string := "+OK" +:+ CRLF +:+ LF.

(** Runs [m] and drops its error, as a call whose results are not looked at. *)
Definition ignore {A} (m : M A) : M unit :=
  fun st => match m st with (_, st') => (Ok tt, st') end.

(** The type assertion [GetValue(key).([]interface{})]. *)
Definition asList (v : StoredValue) : option (list Scalar) :=
  match v with VList l => Some l | _ => None end.

Section handlers.
Context `{Externals}.

(** One bulk string of a reply array: ["$" + len(str) + "\r\n" + str + "\r\n"]
    with [str] the [%v] rendering of the element. *)
Definition bulkElem (x : Scalar) : string :=
  let str := fmtV x in "$" +:+ fmtD (slen str) +:+ CRLF +:+ str +:+ CRLF.

Definition handleLIndex (cmd : list string) : M string :=
  if negb (length cmd =? 3)%nat then fail "wrong number of args for LINDEX command"
  else
    match asInt (AdaptType (arg cmd 2)) with
    | None => fail "index must be an integer"
    | Some index =>
        do found <- KeyExists (arg cmd 1);
        if negb found then fail "LINDEX command on non-list item"
        else
          run KeyRLock (arg cmd 1);
          do v <- GetValue (arg cmd 1);
          run KeyRUnlock (arg cmd 1);
          match asList v with
          | None => fail "LINDEX command on non-list item"
          | Some lst =>
              if negb ((index >=? 0) && (index <? llen lst))
              then fail "index must be within list range"
              else
                do x <- lift (indexList lst index);
                ret ("+" +:+ fmtS x +:+ CRLF +:+ LF)
          end
    end.

(** The indices visited by the loop [for i != j] of [handleLRange]: from
    [start] to [end] inclusive, upwards when [start < end] and downwards
    otherwise.  Their number, [int(math.Abs(float64(start-end)))+1] in the
    reply header, is [|start - end| + 1] for indices of a list. *)
Definition rangeIndices (start end_ : Z) : list Z :=
  if start <? end_
  then map (fun k => start + Z.of_nat k) (seq 0 (Z.to_nat (end_ - start + 1)))
  else map (fun k => start - Z.of_nat k) (seq 0 (Z.to_nat (start - end_ + 1))).

(** Appends the bulk strings of [list[i]] for the indices [idxs]. *)
Fixpoint appendElems (lst : list Scalar) (idxs : list Z) (acc : string) : Res string :=
  match idxs with
  | [] => Ok acc
  | i :: rest =>
      match indexList lst i with
      | Ok x => appendElems lst rest (acc +:+ bulkElem x)
      | Err e => Err e
      | Panic => Panic
      end
  end.

Definition handleLRange (cmd : list string) : M string :=
  if negb (length cmd =? 4)%nat then fail "wrong number of arguments for LRANGE command"
  else
    match asInt (AdaptType (arg cmd 2)), asInt (AdaptType (arg cmd 3)) with
    | Some start, Some end_ =>
        do found <- KeyExists (arg cmd 1);
        if negb found then fail "LRANGE command on non-list item"
        else
          run KeyRLock (arg cmd 1);
          do v <- GetValue (arg cmd 1);
          run KeyRUnlock (arg cmd 1);
          match asList v with
          | None => fail "type cannot be returned with LRANGE command"
          | Some lst =>
              if negb ((start >=? 0) && (start <? llen lst))
              then fail "start index not within list range"
              else if negb (((end_ >=? 0) && (end_ <? llen lst)) || (end_ =? -1))
              then fail "end index must be within list range or -1"
              else if end_ =? -1 then
                do body <- lift (appendElems lst
                                   (map (fun k => start + Z.of_nat k)
                                        (seq 0 (Z.to_nat (llen lst - start))))
                                   ("*" +:+ fmtD (llen lst - start) +:+ CRLF));
                ret (body +:+ LF)
              else if start =? end_ then fail "start and end indices cannot be equal"
              else
                do body <- lift (appendElems lst (rangeIndices start end_)
                                   ("*" +:+ fmtD (Z.abs (start - end_) + 1) +:+ CRLF));
                ret (body +:+ LF)
          end
    | _, _ => fail "both start and end indices must be integers"
    end.

(** The head-to-tail loop of [handleLRem]: elements whose [%v] rendering is
    [value] are set to [nil] until [absoluteCount] reaches zero.
    [absoluteCount] is [math.Abs(float64(count))] counted down by one; it is
    kept as an integer, which is what the float computes up to [2^53]. *)
Fixpoint markFromHead (value : string) (lst : list Scalar) (absoluteCount : Z)
    : list (option Scalar) :=
  match lst with
  | [] => []
  | x :: rest =>
      if absoluteCount =? 0 then Some x :: map Some rest
      else if String.eqb (fmtV x) value
           then None :: markFromHead value rest (absoluteCount - 1)
           else Some x :: markFromHead value rest absoluteCount
  end.

(** The same loop run from the last index down to the first. *)
Definition markFromTail (value : string) (lst : list Scalar) (absoluteCount : Z)
    : list (option Scalar) :=
  rev (markFromHead value (rev lst) absoluteCount).

(** [utils.Filter(list, func(elem) bool { return elem != nil })]. *)
Definition dropNil (lst : list (option Scalar)) : list Scalar :=
  omap id lst.

Definition handleLRem (cmd : list string) : M string :=
  if negb (length cmd =? 4)%nat then fail "wrong number of arguments for LREM command"
  else
    let value := arg cmd 3 in
    match asInt (AdaptType (arg cmd 2)) with
    | None => fail "count must be an integer"
    | Some count =>
        let absoluteCount := Z.abs count in
        do found <- KeyExists (arg cmd 1);
        if negb found then fail "LREM command on non-list item"
        else
          run KeyLock (arg cmd 1);
          do v <- GetValue (arg cmd 1);
          match asList v with
          | None => fail "LREM command on non-list item"
          | Some lst =>
              let marked :=
                if count >? 0 then markFromHead value lst absoluteCount
                else if count <? 0 then markFromTail value lst absoluteCount
                else map Some lst (* Count is zero, keep list the same *) in
              run SetValue (arg cmd 1) (VList (dropNil marked));
              run KeyUnlock (arg cmd 1);
              ret OK
          end
    end.

Definition handleRPush (cmd : list string) : M string :=
  match cmd with
  | [] => panic
  | word :: _ =>
      if (length cmd <? 3)%nat
      then fail ("wrong number of arguments for " +:+ ToUpper word +:+ " command")
      else
        let newElems := map AdaptType (drop 2 cmd) in
        do found <- KeyExists (arg cmd 1);
        do _ <- (if negb found then
                   if String.eqb (ToLower word) "rpushx"
                   then fail (word +:+ " command on non-list item")
                   else
                     run ignore (CreateKeyAndLock (arg cmd 1));
                     SetValue (arg cmd 1) (VList [])
                 else ret tt);
        do currentList <- GetValue (arg cmd 1);
        match asList currentList with
        | None => fail "RPUSH command on non-list item"
        | Some l =>
            run SetValue (arg cmd 1) (VList (l ++ newElems));
            ret OK
        end
  end.

Definition handlePop (cmd : list string) : M string :=
  match cmd with
  | [] => panic
  | word :: _ =>
      if negb (length cmd =? 2)%nat
      then fail ("wrong number of args for " +:+ ToUpper word +:+ " command")
      else
        do found <- KeyExists (arg cmd 1);
        if negb found then fail (ToUpper word +:+ " command on non-list item")
        else
          run KeyLock (arg cmd 1);
          do v <- GetValue (arg cmd 1);
          match asList v with
          | None => fail (ToUpper word +:+ " command on non-list item")
          | Some lst =>
              if String.eqb (ToLower word) "rpop" then
                do rest <- lift (sliceList lst 0 (llen lst - 1));
                run SetValue (arg cmd 1) (VList rest);
                do x <- lift (indexList lst (llen lst - 1));
                ret ("+" +:+ fmtV x +:+ CRLF +:+ LF)
              else
                do rest <- lift (sliceList lst 1 (llen lst));
                run SetValue (arg cmd 1) (VList rest);
                do x <- lift (indexList lst 0);
                ret ("+" +:+ fmtV x +:+ CRLF +:+ LF)
          end
  end.

Definition handleLLen (cmd : list string) : M string :=
  if negb (length cmd =? 2)%nat then fail "wrong number of args for LLEN command"
  else
    do found <- KeyExists (arg cmd 1);
    if negb found then fail "LLEN command on non-list item"
    else
      run KeyRLock (arg cmd 1);
      do v <- GetValue (arg cmd 1);
      run KeyRUnlock (arg cmd 1);
      match asList v with
      | None => fail "LLEN command on non-list item"
      | Some lst => ret (":" +:+ fmtD (llen lst) +:+ CRLF +:+ LF)
      end.

(** [handleLSet]; its [fmt.Printf] to the standard output is left out. *)
Definition handleLSet (cmd : list string) : M string :=
  if negb (length cmd =? 4)%nat then fail "wrong number of arguments for LSET command"
  else
    do found <- KeyExists (arg cmd 1);
    if negb found then fail "LSET command on non-list item"
    else
      run KeyLock (arg cmd 1);
      do v <- GetValue (arg cmd 1);
      match asList v with
      | None =>
          run KeyUnlock (arg cmd 1);
          fail "LSET command on non-list item"
      | Some lst =>
          match asInt (AdaptType (arg cmd 2)) with
          | None =>
              run KeyUnlock (arg cmd 1);
              fail "index must be an integer"
          | Some index =>
              if negb ((index >=? 0) && (index <? llen lst)) then
                run KeyUnlock (arg cmd 1);
                fail "index must be within range"
              else
                run SetValue (arg cmd 1)
                      (VList (<[Z.to_nat index := AdaptType (arg cmd 3)]> lst));
                run KeyUnlock (arg cmd 1);
                ret OK
          end
      end.

Definition handleLTrim (cmd : list string) : M string :=
  if negb (length cmd =? 4)%nat then fail "wrong number of args for command LTRIM"
  else
    match asInt (AdaptType (arg cmd 2)), asInt (AdaptType (arg cmd 3)) with
    | Some start, Some end_ =>
        if (end_ <? start) && negb (end_ =? -1)
        then fail "end index must be greater than start index or -1"
        else
          do found <- KeyExists (arg cmd 1);
          if negb found then fail "LTRIM command on non-list item"
          else
            run KeyLock (arg cmd 1);
            do v <- GetValue (arg cmd 1);
            match asList v with
            | None => fail "LTRIM command on non-list item"
            | Some lst =>
                if negb ((start >=? 0) && (start <? llen lst))
                then fail "start index must be within list boundary"
                else if (end_ =? -1) || (end_ >? llen lst) then
                  do kept <- lift (sliceList lst start (llen lst));
                  run SetValue (arg cmd 1) (VList kept);
                  run KeyUnlock (arg cmd 1);
                  ret OK
                else
                  do kept <- lift (sliceList lst start end_);
                  run SetValue (arg cmd 1) (VList kept);
                  run KeyUnlock (arg cmd 1);
                  ret OK
            end
    | _, _ => fail "start and end indices must be integers"
    end.

(** [handleLMove].  Each [SetValue] stores a slice of its own: the source
    is stored as a copy, and the destination is built by [append] after
    that.  Both keys are locked one after the other, so a command that names
    one key twice does not get this far in the running server. *)
Definition handleLMove (cmd : list string) : M string :=
  if negb (length cmd =? 5)%nat then fail "wrong number of arguments for LMOVE command"
  else
    let whereFrom := ToLower (arg cmd 3) in
    let whereTo := ToLower (arg cmd 4) in
    if negb (Contains ["left"; "right"] whereFrom) || negb (Contains ["left"; "right"] whereTo)
    then fail "wherefrom and whereto arguments must be either LEFT or RIGHT"
    else
      do foundSource <- KeyExists (arg cmd 1);
      do foundDestination <- KeyExists (arg cmd 2);
      if negb foundSource || negb foundDestination
      then fail "both source and destination must be lists"
      else
        run KeyLock (arg cmd 1);
        run KeyLock (arg cmd 2);
        do vs <- GetValue (arg cmd 1);
        do vd <- GetValue (arg cmd 2);
        match asList vs, asList vd with
        | Some source, Some destination =>
            run (if String.eqb whereFrom "left" then
                   do rest <- lift (sliceList source 1 (llen source));
                   run SetValue (arg cmd 1) (VList rest);
                   if String.eqb whereTo "left" then
                     do front <- lift (sliceList source 0 1);
                     SetValue (arg cmd 2) (VList (front ++ destination))
                   else if String.eqb whereTo "right" then
                     do x <- lift (indexList source 0);
                     SetValue (arg cmd 2) (VList (destination ++ [x]))
                   else ret tt
                 else if String.eqb whereFrom "right" then
                   do rest <- lift (sliceList source 0 (llen source - 1));
                   run SetValue (arg cmd 1) (VList rest);
                   if String.eqb whereTo "left" then
                     do back <- lift (sliceList source (llen source - 1) (llen source));
                     SetValue (arg cmd 2) (VList (back ++ destination))
                   else if String.eqb whereTo "right" then
                     do x <- lift (indexList source (llen source - 1));
                     SetValue (arg cmd 2) (VList (destination ++ [x]))
                   else ret tt
                 else ret tt);
            run KeyUnlock (arg cmd 1);
            run KeyUnlock (arg cmd 2);
            ret OK
        | _, _ => fail "both source and destination must be lists"
        end.

Definition handleLPush (cmd : list string) : M string :=
  match cmd with
  | [] => panic
  | word :: _ =>
      if (length cmd <? 3)%nat
      then fail ("wrong number of arguments for " +:+ ToUpper word +:+ " command")
      else
        let newElems := map AdaptType (drop 2 cmd) in
        let key := arg cmd 1 in
        do found <- KeyExists key;
        do _ <- (if negb found then
                   if String.eqb (ToLower word) "lpushx"
                   then fail (word +:+ " command on non-list item")
                   else
                     run ignore (CreateKeyAndLock key);
                     SetValue key (VList [])
                 else ret tt);
        do currentList <- GetValue key;
        match asList currentList with
        | None => fail (word +:+ " command on non-list item")
        | Some l =>
            run SetValue key (VList (newElems ++ l));
            ret OK
        end
  end.

(** [HandleCommand] of the list plugin: reading [cmd[0]] of an empty
    command panics. *)
Definition HandleCommand (cmd : list string) : M string :=
  match cmd with
  | [] => panic
  | word :: _ =>
      let c := ToLower word in
      if String.eqb c "llen" then handleLLen cmd
      else if String.eqb c "lindex" then handleLIndex cmd
      else if String.eqb c "lrange" then handleLRange cmd
      else if String.eqb c "lset" then handleLSet cmd
      else if String.eqb c "ltrim" then handleLTrim cmd
      else if String.eqb c "lrem" then handleLRem cmd
      else if String.eqb c "lmove" then handleLMove cmd
      else if Contains ["lpush"; "lpushx"] c then handleLPush cmd
      else if Contains ["rpush"; "rpushx"] c then handleRPush cmd
      else if Contains ["lpop"; "rpop"] c then handlePop cmd
      else fail "command unknown"
  end.

(** [utils.Command] as the list plugin fills it in. *)
Record Command : Type := mkCommand {
  CommandName : string;
  Categories : list string;
  Description : string;
  Sync : bool;
  KeyExtractionFunc : list string -> Res (list string)
}.

Record Plugin : Type := mkPlugin {
  name : string;
  commands : list Command;
  description : string
}.

(** The key extractors of [NewModule]: [wrong] is the test on [len(cmd)]
    that answers "wrong number of arguments". *)
Definition keyAt1 (wrong : nat -> bool) (cmd : list string) : Res (list string) :=
  if wrong (length cmd) then Err "wrong number of arguments"
  else Ok [arg cmd 1].

Definition keysAt12 (wrong : nat -> bool) (cmd : list string) : Res (list string) :=
  if wrong (length cmd) then Err "wrong number of arguments"
  else Ok [arg cmd 1; arg cmd 2].

Definition NewModule : Plugin :=
  mkPlugin "ListCommands" [
    mkCommand "lpush" []
      "(LPUSH key value1 [value2]) Prepends one or more values to the beginning of a list, creates the list if it does not exist."
      true (keyAt1 (fun n => n <? 3)%nat);
    mkCommand "lpushx" []
      "(LPUSHX key value) Prepends a value to the beginning of a list only if the list exists."
      true (keyAt1 (fun n => negb (n =? 3))%nat);
    mkCommand "lpop" []
      "(LPOP key) Removes and returns the first element of a list."
      true (keyAt1 (fun n => negb (n =? 2))%nat);
    mkCommand "llen" []
      "(LLEN key) Return the length of a list."
      true (keyAt1 (fun n => negb (n =? 2))%nat);
    mkCommand "lrange" []
      "(LRANGE key start end) Return a range of elements between the given indices."
      true (keyAt1 (fun n => negb (n =? 4))%nat);
    mkCommand "lindex" []
      "(LINDEX key index) Gets list element by index."
      true (keyAt1 (fun n => negb (n =? 3))%nat);
    mkCommand "lset" []
      "(LSET key index value) Sets the value of an element in a list by its index."
      true (keyAt1 (fun n => negb (n =? 4))%nat);
    mkCommand "ltrim" []
      "(LTRIM key start end) Trims a list to the specified range."
      true (keyAt1 (fun n => negb (n =? 4))%nat);
    mkCommand "lrem" []
      "(LREM key count value) Remove elements from list."
      true (keyAt1 (fun n => negb (n =? 4))%nat);
    mkCommand "lmove" []
      "(LMOVE source destination <LEFT | RIGHT> <LEFT | RIGHT>) Move element from one list to the other specifying left/right for both lists."
      true (keysAt12 (fun n => negb (n =? 5))%nat);
    mkCommand "rpop" []
      "(RPOP key) Removes and gets the last element in a list."
      true (keyAt1 (fun n => negb (n =? 2))%nat);
    mkCommand "rpush" []
      "(RPUSH key value [value2]) Appends one or multiple elements to the end of a list."
      true (keyAt1 (fun n => n <? 3)%nat);
    mkCommand "rpushx" []
      "(RPUSHX key value) Appends an element to the end of a list, only if the list exists."
      true (keyAt1 (fun n => negb (n =? 3))%nat)
  ] "Handle List commands".

End handlers.
End list_plugin.

(** ** Module [sorted_set] (pkg/modules/sorted_set) *)

Module sorted_set.

(** The key extractors of this module and of module [hash] are not part of
    the sources.  They are modelled from section 4.7 of the spec and after
    the extractors of module [str], which are: a wrong argument count is
    answered with [WrongArgsResponse] and [cmd[1:2]] is the key.  The
    argument counts are those of the command syntax in [Commands]. *)

(** Modelled from the spec: [zaddKeyFunc] is missing;
    ZADD key [NX | XX] [GT | LT] [CH] [INCR] score member [score member...]. *)
Definition zaddKeyFunc (cmd : list string) : Res AccessKeys :=
  if (length cmd <? 4)%nat then Err WrongArgsResponse
  else Ok (mkKeys [] [] (take 1 (drop 1 cmd))).

(** Modelled from the spec: [zlexcountKeyFunc] is missing;
    ZLEXCOUNT key min max. *)
Definition zlexcountKeyFunc (cmd : list string) : Res AccessKeys :=
  if negb (length cmd =? 4)%nat then Err WrongArgsResponse
  else Ok (mkKeys [] (take 1 (drop 1 cmd)) []).

(** Modelled from the spec: [zremKeyFunc] is missing;
    ZREM key member [member ...]. *)
Definition zremKeyFunc (cmd : list string) : Res AccessKeys :=
  if (length cmd <? 3)%nat then Err WrongArgsResponse
  else Ok (mkKeys [] [] (take 1 (drop 1 cmd))).

(** Modelled from the spec: [zremrangebyscoreKeyFunc] is missing;
    ZREMRANGEBYSCORE key min max. *)
Definition zremrangebyscoreKeyFunc (cmd : list string) : Res AccessKeys :=
  if negb (length cmd =? 4)%nat then Err WrongArgsResponse
  else Ok (mkKeys [] [] (take 1 (drop 1 cmd))).

(** Modelled from the spec: [zremrangebylexKeyFunc] is missing;
    ZREMRANGEBYLEX key min max. *)
Definition zremrangebylexKeyFunc (cmd : list string) : Res AccessKeys :=
  if negb (length cmd =? 4)%nat then Err WrongArgsResponse
  else Ok (mkKeys [] [] (take 1 (drop 1 cmd))).

(** Modelled from the spec: [zrangeKeyCount] is missing; ZRANGE key start
    stop [BYSCORE | BYLEX] [REV] [LIMIT offset count] [WITHSCORES]. *)
Definition zrangeKeyCount (cmd : list string) : Res AccessKeys :=
  if (length cmd <? 4)%nat || (10 <? length cmd)%nat then Err WrongArgsResponse
  else Ok (mkKeys [] (take 1 (drop 1 cmd)) []).

(** The type assertion [GetValue(ctx, key).( *sorted_set.SortedSet)]. *)
Definition asSortedSet (v : StoredValue) : option SortedSet :=
  match v with VSortedSet s => Some s | _ => None end.

Definition notSortedSet {A} (key : string) : M A :=
  fail ("value at " +:+ key +:+ " is not a sorted set").

(** The options of ZADD as the handler holds them: [nil] or the token. *)
Record ZaddOptions : Type := mkOptions {
  updatePolicy : option string;
  comparison : option string;
  changed : option string;
  incr : option string
}.

(** [members[i].Score], [members[i].Value] for an index in range. *)
Definition scoreAt (members : list MemberParam) (i : nat) : Score :=
  MScore (nth i members (mkMember "" (S754_zero false))).

(** The loop [for i := 0; i < bound; i++] that answers whether
    [members[i].Score != members[i+1].Score] for some [i]. *)
Definition scoresDiffer (members : list MemberParam) (bound : Z) : bool :=
  existsb (fun i => ScoreNe (scoreAt members i) (scoreAt members (i + 1)))
          (seq 0 (Z.to_nat bound)).

Section handlers.
Context `{Externals}.

(** The type switch on [internal.AdaptType(cmd[i])] that recognises a score. *)
Definition isScoreToken (tok : string) : bool :=
  match AdaptType tok with
  | SStr _ => Contains ["-inf"; "+inf"] (ToLower tok)
  | SFloat _ => true
  | SInt _ => true
  end.

(** The search for [membersStartIndex]: [i] is the index of the head of
    [rest]. *)
Fixpoint findMembersStart (rest : list string) (i membersStartIndex : Z) : Z :=
  match rest with
  | [] => membersStartIndex
  | tok :: rest' =>
      if negb (membersStartIndex =? 0) then membersStartIndex
      else findMembersStart rest' (i + 1)
             (if isScoreToken tok then i else membersStartIndex)
  end.

(** The loop over [cmd[membersStartIndex:]] taken two tokens at a time. *)
Fixpoint parseMembers (pairs : list string) : list MemberParam :=
  match pairs with
  | score :: member :: rest =>
      match AdaptType score with
      | SStr str =>
          (if String.eqb (ToLower str) "-inf" then [mkMember member (Inf (-1))] else []) ++
          (if String.eqb (ToLower str) "+inf" then [mkMember member (Inf 1)] else []) ++
          parseMembers rest
      | SFloat f => mkMember member f :: parseMembers rest
      | SInt n => mkMember member (ScoreOfInt n) :: parseMembers rest
      end
  | _ => []
  end.

(** The loop over [options := cmd[2:membersStartIndex]]. *)
Fixpoint parseOptions (options : list string) (nmembers : nat) (o : ZaddOptions)
    : Res ZaddOptions :=
  match options with
  | [] => Ok o
  | option :: rest =>
      if Contains ["xx"; "nx"] (ToLower option) then
        if EqualFold option "NX" && bool_decide (is_Some (comparison o))
        then Err "GT/LT flags not allowed if NX flag is provided"
        else parseOptions rest nmembers
               (mkOptions (Some option) (comparison o) (changed o) (incr o))
      else if Contains ["gt"; "lt"] (ToLower option) then
        if EqualFold (default "" (updatePolicy o)) "NX"
        then Err "GT/LT flags not allowed if NX flag is provided"
        else parseOptions rest nmembers
               (mkOptions (updatePolicy o) (Some option) (changed o) (incr o))
      else if EqualFold option "ch" then
        parseOptions rest nmembers
          (mkOptions (updatePolicy o) (comparison o) (Some option) (incr o))
      else if EqualFold option "incr" then
        if (1 <? nmembers)%nat
        then Err "cannot pass more than one score/member pair when INCR flag is provided"
        else parseOptions rest nmembers
               (mkOptions (updatePolicy o) (comparison o) (changed o) (Some option))
      else Err ("invalid option " +:+ option)
  end.

Definition noOptions : ZaddOptions := mkOptions None None None None.

(** The tokens the handler reads as options: [cmd[2:membersStartIndex]]
    when [membersStartIndex > 2]. *)
Definition optionTokens (cmd : list string) : list string :=
  let membersStartIndex := findMembersStart cmd 0 0 in
  if membersStartIndex >? 2
  then take (Z.to_nat (membersStartIndex - 2)) (drop 2 cmd)
  else [].

Definition handleZADD (cmd : list string) : M string :=
  do keys <- lift (zaddKeyFunc cmd);
  do key <- lift (indexList (WriteKeys keys) 0);
  let membersStartIndex := findMembersStart cmd 0 0 in
  let pairs := drop (Z.to_nat membersStartIndex) cmd in
  if (membersStartIndex <? 2) || negb (llen pairs mod 2 =? 0)
  then fail "score/member pairs must be float/string"
  else
    let members := parseMembers pairs in
    do o <- lift (parseOptions (optionTokens cmd) (length members) noOptions);
    do found <- KeyExists key;
    if found then
      run KeyLock key;
      do v <- GetValue key;
      match asSortedSet v with
      | None => notSortedSet key
      | Some set =>
          do r <- lift (AddOrUpdate set members (updatePolicy o) (comparison o)
                          (changed o) (incr o));
          let '(count, set') := r in
          run mutateAt key (VSortedSet set');
          match incr o with
          | Some _ =>
              (* If INCR option is provided, return the new score value *)
              match members with
              | [] => panic
              | m0 :: _ => ret ("+" +:+ fmtF (GetScore set' (Value m0)) +:+ CRLF)
              end
          | None => ret (":" +:+ fmtD count +:+ CRLF)
          end
      end
    else
      run CreateKeyAndLock key;
      let set := NewSortedSet members in
      run SetValue key (VSortedSet set);
      ret (":" +:+ fmtD (Cardinality set) +:+ CRLF).

(** Membership of a value in the lexicographic range [minimum, maximum]. *)
Definition inLexRange (v minimum maximum : string) : bool :=
  let c1 := CompareLex v minimum in
  let c2 := CompareLex v maximum in
  ((c1 =? 1) || (c1 =? 0)) && ((c2 =? -1) || (c2 =? 0)).

Definition handleZLEXCOUNT (cmd : list string) : M string :=
  do keys <- lift (zlexcountKeyFunc cmd);
  do key <- lift (indexList (ReadKeys keys) 0);
  let minimum := arg cmd 2 in
  let maximum := arg cmd 3 in
  do found <- KeyExists key;
  if negb found then ret (":0" +:+ CRLF)
  else
    run KeyRLock key;
    do v <- GetValue key;
    match asSortedSet v with
    | None => notSortedSet key
    | Some set =>
        let members := GetAll set in
        (* Check if all members has the same score *)
        if scoresDiffer members (llen members - 2) then ret (":0" +:+ CRLF)
        else
          let count := llen (filter (fun m => inLexRange (Value m) minimum maximum = true)
                               members) in
          ret (":" +:+ fmtD count +:+ CRLF)
    end.

(** The loop [for _, m := range cmd[2:] { if set.Remove(m) { deletedCount += 1 } }]. *)
Fixpoint removeEach (set : SortedSet) (ms : list string) (deletedCount : Z)
    : Z * SortedSet :=
  match ms with
  | [] => (deletedCount, set)
  | m :: rest =>
      let '(removed, set') := Remove set m in
      removeEach set' rest (if removed then deletedCount + 1 else deletedCount)
  end.

Definition handleZREM (cmd : list string) : M string :=
  do keys <- lift (zremKeyFunc cmd);
  do key <- lift (indexList (WriteKeys keys) 0);
  do found <- KeyExists key;
  if negb found then ret (":0" +:+ CRLF)
  else
    run KeyLock key;
    do v <- GetValue key;
    match asSortedSet v with
    | None => notSortedSet key
    | Some set =>
        let '(deletedCount, set') := removeEach set (drop 2 cmd) 0 in
        run mutateAt key (VSortedSet set');
        ret (":" +:+ fmtD deletedCount +:+ CRLF)
    end.

(** The loop [for _, m := range members { if keep m { set.Remove(m.Value);
    deletedCount += 1 } }] of the range removals. *)
Fixpoint removeWhere (sel : MemberParam -> bool) (set : SortedSet)
    (members : list MemberParam) (deletedCount : Z) : Z * SortedSet :=
  match members with
  | [] => (deletedCount, set)
  | m :: rest =>
      if sel m
      then removeWhere sel (snd (Remove set (Value m))) rest (deletedCount + 1)
      else removeWhere sel set rest deletedCount
  end.

Definition handleZREMRANGEBYSCORE (cmd : list string) : M string :=
  do keys <- lift (zremrangebyscoreKeyFunc cmd);
  do key <- lift (indexList (WriteKeys keys) 0);
  do minimum <- lift (ParseFloat (arg cmd 2));
  do maximum <- lift (ParseFloat (arg cmd 3));
  do found <- KeyExists key;
  if negb found then ret (":0" +:+ CRLF)
  else
    run KeyLock key;
    do v <- GetValue key;
    match asSortedSet v with
    | None => notSortedSet key
    | Some set =>
        let '(deletedCount, set') :=
          removeWhere (fun m => ScoreGe (MScore m) minimum && ScoreLe (MScore m) maximum)
            set (GetAll set) 0 in
        run mutateAt key (VSortedSet set');
        ret (":" +:+ fmtD deletedCount +:+ CRLF)
    end.

Definition handleZREMRANGEBYLEX (cmd : list string) : M string :=
  do keys <- lift (zremrangebylexKeyFunc cmd);
  do key <- lift (indexList (WriteKeys keys) 0);
  let minimum := arg cmd 2 in
  let maximum := arg cmd 3 in
  do found <- KeyExists key;
  if negb found then ret (":0" +:+ CRLF)
  else
    run KeyLock key;
    do v <- GetValue key;
    match asSortedSet v with
    | None => notSortedSet key
    | Some set =>
        let members := GetAll set in
        (* Check if all the members have the same score. If not, return 0 *)
        if scoresDiffer members (llen members - 1) then ret (":0" +:+ CRLF)
        else
          let '(deletedCount, set') :=
            removeWhere (fun m => inLexRange (Value m) minimum maximum) set members 0 in
          run mutateAt key (VSortedSet set');
          ret (":" +:+ fmtD deletedCount +:+ CRLF)
    end.

(** [slices.ContainsFunc(cmd[4:], func(s) bool { return strings.EqualFold(s, word) })]. *)
Definition hasWord (rest : list string) (word : string) : bool :=
  existsb (fun s => EqualFold s word) rest.

(** [slices.IndexFunc] for the same predicate: the first index, or -1. *)
Fixpoint indexWord (rest : list string) (word : string) : Z :=
  match rest with
  | [] => -1
  | s :: rest' =>
      if EqualFold s word then 0
      else let i := indexWord rest' word in if i =? -1 then -1 else i + 1
  end.

(** The reply of ZRANGE for the selected members. *)
Definition rangeReply (withscores : bool) (resultMembers : list MemberParam) : string :=
  fold_left
    (fun res m =>
       if withscores
       then res +:+ CRLF +:+ "*2" +:+ CRLF +:+ "$" +:+ fmtD (slen (Value m)) +:+ CRLF +:+
            Value m +:+ CRLF +:+ "+" +:+ FormatFloat (MScore m)
       else res +:+ CRLF +:+ "*1" +:+ CRLF +:+ "$" +:+ fmtD (slen (Value m)) +:+ CRLF +:+
            Value m)
    resultMembers ("*" +:+ fmtD (llen resultMembers))
  +:+ CRLF.

(** The members visited by [for i := offset; i <= count; i++] with its
    [break] at [i >= len(members)]: indices [offset .. count] that exist. *)
Definition window (members : list MemberParam) (offset count : Z) : list MemberParam :=
  take (Z.to_nat (count - offset + 1)) (drop (Z.to_nat offset) members).

(** [LIMIT offset count] of ZRANGE: the defaults are 0 and -1. *)
Definition parseLimit (rest : list string) : Res (Z * Z) :=
  if hasWord rest "limit" then
    let limitIdx := indexWord rest "limit" in
    if negb (limitIdx =? -1) && (limitIdx >? llen rest - 3)
    then Err "limit should contain offset and count as integers"
    else
      match indexList rest (limitIdx + 1) with
      | Panic => Panic
      | Err e => Err e
      | Ok offsetTok =>
          match Atoi offsetTok with
          | Ok offset =>
              if offset <? 0 then Err "limit offset must be >= 0"
              else
                match indexList rest (limitIdx + 2) with
                | Panic => Panic
                | Err e => Err e
                | Ok countTok =>
                    match Atoi countTok with
                    | Ok count => Ok (offset, count)
                    | _ => Err "limit count must be integer"
                    end
                end
          | _ => Err "limit offset must be integer"
          end
      end
  else Ok (0, -1).

Definition handleZRANGE (cmd : list string) : M string :=
  do keys <- lift (zrangeKeyCount cmd);
  do key <- lift (indexList (ReadKeys keys) 0);
  let lexStart := arg cmd 2 in
  let lexStop := arg cmd 3 in
  let rest := drop 4 cmd in
  let withscores := hasWord rest "withscores" in
  let reverse := hasWord rest "rev" in
  let bylex := hasWord rest "bylex" in
  do scoreStart <- lift (if bylex then Ok (Inf (-1)) else ParseFloat (arg cmd 2));
  do scoreStop <- lift (if bylex then Ok (Inf 1) else ParseFloat (arg cmd 3));
  do limit <- lift (parseLimit rest);
  let '(offset, count) := limit in
  do found <- KeyExists key;
  if negb found then ret ("*0" +:+ CRLF)
  else
    run KeyRLock key;
    do v <- GetValue key;
    match asSortedSet v with
    | None => notSortedSet key
    | Some set =>
        if offset >? Cardinality set then ret ("*0" +:+ CRLF)
        else
          let count := if count <? 0 then Cardinality set - offset else count in
          let members := GetAll set in
          if negb bylex then
            let members :=
              SortFunc MemberParam
                (fun a b =>
                   (* Do a score sort *)
                   if reverse then cmpCompare (MScore b) (MScore a)
                   else cmpCompare (MScore a) (MScore b))
                members in
            let resultMembers :=
              filter (fun m => ScoreGe (MScore m) scoreStart && ScoreLe (MScore m) scoreStop = true)
                (window members offset count) in
            ret (rangeReply withscores resultMembers)
          else
            (* If policy is BYLEX, all the elements must have the same score *)
            if scoresDiffer members (llen members - 1) then ret ("*0" +:+ CRLF)
            else
              let members :=
                SortFunc MemberParam
                  (fun a b =>
                     if reverse then CompareLex (Value b) (Value a)
                     else CompareLex (Value a) (Value b))
                  members in
              let resultMembers :=
                filter (fun m => inLexRange (Value m) lexStart lexStop = true)
                  (window members offset count) in
              ret (rangeReply withscores resultMembers)
    end.





(** Modelled from the spec: [zremrangebyrankKeyFunc] is missing;
    ZREMRANGEBYRANK key start stop. *)
Definition zremrangebyrankKeyFunc (cmd : list string) : Res AccessKeys :=
  if negb (length cmd =? 4)%nat then Err WrongArgsResponse
  else Ok (mkKeys [] [] (take 1 (drop 1 cmd))).





(** The removal loops of [handleZREMRANGEBYRANK] over the ranks [idxs];
    each [set.Remove] acts on the set stored at [key]. *)
Fixpoint removeRanks (key : string) (set : SortedSet) (members : list MemberParam)
    (idxs : list Z) (deletedCount : Z) : M Z :=
  match idxs with
  | [] => ret deletedCount
  | i :: rest =>
      do m <- lift (indexList members i);
      let set' := snd (Remove set (Value m)) in
      run mutateAt key (VSortedSet set');
      removeRanks key set' members rest (deletedCount + 1)
  end.

Definition handleZREMRANGEBYRANK (cmd : list string) : M string :=
  do keys <- lift (zremrangebyrankKeyFunc cmd);
  do key <- lift (indexList (WriteKeys keys) 0);
  do start <- lift (Atoi (arg cmd 2));
  do stop <- lift (Atoi (arg cmd 3));
  do found <- KeyExists key;
  if negb found then ret (":0" +:+ CRLF)
  else
    run KeyLock key;
    do v <- GetValue key;
    match asSortedSet v with
    | None => notSortedSet key
    | Some set =>
        let start := if start <? 0 then wrap64 (start + Cardinality set) else start in
        let stop := if stop <? 0 then wrap64 (stop + Cardinality set) else stop in
        if (start <? 0) || (start >? Cardinality set - 1) ||
           (stop <? 0) || (stop >? Cardinality set - 1)
        then fail "indices out of bounds"
        else
          let members :=
            SortFunc MemberParam (fun a b => cmpCompare (MScore a) (MScore b))
              (GetAll set) in
          let idxs :=
            if start <? stop
            then map (fun k => start + Z.of_nat k) (seq 0 (Z.to_nat (stop - start + 1)))
            else map (fun k => stop + Z.of_nat k) (seq 0 (Z.to_nat (start - stop + 1))) in
          do deletedCount <- removeRanks key set members idxs 0;
          ret (":" +:+ fmtD deletedCount +:+ CRLF)
    end.

End handlers.
End sorted_set.

(** ** Module [hash] (pkg/modules/hash) *)

Module hash.

(** Modelled from the spec: [hdelKeyFunc] is missing; HDEL key field
    [field ...], see the extractors of [sorted_set]. *)
Definition hdelKeyFunc (cmd : list string) : Res AccessKeys :=
  if (length cmd <? 3)%nat then Err WrongArgsResponse
  else Ok (mkKeys [] [] (take 1 (drop 1 cmd))).

(** The type assertion [GetValue(ctx, key).(map[string]interface{})]. *)
Definition asHash (v : StoredValue) : option (gmap string Scalar) :=
  match v with VHash h => Some h | _ => None end.

(** The loop [for _, field := range fields { if hash[field] != nil {
    delete(hash, field); count += 1 } }]. *)
Fixpoint deleteFields (hash : gmap string Scalar) (fields : list string) (count : Z)
    : Z * gmap string Scalar :=
  match fields with
  | [] => (count, hash)
  | field :: rest =>
      match hash !! field with
      | Some _ => deleteFields (delete field hash) rest (count + 1)
      | None => deleteFields hash rest count
      end
  end.

Definition handleHDEL (cmd : list string) : M string :=
  do keys <- lift (hdelKeyFunc cmd);
  do key <- lift (indexList (WriteKeys keys) 0);
  let fields := drop 2 cmd in
  do found <- KeyExists key;
  if negb found then ret (":0" +:+ CRLF)
  else
    run KeyLock key;
    do v <- GetValue key;
    match asHash v with
    | None => fail ("value at " +:+ key +:+ " is not a hash")
    | Some hash =>
        let '(count, hash') := deleteFields hash fields 0 in
        run SetValue key (VHash hash');
        ret (":" +:+ fmtD count +:+ CRLF)
    end.

(** Modelled from the spec: [hsetKeyFunc] is missing; HSET key field value
    [field value ...], see the extractors of [sorted_set]. *)
Definition hsetKeyFunc (cmd : list string) : Res AccessKeys :=
  if (length cmd <? 4)%nat then Err WrongArgsResponse
  else Ok (mkKeys [] [] (take 1 (drop 1 cmd))).

(** Modelled from the spec: [hgetKeyFunc] is missing; HGET key field
    [field ...]. *)
Definition hgetKeyFunc (cmd : list string) : Res AccessKeys :=
  if (length cmd <? 3)%nat then Err WrongArgsResponse
  else Ok (mkKeys [] (take 1 (drop 1 cmd)) []).

(** Modelled from the spec: [hstrlenKeyFunc] is missing; HSTRLEN key field
    [field ...]. *)
Definition hstrlenKeyFunc (cmd : list string) : Res AccessKeys :=
  if (length cmd <? 3)%nat then Err WrongArgsResponse
  else Ok (mkKeys [] (take 1 (drop 1 cmd)) []).

(** Modelled from the spec: [hvalsKeyFunc], [hlenKeyFunc], [hkeysKeyFunc]
    and [hgetallKeyFunc] are missing; each command takes the key only. *)
Definition keyOnlyKeyFunc (cmd : list string) : Res AccessKeys :=
  if negb (length cmd =? 2)%nat then Err WrongArgsResponse
  else Ok (mkKeys [] (take 1 (drop 1 cmd)) []).

(** Modelled from the spec: [hincrbyKeyFunc] is missing; HINCRBY key field
    increment. *)
Definition hincrbyKeyFunc (cmd : list string) : Res AccessKeys :=
  if negb (length cmd =? 4)%nat then Err WrongArgsResponse
  else Ok (mkKeys [] [] (take 1 (drop 1 cmd))).

(** Modelled from the spec: [hexistsKeyFunc] is missing; HEXISTS key
    field. *)
Definition hexistsKeyFunc (cmd : list string) : Res AccessKeys :=
  if negb (length cmd =? 3)%nat then Err WrongArgsResponse
  else Ok (mkKeys [] (take 1 (drop 1 cmd)) []).

(** The order in which a [range] loop visits the entries of a Go map: the
    language leaves it open, and visits every entry once. *)
Class MapOrder : Type := {
  rangeOver : gmap string Scalar -> list (string * Scalar);
  rangeOver_entries : forall m, rangeOver m ≡ₚ map_to_list m
}.

Section handlers.
Context `{Externals} `{MapOrder}.

(** The loop [for i := 2; i <= len(cmd)-2; i += 2] over [pairs = cmd[2:]],
    whose length is even. *)
Fixpoint collectEntries (pairs : list string) (entries : gmap string Scalar)
    : gmap string Scalar :=
  match pairs with
  | field :: value :: rest => collectEntries rest (<[field := AdaptType value]> entries)
  | _ => entries
  end.

(** The loop [for field, value := range entries] of [handleHSET]; [nx] is
    [strings.EqualFold(cmd[0], "hsetnx")]. *)
Fixpoint setEntries (nx : bool) (entries : list (string * Scalar))
    (hash : gmap string Scalar) (count : Z) : Z * gmap string Scalar :=
  match entries with
  | [] => (count, hash)
  | (field, value) :: rest =>
      if nx then
        match hash !! field with
        | None => setEntries nx rest (<[field := value]> hash) (count + 1)
        | Some _ => setEntries nx rest hash count
        end
      else setEntries nx rest (<[field := value]> hash) (count + 1)
  end.

Definition handleHSET (cmd : list string) : M string :=
  do keys <- lift (hsetKeyFunc cmd);
  do key <- lift (indexList (WriteKeys keys) 0);
  if negb (llen (drop 2 cmd) mod 2 =? 0)
  then fail "each field must have a corresponding value"
  else
    let entries := collectEntries (drop 2 cmd) ∅ in
    do found <- KeyExists key;
    if negb found then
      run CreateKeyAndLock key;
      run SetValue key (VHash entries);
      run KeyUnlock key;
      ret (":" +:+ fmtD (Z.of_nat (size entries)) +:+ CRLF)
    else
      run KeyLock key;
      do v <- GetValue key;
      match asHash v with
      | None => fail ("value at " +:+ key +:+ " is not a hash")
      | Some hash =>
          let '(count, hash') :=
            setEntries (EqualFold (arg cmd 0) "hsetnx") (rangeOver entries) hash 0 in
          run SetValue key (VHash hash');
          run KeyUnlock key;
          ret (":" +:+ fmtD count +:+ CRLF)
      end.

(** One round of the reply loop of [handleHGET]. *)
Definition hgetField (hash : gmap string Scalar) (res field : string) : string :=
  match hash !! field with
  | None => res +:+ "$-1" +:+ CRLF
  | Some (SStr s) => res +:+ "$" +:+ fmtD (slen s) +:+ CRLF +:+ s +:+ CRLF
  | Some (SInt d) => res +:+ ":" +:+ fmtD d +:+ CRLF
  | Some (SFloat f) =>
      let fs := FormatFloat f in
      res +:+ "$" +:+ fmtD (slen fs) +:+ CRLF +:+ fs +:+ CRLF
  end.

Definition handleHGET (cmd : list string) : M string :=
  do keys <- lift (hgetKeyFunc cmd);
  do key <- lift (indexList (ReadKeys keys) 0);
  let fields := drop 2 cmd in
  do found <- KeyExists key;
  if negb found then ret ("$-1" +:+ CRLF)
  else
    run KeyRLock key;
    do v <- GetValue key;
    match asHash v with
    | None => fail ("value at " +:+ key +:+ " is not a hash")
    | Some hash =>
        ret (fold_left (hgetField hash) fields ("*" +:+ fmtD (llen fields) +:+ CRLF))
    end.

(** One round of the reply loop of [handleHSTRLEN]; [strconv.Itoa] prints
    as the verb [%d]. *)
Definition hstrlenField (hash : gmap string Scalar) (res field : string) : string :=
  match hash !! field with
  | None => res +:+ ":0" +:+ CRLF
  | Some (SStr s) => res +:+ ":" +:+ fmtD (slen s) +:+ CRLF
  | Some (SFloat f) => res +:+ ":" +:+ fmtD (slen (FormatFloat f)) +:+ CRLF
  | Some (SInt d) => res +:+ ":" +:+ fmtD (slen (fmtD d)) +:+ CRLF
  end.

Definition handleHSTRLEN (cmd : list string) : M string :=
  do keys <- lift (hstrlenKeyFunc cmd);
  do key <- lift (indexList (ReadKeys keys) 0);
  let fields := drop 2 cmd in
  do found <- KeyExists key;
  if negb found then ret ("$-1" +:+ CRLF)
  else
    run KeyRLock key;
    do v <- GetValue key;
    match asHash v with
    | None => fail ("value at " +:+ key +:+ " is not a hash")
    | Some hash =>
        ret (fold_left (hstrlenField hash) fields ("*" +:+ fmtD (llen fields) +:+ CRLF))
    end.

(** The rendering of a value in the replies of HVALS and HGETALL. *)
Definition renderValue (val : Scalar) : string :=
  match val with
  | SStr s => "$" +:+ fmtD (slen s) +:+ CRLF +:+ s +:+ CRLF
  | SFloat f =>
      let fs := FormatFloat f in "$" +:+ fmtD (slen fs) +:+ CRLF +:+ fs +:+ CRLF
  | SInt d => ":" +:+ fmtD d +:+ CRLF
  end.

Definition renderField (field : string) : string :=
  "$" +:+ fmtD (slen field) +:+ CRLF +:+ field +:+ CRLF.

Definition handleHVALS (cmd : list string) : M string :=
  do keys <- lift (keyOnlyKeyFunc cmd);
  do key <- lift (indexList (ReadKeys keys) 0);
  do found <- KeyExists key;
  if negb found then ret ("*0" +:+ CRLF)
  else
    run KeyRLock key;
    do v <- GetValue key;
    match asHash v with
    | None => fail ("value at " +:+ key +:+ " is not a hash")
    | Some hash =>
        ret (fold_left (fun res e => res +:+ renderValue (snd e)) (rangeOver hash)
               ("*" +:+ fmtD (Z.of_nat (size hash)) +:+ CRLF))
    end.

Definition handleHLEN (cmd : list string) : M string :=
  do keys <- lift (keyOnlyKeyFunc cmd);
  do key <- lift (indexList (ReadKeys keys) 0);
  do found <- KeyExists key;
  if negb found then ret (":0" +:+ CRLF)
  else
    run KeyRLock key;
    do v <- GetValue key;
    match asHash v with
    | None => fail ("value at " +:+ key +:+ " is not a hash")
    | Some hash => ret (":" +:+ fmtD (Z.of_nat (size hash)) +:+ CRLF)
    end.

Definition handleHKEYS (cmd : list string) : M string :=
  do keys <- lift (keyOnlyKeyFunc cmd);
  do key <- lift (indexList (ReadKeys keys) 0);
  do found <- KeyExists key;
  if negb found then ret ("*0" +:+ CRLF)
  else
    run KeyRLock key;
    do v <- GetValue key;
    match asHash v with
    | None => fail ("value at " +:+ key +:+ " is not a hash")
    | Some hash =>
        ret (fold_left (fun res e => res +:+ renderField (fst e)) (rangeOver hash)
               ("*" +:+ fmtD (Z.of_nat (size hash)) +:+ CRLF))
    end.

(** [handleHINCRBY].  The handler writes [hash[field] = 0] for an absent
    field into the stored map before it looks at the type of the value. *)
Definition handleHINCRBY (cmd : list string) : M string :=
  do keys <- lift (hincrbyKeyFunc cmd);
  do key <- lift (indexList (WriteKeys keys) 0);
  let field := arg cmd 2 in
  let isFloat := EqualFold (arg cmd 0) "hincrbyfloat" in
  do increments <-
    (if isFloat then
       match ParseFloat (arg cmd 3) with
       | Ok f => ret (0, f)
       | Err _ => fail "increment must be a float"
       | Panic => panic
       end
     else
       match Atoi (arg cmd 3) with
       | Ok i => ret (i, S754_zero false)
       | Err _ => fail "increment must be an integer"
       | Panic => panic
       end);
  let '(intIncrement, floatIncrement) := increments in
  do found <- KeyExists key;
  if negb found then
    run CreateKeyAndLock key;
    if isFloat then
      run SetValue key (VHash {[ field := SFloat floatIncrement ]});
      run KeyUnlock key;
      ret ("+" +:+ FormatFloat floatIncrement +:+ CRLF)
    else
      run SetValue key (VHash {[ field := SInt intIncrement ]});
      run KeyUnlock key;
      ret (":" +:+ fmtD intIncrement +:+ CRLF)
  else
    run KeyLock key;
    do v <- GetValue key;
    match asHash v with
    | None => fail ("value at " +:+ key +:+ " is not a hash")
    | Some hash =>
        do hash <- (match hash !! field with
                    | None =>
                        run mutateAt key (VHash (<[field := SInt 0]> hash));
                        ret (<[field := SInt 0]> hash)
                    | Some _ => ret hash
                    end);
        let storeFloat (f : Score) : M string :=
          run SetValue key (VHash (<[field := SFloat f]> hash));
          run KeyUnlock key;
          ret ("+" +:+ FormatFloat f +:+ CRLF) in
        let storeInt (i : Z) : M string :=
          run SetValue key (VHash (<[field := SInt i]> hash));
          run KeyUnlock key;
          ret (":" +:+ fmtD i +:+ CRLF) in
        match hash !! field with
        | Some (SInt i) =>
            if isFloat then storeFloat (ScoreAdd (ScoreOfInt i) floatIncrement)
            else storeInt (wrap64 (i + intIncrement))
        | Some (SFloat f) =>
            if isFloat then storeFloat (ScoreAdd f floatIncrement)
            else storeFloat (ScoreAdd f (ScoreOfInt intIncrement))
        | _ => fail ("value at field " +:+ field +:+ " is not a number")
        end
    end.

Definition handleHGETALL (cmd : list string) : M string :=
  do keys <- lift (keyOnlyKeyFunc cmd);
  do key <- lift (indexList (ReadKeys keys) 0);
  do found <- KeyExists key;
  if negb found then ret ("*0" +:+ CRLF)
  else
    run KeyRLock key;
    do v <- GetValue key;
    match asHash v with
    | None => fail ("value at " +:+ key +:+ " is not a hash")
    | Some hash =>
        ret (fold_left (fun res e => res +:+ renderField (fst e) +:+ renderValue (snd e))
               (rangeOver hash)
               ("*" +:+ fmtD (wrap64 (Z.of_nat (size hash) * 2)) +:+ CRLF))
    end.

Definition handleHEXISTS (cmd : list string) : M string :=
  do keys <- lift (hexistsKeyFunc cmd);
  do key <- lift (indexList (ReadKeys keys) 0);
  let field := arg cmd 2 in
  do found <- KeyExists key;
  if negb found then ret (":0" +:+ CRLF)
  else
    run KeyRLock key;
    do v <- GetValue key;
    match asHash v with
    | None => fail ("value at " +:+ key +:+ " is not a hash")
    | Some hash =>
        match hash !! field with
        | Some _ => ret (":1" +:+ CRLF)
        | None => ret (":0" +:+ CRLF)
        end
    end.

End handlers.

End hash.

(** ** A reference implementation of the external functions *)

(** One implementation of [Externals], on which the handlers can be run.
    Each function is the Go function on the inputs named in its comment;
    scenarios below only use such inputs. *)
Module reference.

Definition isDigit (b : ascii) : bool :=
  let n := nat_of_ascii b in (48 <=? n)%nat && (n <=? 57)%nat.

Fixpoint digitsValue (ds : list ascii) (acc : Z) : Z :=
  match ds with
  | [] => acc
  | d :: rest => digitsValue rest (10 * acc + (Z.of_nat (nat_of_ascii d) - 48))
  end.

(** A decimal integer with an optional sign. *)
Definition parseInt (s : string) : option Z :=
  let '(sign, ds) :=
    match bytes s with
    | b :: rest =>
        if Ascii.eqb b "-" then (-1, rest)
        else if Ascii.eqb b "+" then (1, rest)
        else (1, b :: rest)
    | [] => (1, [])
    end in
  match ds with
  | [] => None
  | _ => if forallb isDigit ds then Some (sign * digitsValue ds 0) else None
  end.

Definition clamp64 (z : Z) : Z := Z.max (- 2 ^ 63) (Z.min (2 ^ 63 - 1) z).

(** Modelled from the spec: [internal.AdaptType] is missing; the scalar
    type inference from raw argument tokens, here on decimal integers, which
    are read as [int], and on tokens that are no number, which stay
    strings. *)
Definition AdaptType (s : string) : Scalar :=
  match parseInt s with
  | Some n => SInt (clamp64 n)
  | None => SStr s
  end.

(** Byte-wise lexicographic comparison: -1, 0 or 1. *)
Fixpoint compareBytes (a b : list ascii) : Z :=
  match a, b with
  | [], [] => 0
  | [], _ :: _ => -1
  | _ :: _, [] => 1
  | x :: a', y :: b' =>
      if (nat_of_ascii x <? nat_of_ascii y)%nat then -1
      else if (nat_of_ascii y <? nat_of_ascii x)%nat then 1
      else compareBytes a' b'
  end.

(** Modelled from the spec: [internal.CompareLex] is missing; the
    lexicographic comparison of two values. *)
Definition CompareLex (s1 s2 : string) : Z := compareBytes (bytes s1) (bytes s2).

(** Modelled from the spec: [internal.AbsInt] is missing; the absolute
    value of an [int]. *)
Definition AbsInt (n : Z) : Z := wrap64 (if n <? 0 then - n else n).

(** Division rounding half to even. *)
Definition divRoundEven (a b : Z) : Z :=
  let q := a / b in
  let r := a mod b in
  if 2 * r <? b then q
  else if b <? 2 * r then q + 1
  else if Z.even q then q else q + 1.

Definition padLeft (width : nat) (s : string) : string :=
  string_of_list_ascii (repeat "0"%char (width - String.length s)) +:+ s.

(** The verb [%f]: six decimals of the exact value, rounded half to even. *)
Definition fmtF (x : Score) : string :=
  match x with
  | S754_nan => "NaN"
  | S754_infinity sign => if sign then "-Inf" else "+Inf"
  | S754_zero sign => (if sign then "-" else "") +:+ "0.000000"
  | S754_finite sign m e =>
      let n := if 0 <=? e then Z.pos m * 2 ^ e * 1000000
               else divRoundEven (Z.pos m * 1000000) (2 ^ (- e)) in
      (if sign then "-" else "") +:+ pretty (n / 1000000) +:+ "." +:+
      padLeft 6 (pretty (n mod 1000000))
  end.

(** [strconv.FormatFloat(x, 'f', -1, 64)] on integral values of magnitude
    up to [2^53], which print as the integer. *)
Definition FormatFloat (x : Score) : string :=
  match x with
  | S754_nan => "NaN"
  | S754_infinity sign => if sign then "-Inf" else "+Inf"
  | S754_zero sign => if sign then "-0" else "0"
  | S754_finite sign m e =>
      (if sign then "-" else "") +:+
      pretty (if 0 <=? e then Z.pos m * 2 ^ e else Z.pos m / 2 ^ (- e))
  end.

(** The verbs [%v] and [%s] on the three kinds of scalar. *)
Definition fmtV (x : Scalar) : string :=
  match x with
  | SStr s => s
  | SInt n => pretty n
  | SFloat f => FormatFloat f
  end.

Definition fmtS (x : Scalar) : string :=
  match x with
  | SStr s => s
  | SInt n => "%!s(int64=" +:+ pretty n +:+ ")"
  | SFloat f => "%!s(float64=" +:+ FormatFloat f +:+ ")"
  end.

(** [strconv.ParseFloat] on the infinities and on decimal integers. *)
Definition ParseFloat (s : string) : Res Score :=
  let l := ToLower s in
  if Contains ["inf"; "+inf"; "infinity"; "+infinity"] l then Ok (Inf 1)
  else if Contains ["-inf"; "-infinity"] l then Ok (Inf (-1))
  else match parseInt s with
       | Some n => Ok (ScoreOfInt n)
       | None => Err ("strconv.ParseFloat: parsing " +:+ s +:+ ": invalid syntax")
       end.

(** [strconv.Atoi] on decimal integers in the range of [int]. *)
Definition Atoi (s : string) : Res Z :=
  match parseInt s with
  | Some n => if (- 2 ^ 63 <=? n) && (n <? 2 ^ 63) then Ok n
              else Err ("strconv.Atoi: parsing " +:+ s +:+ ": value out of range")
  | None => Err ("strconv.Atoi: parsing " +:+ s +:+ ": invalid syntax")
  end.

(** Rune conversion and [strings.Split(s, "")] on ASCII strings, where a
    rune is a byte. *)
Definition runes (s : string) : list Z :=
  map (fun b => Z.of_nat (nat_of_ascii b)) (bytes s).
Definition runesString (rs : list Z) : string :=
  string_of_list_ascii (map (fun r => ascii_of_nat (Z.to_nat r)) rs).
Definition Split (s : string) : list string :=
  map (fun b => String b "") (bytes s).

(** [slices.SortFunc] on slices of at most twelve elements, which it sorts by
    insertion: for each index [i], the loop
    [for j := i; j > a && cmp(data[j], data[j-1]) < 0; j--] swaps [data[j]]
    with [data[j-1]].  [sink] runs that loop on the sorted prefix, held
    last element first. *)
Section sort.
Context {A : Type} (cmp : A -> A -> Z).

Fixpoint sink (x : A) (revPrefix : list A) : list A :=
  match revPrefix with
  | [] => [x]
  | y :: rest => if cmp x y <? 0 then y :: sink x rest else x :: y :: rest
  end.

Definition insertionSort (data : list A) : list A :=
  rev (fold_left (fun revPrefix x => sink x revPrefix) data []).

End sort.

(** The fields in the order of the class: AdaptType, CompareLex, AbsInt,
    the verbs %v, %s and %f, FormatFloat, ParseFloat, Atoi, the rune
    conversions, Split and SortFunc. *)
#[export] Instance externals : Externals :=
  Build_Externals AdaptType CompareLex AbsInt fmtV fmtS fmtF FormatFloat
    ParseFloat Atoi runes runesString Split
    (fun A cmp data => insertionSort cmp data).

(** A map visited in the order of its entry list. *)
#[export] Instance mapOrder : hash.MapOrder :=
  hash.Build_MapOrder map_to_list (fun m => Permutation_refl _).

End reference.


(** ** Keyspaces and commands of the scenarios *)

Module scenario.

(** A keyspace holding the string "hello" at key k. *)
Definition helloStore : Store := {[ "k" := VString "hello" ]}.

(** The empty keyspace. *)
Definition emptyStore : Store := ∅.

(** A keyspace holding the list a, b, a, a at key l. *)
Definition abaaList : list Scalar := [SStr "a"; SStr "b"; SStr "a"; SStr "a"].
Definition abaaStore : Store := {[ "l" := VList abaaList ]}.

(** A keyspace holding the sorted set {a: 1} at key z, and one holding the
    hash {f: v} at key h. *)
Definition oneMemberStore : Store := {[ "z" := VSortedSet [mkMember "a" (ScoreOfInt 1)] ]}.
Definition oneFieldStore : Store := {[ "h" := VHash {[ "f" := SStr "v" ]} ]}.

(** Two members of equal score, b handed out before a. *)
Definition tieMembers : list MemberParam :=
  [mkMember "b" (ScoreOfInt 1); mkMember "a" (ScoreOfInt 1)].
Definition tieStore : Store := {[ "z" := VSortedSet tieMembers ]}.

(** Two members of different scores. *)
Definition twoScores : list MemberParam :=
  [mkMember "a" (ScoreOfInt 1); mkMember "b" (ScoreOfInt 2)].
Definition twoScoresStore : Store := {[ "z" := VSortedSet twoScores ]}.


(** A keyspace holding the string "hello" at key k and "x" at key j. *)
Definition twoKeysStore : Store := <["j" := VString "x"]> helloStore.

(** Keyspaces holding the list a, b, a, a at key l beside the string
    "hello" at key k, and beside the list c at key m; and one holding the
    list a at key l. *)
Definition listAndStringStore : Store := <["k" := VString "hello"]> abaaStore.
Definition twoListsStore : Store := <["m" := VList [SStr "c"]]> abaaStore.
Definition oneElemStore : Store := {[ "l" := VList [SStr "a"] ]}.

(** A keyspace holding the hash {n: 5} at key h. *)
Definition counterStore : Store := {[ "h" := VHash {[ "n" := SInt 5 ]} ]}.

(** A keyspace holding the hash {f: v} at key h and the string "hello" at
    key k. *)
Definition hashAndStringStore : Store := <["k" := VString "hello"]> oneFieldStore.

End scenario.
Import scenario.

(** ** Notions used to state the properties *)

(** The bulk strings of the elements [xs], one after the other. *)
Definition bulkAll `{Externals} (xs : list Scalar) : string :=
  foldr (fun x acc => list_plugin.bulkElem x +:+ acc) "" xs.

(** The number of elements of [l] that LREM compares equal to [value]. *)
Definition matchCount `{Externals} (value : string) (l : list Scalar) : Z :=
  llen (filter (fun x => fmtV x = value) l).

(** Every key live in [st] is still live in [st']. *)
Definition keysKept (st st' : Store) : Prop :=
  forall k, is_Some (st !! k) -> is_Some (st' !! k).

(** States and tokens of the option loop of ZADD: a state that holds no XX
    policy, a state that holds NX, an NX token, a GT or LT token. *)
Definition policyNoneOrNX (o : sorted_set.ZaddOptions) : Prop :=
  sorted_set.updatePolicy o = None \/
  exists p, sorted_set.updatePolicy o = Some p /\ ToLower p = "nx".

Definition holdsNX (o : sorted_set.ZaddOptions) : Prop :=
  exists p, sorted_set.updatePolicy o = Some p /\ ToLower p = "nx".

Definition isNX (x : string) : Prop := ToLower x = "nx".
Definition isComparison (x : string) : Prop := ToLower x = "gt" \/ ToLower x = "lt".

(** What [slices.SortFunc] asks of [cmp]: "less", that is [cmp a b < 0], is
    a strict weak ordering. *)
Definition strictWeakOrder {A} (less : A -> A -> Prop) : Prop :=
  (forall a b, less a b -> ~ less b a) /\
  (forall a b c, less a c -> less a b \/ less b c).

(** What [slices.SortFunc] promises for such a [cmp]: the slice is
    rearranged, and afterwards no element is less than one before it.  The
    order of elements that compare equal is not fixed. *)
Definition SortFuncContract `{Externals} : Prop :=
  forall (A : Type) (cmp : A -> A -> Z) (data : list A),
    strictWeakOrder (fun a b => cmp a b < 0) ->
    SortFunc A cmp data ≡ₚ data /\
    StronglySorted (fun a b => ~ cmp b a < 0) (SortFunc A cmp data).

(** A position of a score on a line, in the order of [cmp.Compare]: NaN
    first, then negative infinity, the negative numbers, the zeros, the
    positive numbers, and positive infinity. *)
Definition scoreKey (x : Score) : Z * Z * Z :=
  match x with
  | S754_nan => (-3, 0, 0)
  | S754_infinity true => (-2, 0, 0)
  | S754_finite true m e => (-1, - e, Z.neg m)
  | S754_zero _ => (0, 0, 0)
  | S754_finite false m e => (1, e, Z.pos m)
  | S754_infinity false => (2, 0, 0)
  end.

Definition keyCompare (a b : Z * Z * Z) : comparison :=
  let '(a1, a2, a3) := a in
  let '(b1, b2, b3) := b in
  match a1 ?= b1 with
  | Eq => match a2 ?= b2 with Eq => a3 ?= b3 | c => c end
  | c => c
  end.

(** The members of a sorted set carry no NaN score. *)
Definition noNaN (set : SortedSet) : Prop :=
  Forall (fun m => IsNaN (MScore m) = false) set.

(** Members in non-decreasing score order. *)
Definition scoreAscending (members : list MemberParam) : Prop :=
  StronglySorted (fun a b => ScoreLe (MScore a) (MScore b) = true) members.

(** Members in non-decreasing score order, those of equal score in
    non-decreasing order of value for the comparison [CompareLex]. *)
Definition scoreThenLexAscending `{Externals} (members : list MemberParam) : Prop :=
  StronglySorted
    (fun a b => ScoreLt (MScore a) (MScore b) = true \/
                (ScoreEq (MScore a) (MScore b) = true /\ CompareLex (Value a) (Value b) <= 0))
    members.

(** ** Notions used to state the further properties *)

(** The keyspaces [st] and [st'] agree on every key but [key]. *)
Definition onlyKey (key : string) (st st' : Store) : Prop :=
  forall k, k <> key -> st' !! k = st !! k.

(** The bytes of a string as numbers, which are its runes when the string
    is ASCII. *)
Definition codes (s : string) : list Z :=
  map (fun b => Z.of_nat (nat_of_ascii b)) (bytes s).

Definition isASCII (s : string) : Prop :=
  Forall (fun b => (nat_of_ascii b < 128)%nat) (bytes s).

(** What the rune conversions of Go do on ASCII strings. *)
Definition runesOnASCII `{Externals} : Prop :=
  forall s, isASCII s -> runes s = codes s /\ runesString (codes s) = s.


(** The string [s] with the bytes of [new] written over it from byte
    [offset] on, growing it where [new] reaches past its end. *)
Definition overwrite (s : string) (offset : Z) (new : string) : string :=
  string_of_list_ascii
    (take (Z.to_nat offset) (bytes s) ++ bytes new ++
     drop (Z.to_nat offset + String.length new) (bytes s)).

(** What [strings.Split(s, "")] does on ASCII strings: one string per
    byte. *)
Definition splitOnASCII `{Externals} : Prop :=
  forall s, isASCII s -> Split s = map (fun b => String b "") (bytes s).

(** The string [s] with its byte at [offset] replaced by the string
    [new]. *)
Definition replaceAt (s : string) (offset : Z) (new : string) : string :=
  string_of_list_ascii
    (take (Z.to_nat offset) (bytes s) ++ bytes new ++
     drop (Z.to_nat offset + 1) (bytes s)).

(** A handler that answers with an error leaves the keyspace as it was. *)
Definition errorsKeepKeyspace (handler : list string -> M string) : Prop :=
  forall (cmd : list string) (st : Store) (e : string),
    fst (handler cmd st) = Err e -> snd (handler cmd st) = st.

(** * Properties *)

(** ** Running a handler *)

Lemma bind_ok {A B} (m : M A) (k : A -> M B) st a st' :
  m st = (Ok a, st') -> bind m k st = k a st'.
Proof. intros Hm. unfold bind. by rewrite Hm. Qed.

Lemma bind_err {A B} (m : M A) (k : A -> M B) st e st' :
  m st = (Err e, st') -> bind m k st = (Err e, st').
Proof. intros Hm. unfold bind. by rewrite Hm. Qed.

Lemma KeyExists_present st key v :
  st !! key = Some v -> KeyExists key st = (Ok true, st).
Proof. intros Hk. unfold KeyExists. rewrite Hk. by rewrite bool_decide_eq_true_2. Qed.

Lemma KeyExists_absent (st : Store) key :
  st !! key = None -> KeyExists key st = (Ok false, st).
Proof.
  intros Hk. unfold KeyExists. rewrite Hk.
  rewrite bool_decide_eq_false_2; [done|]. by intros [? ?].
Qed.

Lemma GetValue_present st key v :
  st !! key = Some v -> GetValue key st = (Ok v, st).
Proof. intros Hk. unfold GetValue. by rewrite Hk. Qed.

(** Unfolds the plumbing of a handler once the keyspace reads are known. *)
Ltac handler_steps :=
  repeat (first
    [ erewrite bind_ok by (first [ eapply KeyExists_present; eassumption
                                 | eapply KeyExists_absent; eassumption
                                 | eapply GetValue_present; eassumption
                                 | reflexivity ])
    | progress simpl ]).

(** ** GETRANGE and SUBSTR *)

Section string_properties.
Context `{Externals}.

(** C9, module str: the registry entries "substr" and "getrange" name the
    same key extractor and the same handler, and that handler never reads the
    command word, so on every argument list and keyspace the two commands
    give the same reply or error and the same keyspace.  The plugin's
    [HandleCommand] sends both words, in any letter case, to one handler with
    the same outcome. *)
Theorem substr_getrange_same_result :
  (exists c1 c2,
      str.getCommand "substr" = Some c1 /\ str.getCommand "getrange" = Some c2 /\
      str.KeyExtractionFunc c1 = str.KeyExtractionFunc c2 /\
      str.HandlerFunc c1 = str.HandlerFunc c2 /\
      forall (args : list string) (st : Store),
        str.KeyExtractionFunc c1 ("substr" :: args) = str.KeyExtractionFunc c2 ("getrange" :: args) /\
        str.HandlerFunc c1 ("substr" :: args) st = str.HandlerFunc c2 ("getrange" :: args) st) /\
  (forall (w1 w2 : string) (args : list string) (st : Store),
      ToLower w1 = "substr" -> ToLower w2 = "getrange" ->
      string_plugin.HandleCommand (w1 :: args) st = string_plugin.HandleCommand (w2 :: args) st).
Proof.
  split.
  - eexists _, _. split; [reflexivity|]. split; [reflexivity|].
    split; [reflexivity|]. split; [reflexivity|].
    intros args st. split; reflexivity.
  - intros w1 w2 args st H1 H2.
    unfold string_plugin.HandleCommand. rewrite H1, H2. reflexivity.
Qed.

Lemma length_substring (s : string) (n m : nat) :
  (n + m <= String.length s)%nat -> String.length (substring n m s) = m.
Proof.
  revert n m. induction s as [|b s IH]; intros n m Hle; simpl in *.
  - destruct n, m; simpl; lia.
  - destruct n as [|n]; [destruct m as [|m]|]; simpl; [done| |].
    + f_equal. apply IH. simpl. lia.
    + apply IH. lia.
Qed.

Lemma length_app_string (s t : string) :
  String.length (s +:+ t) = (String.length s + String.length t)%nat.
Proof. induction s as [|b s IH]; simpl; [done|]. by rewrite IH. Qed.

Lemma byteString_length (b : ascii) : (1 <= String.length (byteString b))%nat.
Proof. unfold byteString. destruct (_ <? _)%nat; simpl; lia. Qed.

Lemma reverseBytes_length (s : string) :
  (String.length s <= String.length (reverseBytes s))%nat.
Proof.
  induction s as [|b s IH]; simpl; [done|].
  rewrite length_app_string. pose proof (byteString_length b). lia.
Qed.

Lemma string_of_list_ascii_snoc (l : list ascii) (b : ascii) :
  string_of_list_ascii l +:+ String b "" = string_of_list_ascii (l ++ [b]).
Proof. induction l as [|x l IHl]; simpl; [done|]. by rewrite <- IHl. Qed.

(** On ASCII bytes the reversing loop yields the bytes in reversed order. *)
Lemma reverseBytes_ascii (s : string) :
  Forall (fun b => (nat_of_ascii b < 128)%nat) (bytes s) ->
  reverseBytes s = string_of_list_ascii (rev (bytes s)).
Proof.
  induction s as [|b s IH]; simpl; [done|].
  intros Hall. inversion Hall as [|? ? Hb Hs]; subst.
  rewrite IH by done. unfold byteString.
  apply Nat.ltb_lt in Hb. rewrite Hb.
  apply string_of_list_ascii_snoc.
Qed.

Lemma sliceStr_in_range (value : string) (lo hi : Z) :
  0 <= lo -> lo <= hi -> hi <= slen value ->
  sliceStr value lo hi = Ok (substring (Z.to_nat lo) (Z.to_nat (hi - lo)) value).
Proof.
  intros H0 H1 H2. unfold sliceStr.
  by rewrite (proj2 (Z.leb_le _ _) H0), (proj2 (Z.leb_le _ _) H1), (proj2 (Z.leb_le _ _) H2).
Qed.

Lemma reversed_slice_nonempty (value : string) (lo hi : Z) :
  0 <= lo -> lo < hi -> hi <= slen value ->
  reverseBytes (substring (Z.to_nat lo) (Z.to_nat (hi - lo)) value) <> ""%string.
Proof.
  intros H0 H1 H2 Hempty.
  pose proof (reverseBytes_length (substring (Z.to_nat lo) (Z.to_nat (hi - lo)) value)) as Hlen.
  rewrite length_substring in Hlen by (unfold slen in H2; lia).
  rewrite Hempty in Hlen. simpl in Hlen. lia.
Qed.

(** C10, as it holds: on an existing string key, when the start index after
    normalisation lies after the end bound the handler slices to (the
    normalised end in module str; one past a non-negative end in the string
    plugin) and both lie within the string, the reply is the bulk string of
    the bytes between the two bounds in reversed order, each byte [b] written
    as [string(b)], which is the byte itself on ASCII; it is not empty and it
    is no error. *)
Theorem substr_reversed_within_bounds (st : Store) (c key startTok endTok : string)
    (start end_ : Z) (value : string) :
  AdaptType startTok = SInt start ->
  AdaptType endTok = SInt end_ ->
  st !! key = Some (VString value) ->
  (forall s e : Z,
      s = str.normStart value start -> e = str.normEnd value end_ ->
      e < s -> 0 <= e -> s <= slen value ->
      exists slice r : string,
        slice = substring (Z.to_nat e) (Z.to_nat (s - e)) value /\
        r = reverseBytes slice /\
        r <> ""%string /\
        (Forall (fun b => (nat_of_ascii b < 128)%nat) (bytes slice) ->
         r = string_of_list_ascii (rev (bytes slice))) /\
        str.handleSubStr [c; key; startTok; endTok] st =
          (Ok ("$" +:+ fmtD (slen r) +:+ CRLF +:+ r +:+ CRLF), st)) /\
  (forall s e : Z,
      s = string_plugin.normStart value start -> e = string_plugin.sliceEnd value end_ ->
      e < s -> 0 <= e -> s <= slen value ->
      exists slice r : string,
        slice = substring (Z.to_nat e) (Z.to_nat (s - e)) value /\
        r = reverseBytes slice /\
        r <> ""%string /\
        (Forall (fun b => (nat_of_ascii b < 128)%nat) (bytes slice) ->
         r = string_of_list_ascii (rev (bytes slice))) /\
        string_plugin.handleSubStr [c; key; startTok; endTok] st =
          (Ok ("$" +:+ fmtD (slen r) +:+ CRLF +:+ r +:+ CRLF +:+ LF), st)).
Proof.
  intros Hstart Hend Hkey. split.
  - intros s e Hs' He' Hlt He Hs. eexists _, _.
    split; [reflexivity|]. split; [reflexivity|].
    split; [by apply reversed_slice_nonempty|].
    split; [apply reverseBytes_ascii|].
    unfold str.handleSubStr. simpl. unfold arg. simpl.
    rewrite Hstart, Hend. simpl.
    handler_steps.
    unfold str.subStr, str.subStrBounds. rewrite <- Hs', <- He'.
    replace (e >=? s) with false by lia. rewrite andb_false_r.
    replace (e >? slen value) with false by lia.
    replace (s >? e) with true by lia.
    rewrite sliceStr_in_range by lia. reflexivity.
  - intros s e Hs' He' Hlt He Hs. eexists _, _.
    split; [reflexivity|]. split; [reflexivity|].
    split; [by apply reversed_slice_nonempty|].
    split; [apply reverseBytes_ascii|].
    unfold string_plugin.handleSubStr. simpl. unfold arg. simpl.
    rewrite Hstart, Hend. simpl.
    handler_steps.
    unfold string_plugin.subStr, string_plugin.subStrBounds. rewrite <- Hs', <- He'.
    replace (s >? e) with true by lia.
    rewrite sliceStr_in_range by lia. reflexivity.
Qed.

End string_properties.

(** The two command words on one concrete command and keyspace. *)
Lemma substr_getrange_same_result_witness :
  string_plugin.HandleCommand (H := reference.externals)
    ["SUBSTR"; "k"; "1"; "3"] helloStore =
  string_plugin.HandleCommand (H := reference.externals)
    ["GetRange"; "k"; "1"; "3"] helloStore.
Proof.
  apply (proj2 (substr_getrange_same_result (H := reference.externals))); reflexivity.
Defined.

(** GETRANGE k 3 1 on "hello": the bounds are swapped and "el" comes back
    reversed. *)
Lemma substr_reversed_within_bounds_witness :
  str.handleSubStr (H := reference.externals)
    ["getrange"; "k"; "3"; "1"] helloStore =
  (Ok ("$2" +:+ CRLF +:+ "le" +:+ CRLF), helloStore).
Proof.
  destruct (substr_reversed_within_bounds (H := reference.externals)
              helloStore "getrange" "k" "3" "1" 3 1 "hello"
              eq_refl eq_refl eq_refl) as [Hnew _].
  destruct (Hnew 3 1 eq_refl eq_refl ltac:(lia) ltac:(lia) ltac:(vm_compute; discriminate))
    as (slice & r & -> & -> & _ & _ & Hreply).
  exact Hreply.
Defined.

(** C10 as stated fails: with start 10 and end 1 on "hello" the normalised
    start exceeds the end, the bounds are swapped and [value[1:10]] is out of
    range, so the handler of module str panics instead of replying; and the
    handler of the string plugin, given start 3 and end 2, replies with the
    empty bulk string. *)
Lemma substr_start_after_end_counterexample :
  str.normEnd (H := reference.externals) "hello" 1 <
    str.normStart (H := reference.externals) "hello" 10 /\
  fst (str.handleSubStr (H := reference.externals)
         ["getrange"; "k"; "10"; "1"] helloStore) = Panic /\
  2 < string_plugin.normStart "hello" 3 /\
  fst (string_plugin.handleSubStr (H := reference.externals)
         ["substr"; "k"; "3"; "2"] helloStore) =
    Ok ("$0" +:+ CRLF +:+ "" +:+ CRLF +:+ LF).
Proof. repeat split; vm_compute; reflexivity. Qed.

(** ** LINDEX, LRANGE, LREM, RPUSH, LPOP *)

Section list_properties.
Context `{Externals}.

Lemma append_cons (x : ascii) (a b : string) : String x a +:+ b = String x (a +:+ b).
Proof. reflexivity. Qed.

Lemma append_assoc_string (a b c : string) : (a +:+ b) +:+ c = a +:+ (b +:+ c).
Proof. induction a as [|x a IH]; [done|]. rewrite !append_cons. by rewrite IH. Qed.

Lemma append_empty_r (a : string) : a +:+ "" = a.
Proof. induction a as [|x a IH]; [done|]. rewrite append_cons. by rewrite IH. Qed.

Lemma indexList_lookup {A} (l : list A) (i : Z) (x : A) :
  0 <= i -> l !! Z.to_nat i = Some x -> indexList l i = Ok x.
Proof.
  intros Hi Hx. unfold indexList.
  assert (i < llen l) as Hlt.
  { apply lookup_lt_Some in Hx. unfold llen. lia. }
  replace (0 <=? i) with true by lia. replace (i <? llen l) with true by lia.
  simpl. by rewrite Hx.
Qed.

(** The reply loop of LRANGE over consecutive indices appends the bulk
    strings of the elements at those indices. *)
Lemma appendElems_consecutive (l : list Scalar) (n : nat) (start : Z) (acc : string) :
  0 <= start -> start + Z.of_nat n <= llen l ->
  list_plugin.appendElems l (map (fun k => start + Z.of_nat k) (seq 0 n)) acc =
  Ok (acc +:+ bulkAll (take n (drop (Z.to_nat start) l))).
Proof.
  revert start acc. induction n as [|n IH]; intros start acc H0 Hn.
  - simpl. by rewrite append_empty_r.
  - rewrite <- cons_seq, <- seq_shift, map_cons, map_map. simpl list_plugin.appendElems.
    destruct (lookup_lt_is_Some_2 l (Z.to_nat start)) as [x Hx].
    { unfold llen in Hn. lia. }
    replace (start + Z.of_nat 0) with start by lia.
    rewrite (indexList_lookup l start x) by done.
    erewrite map_ext; [rewrite (IH (start + 1))|]; [|lia|unfold llen in *; lia|intros; simpl; lia].
    f_equal. rewrite append_assoc_string. f_equal.
    replace (Z.to_nat (start + 1)) with (S (Z.to_nat start)) by lia.
    rewrite (drop_S l x (Z.to_nat start)) by done. reflexivity.
Qed.

(** C7, as it holds: LINDEX answers an index in [0, len) with the element
    at that index and every other index, every negative one included, with
    the error "index must be within list range"; LRANGE answers a start
    outside [0, len) and an end outside [0, len) other than -1 with an error,
    and reads the end -1 as the last element.  No index is clamped, and no
    negative index other than the end -1 of LRANGE counts from the tail. *)
Theorem list_index_within_range_or_error (st : Store) (c key : string) (l : list Scalar) :
  st !! key = Some (VList l) ->
  (forall (tok : string) (index : Z),
      AdaptType tok = SInt index ->
      (0 <= index < llen l ->
       exists x, l !! Z.to_nat index = Some x /\
         list_plugin.handleLIndex [c; key; tok] st =
           (Ok ("+" +:+ fmtS x +:+ CRLF +:+ LF), st)) /\
      (index < 0 \/ llen l <= index ->
       list_plugin.handleLIndex [c; key; tok] st =
         (Err "index must be within list range", st))) /\
  (forall (startTok endTok : string) (start end_ : Z),
      AdaptType startTok = SInt start -> AdaptType endTok = SInt end_ ->
      (start < 0 \/ llen l <= start ->
       list_plugin.handleLRange [c; key; startTok; endTok] st =
         (Err "start index not within list range", st)) /\
      (0 <= start < llen l -> end_ < -1 \/ llen l <= end_ ->
       list_plugin.handleLRange [c; key; startTok; endTok] st =
         (Err "end index must be within list range or -1", st)) /\
      (0 <= start < llen l -> end_ = -1 ->
       list_plugin.handleLRange [c; key; startTok; endTok] st =
         (Ok ("*" +:+ fmtD (llen l - start) +:+ CRLF +:+
              bulkAll (drop (Z.to_nat start) l) +:+ LF), st))).
Proof.
  intros Hkey. split.
  - intros tok index Htok. split.
    + intros Hin.
      destruct (lookup_lt_is_Some_2 l (Z.to_nat index)) as [x Hx].
      { unfold llen in Hin. lia. }
      exists x. split; [done|].
      unfold list_plugin.handleLIndex. simpl. unfold arg. simpl. rewrite Htok. simpl.
      handler_steps.
      replace (index >=? 0) with true by lia. replace (index <? llen l) with true by lia.
      simpl. rewrite (indexList_lookup l index x) by (done || lia). reflexivity.
    + intros Hout.
      unfold list_plugin.handleLIndex. simpl. unfold arg. simpl. rewrite Htok. simpl.
      handler_steps.
      replace ((index >=? 0) && (index <? llen l)) with false by lia. reflexivity.
  - intros startTok endTok start end_ Hs He.
    assert (list_plugin.handleLRange [c; key; startTok; endTok] st =
            if negb ((start >=? 0) && (start <? llen l))
            then (Err "start index not within list range", st)
            else if negb (((end_ >=? 0) && (end_ <? llen l)) || (end_ =? -1))
            then (Err "end index must be within list range or -1", st)
            else list_plugin.handleLRange [c; key; startTok; endTok] st) as Hshape.
    { unfold list_plugin.handleLRange. simpl. unfold arg. simpl. rewrite Hs, He. simpl.
      handler_steps.
      destruct (negb ((start >=? 0) && (start <? llen l))); [done|].
      destruct (negb (((end_ >=? 0) && (end_ <? llen l)) || (end_ =? -1))); done. }
    split; [|split].
    + intros Hout. rewrite Hshape.
      replace ((start >=? 0) && (start <? llen l)) with false by lia. reflexivity.
    + intros Hin Hout. rewrite Hshape.
      replace ((start >=? 0) && (start <? llen l)) with true by lia.
      replace (((end_ >=? 0) && (end_ <? llen l)) || (end_ =? -1)) with false by lia.
      reflexivity.
    + intros Hin ->.
      unfold list_plugin.handleLRange. simpl. unfold arg. simpl. rewrite Hs, He. simpl.
      handler_steps.
      replace ((start >=? 0) && (start <? llen l)) with true by lia. simpl.
      rewrite appendElems_consecutive by (unfold llen in *; lia).
      rewrite take_ge by (rewrite length_drop; unfold llen in *; lia).
      handler_steps. unfold ret. by rewrite !append_assoc_string.
Qed.


Lemma dropNil_map_Some (l : list Scalar) : list_plugin.dropNil (map Some l) = l.
Proof.
  unfold list_plugin.dropNil.
  induction l as [|x l IH]; simpl; [done|]. f_equal. exact IH.
Qed.

Lemma dropNil_cons_Some (x : Scalar) (a : list (option Scalar)) :
  list_plugin.dropNil (Some x :: a) = x :: list_plugin.dropNil a.
Proof. reflexivity. Qed.

Lemma dropNil_cons_None (a : list (option Scalar)) :
  list_plugin.dropNil (None :: a) = list_plugin.dropNil a.
Proof. reflexivity. Qed.

Lemma dropNil_app (a b : list (option Scalar)) :
  list_plugin.dropNil (a ++ b) = list_plugin.dropNil a ++ list_plugin.dropNil b.
Proof. apply omap_app. Qed.

Lemma dropNil_rev (a : list (option Scalar)) :
  list_plugin.dropNil (rev a) = rev (list_plugin.dropNil a).
Proof.
  induction a as [|x a IH]; simpl; [done|].
  rewrite dropNil_app, IH. destruct x; simpl; [done|]. by rewrite app_nil_r.
Qed.

Lemma filter_rev {A} (P : A -> Prop) `{forall x, Decision (P x)} (l : list A) :
  filter P (rev l) = rev (filter P l).
Proof.
  induction l as [|x l IH]; [done|].
  change (rev (x :: l)) with (rev l ++ [x]). rewrite filter_app, IH.
  destruct (decide (P x)).
  - rewrite (filter_cons_True P x l) by done.
    change (rev (x :: filter P l)) with (rev (filter P l) ++ [x]).
    f_equal. by rewrite filter_cons_True.
  - rewrite (filter_cons_False P x l) by done.
    rewrite (filter_cons_False P x []) by done. by rewrite app_nil_r.
Qed.

(** The head-to-tail scan removes the matches of a prefix [l1] and keeps
    the rest [l2] whole; the prefix holds exactly [n] matches unless the list
    is exhausted first. *)
Lemma markFromHead_prefix (value : string) (l : list Scalar) (n : Z) :
  0 <= n ->
  exists l1 l2,
    l = l1 ++ l2 /\
    list_plugin.dropNil (list_plugin.markFromHead value l n) =
      filter (fun x => fmtV x <> value) l1 ++ l2 /\
    (matchCount value l1 = n \/ (l2 = [] /\ matchCount value l1 <= n)).
Proof.
  revert n. induction l as [|x l IH]; intros n Hn.
  - exists [], []. repeat split; try done. right. split; [done|].
    unfold matchCount, llen. rewrite filter_nil. simpl. lia.
  - simpl. destruct (n =? 0) eqn:Hz.
    + exists [], (x :: l). split; [done|]. split.
      * change (Some x :: map Some l) with (map Some (x :: l)). by rewrite dropNil_map_Some.
      * left. unfold matchCount, llen. rewrite filter_nil. simpl. lia.
    + destruct (String.eqb (fmtV x) value) eqn:Heq.
      * apply String.eqb_eq in Heq.
        destruct (IH (n - 1)) as (l1 & l2 & -> & Hdrop & Hcount); [lia|].
        exists (x :: l1), l2. split; [done|]. split.
        -- rewrite dropNil_cons_None, Hdrop.
           rewrite filter_cons_False by (intros Hne; by apply Hne). done.
        -- unfold matchCount, llen in *. rewrite filter_cons_True by done. simpl length.
           destruct Hcount as [Hc|[-> Hc]]; [left|right; split; [done|]]; lia.
      * apply String.eqb_neq in Heq.
        destruct (IH n) as (l1 & l2 & -> & Hdrop & Hcount); [lia|].
        exists (x :: l1), l2. split; [done|]. split.
        -- rewrite dropNil_cons_Some, Hdrop.
           rewrite filter_cons_True by done. done.
        -- unfold matchCount, llen in *. rewrite filter_cons_False by done. done.
Qed.

(** C2, as it holds: LREM with a positive count removes the first [count]
    elements equal to the value, scanning head to tail (all of them when
    there are fewer); with a negative count it removes the last [-count]
    such elements, scanning tail to head; with count zero it leaves the list
    as it is.  The list is split as [l1 ++ l2], where the scanned part loses
    its matches and the other part is kept whole.  The count-down of the
    handler is exact for counts up to [2^53] in magnitude. *)
Theorem lrem_removes_by_count (st : Store) (c key countTok value : string)
    (count : Z) (l : list Scalar) :
  AdaptType countTok = SInt count ->
  Z.abs count <= 2 ^ 53 ->
  st !! key = Some (VList l) ->
  exists l',
    list_plugin.handleLRem [c; key; countTok; value] st =
      (Ok list_plugin.OK, <[key := VList l']> st) /\
    (0 < count ->
     exists l1 l2, l = l1 ++ l2 /\
       l' = filter (fun x => fmtV x <> value) l1 ++ l2 /\
       (matchCount value l1 = count \/ (l2 = [] /\ matchCount value l1 <= count))) /\
    (count < 0 ->
     exists l1 l2, l = l1 ++ l2 /\
       l' = l1 ++ filter (fun x => fmtV x <> value) l2 /\
       (matchCount value l2 = - count \/ (l1 = [] /\ matchCount value l2 <= - count))) /\
    (count = 0 -> l' = l).
Proof.
  intros Htok _ Hkey.
  assert (forall marked,
    (if count >? 0 then list_plugin.markFromHead value l (Z.abs count)
     else if count <? 0 then list_plugin.markFromTail value l (Z.abs count)
     else map Some l) = marked ->
    list_plugin.handleLRem [c; key; countTok; value] st =
      (Ok list_plugin.OK, <[key := VList (list_plugin.dropNil marked)]> st)) as Hrun.
  { intros marked <-. unfold list_plugin.handleLRem. simpl. unfold arg. simpl.
    rewrite Htok. simpl. handler_steps. reflexivity. }
  eexists. split; [apply Hrun; reflexivity|].
  split; [|split].
  - intros Hpos. replace (count >? 0) with true by lia.
    replace (Z.abs count) with count by lia.
    apply markFromHead_prefix. lia.
  - intros Hneg. replace (count >? 0) with false by lia.
    replace (count <? 0) with true by lia.
    replace (Z.abs count) with (- count) by lia.
    unfold list_plugin.markFromTail. rewrite dropNil_rev.
    destruct (markFromHead_prefix value (rev l) (- count)) as (r1 & r2 & Hrev & -> & Hcount); [lia|].
    exists (rev r2), (rev r1).
    assert (forall a, matchCount value (rev a) = matchCount value a) as Hmc.
    { intros a. unfold matchCount, llen. by rewrite filter_rev, length_rev. }
    split; [|split].
    + rewrite <- rev_app_distr, <- Hrev. by rewrite rev_involutive.
    + rewrite rev_app_distr. f_equal. by rewrite filter_rev.
    + rewrite Hmc. destruct Hcount as [Hc|[-> Hc]]; [by left|right]. done.
  - intros ->. simpl. apply dropNil_map_Some.
Qed.

End list_properties.

(** LREM l 2 a on the list a, b, a, a. *)
Lemma lrem_removes_by_count_witness :
  fst (list_plugin.handleLRem (H := reference.externals)
         ["LREM"; "l"; "2"; "a"] abaaStore) = Ok list_plugin.OK.
Proof.
  destruct (lrem_removes_by_count (H := reference.externals)
              abaaStore "LREM" "l" "2" "a" 2 abaaList
              eq_refl ltac:(vm_compute; discriminate) eq_refl) as (l' & Hrun & _).
  rewrite Hrun. reflexivity.
Defined.

(** C2 as stated fails for count zero: LREM l 0 a on the list a, b, a, a
    removes no occurrence of a. *)
Lemma lrem_count_zero_counterexample :
  matchCount (H := reference.externals) "a" abaaList = 3 /\
  list_plugin.handleLRem (H := reference.externals) ["LREM"; "l"; "0"; "a"] abaaStore =
    (Ok list_plugin.OK, <[ "l" := VList abaaList ]> abaaStore).
Proof. split; reflexivity. Qed.



(** LINDEX l -1 on the list a, b, a, a. *)
Lemma list_index_within_range_or_error_witness :
  list_plugin.handleLIndex (H := reference.externals) ["LINDEX"; "l"; "-1"] abaaStore =
    (Err "index must be within list range", abaaStore).
Proof.
  destruct (list_index_within_range_or_error (H := reference.externals)
              abaaStore "LINDEX" "l" abaaList eq_refl) as [Hindex _].
  destruct (Hindex "-1" (-1) eq_refl) as [_ Hout].
  apply Hout. left. lia.
Defined.

(** C7 as stated fails: LINDEX l -1 on a non-empty list is an error, not
    the last element, and LRANGE l -2 -1 is an error too. *)
Lemma lindex_negative_counterexample :
  fst (list_plugin.handleLIndex (H := reference.externals) ["LINDEX"; "l"; "-1"] abaaStore) =
    Err "index must be within list range" /\
  fst (list_plugin.handleLRange (H := reference.externals) ["LRANGE"; "l"; "-2"; "-1"] abaaStore) =
    Err "start index not within list range".
Proof. split; reflexivity. Qed.

(** ** Removal from hashes and sorted sets *)

Section removal_properties.
Context `{Externals}.

Lemma keysKept_refl (st : Store) : keysKept st st.
Proof. by intros k. Qed.

Lemma keysKept_insert (st : Store) (key : string) (v : StoredValue) :
  keysKept st (<[key := v]> st).
Proof.
  intros k Hk. destruct (decide (key = k)) as [->|Hne].
  - rewrite lookup_insert_eq. eauto.
  - by rewrite lookup_insert_ne.
Qed.

Lemma keysKept_cases (st st' : Store) :
  st' = st \/ (exists k v, st' = <[k := v]> st) -> keysKept st st'.
Proof. intros [->|(k & v & ->)]; [apply keysKept_refl|apply keysKept_insert]. Qed.

(** Unfolds a handler into its branches and closes each by [keysKept_cases]. *)
Ltac keys_kept_by_cases :=
  apply keysKept_cases;
  unfold KeyLock, KeyUnlock, KeyRLock, KeyRUnlock, sorted_set.notSortedSet;
  unfold bind, lift, ret, fail, panic, KeyExists, GetValue, SetValue, mutateAt;
  repeat case_match; simplify_eq/=; eauto.

Lemma Remove_snd (set : SortedSet) (v : string) :
  snd (Remove set v) = filter (fun m => Value m <> v) set.
Proof.
  unfold Remove. destruct (Get set v) eqn:Hget; [done|]. simpl.
  unfold Get in Hget. induction set as [|x set IH]; [done|].
  simpl in Hget. destruct (String.eqb (Value x) v) eqn:Hx; [done|].
  apply String.eqb_neq in Hx. rewrite filter_cons_True by done.
  f_equal. by apply IH.
Qed.

(** ZREM leaves the records whose value is not among the removed ones. *)
Lemma removeEach_snd (set : SortedSet) (ms : list string) (n : Z) :
  snd (sorted_set.removeEach set ms n) = filter (fun m => Value m ∉ ms) set.
Proof.
  revert set n. induction ms as [|v ms IH]; intros set n; simpl.
  - induction set as [|x set IHs]; [done|].
    rewrite filter_cons_True by apply not_elem_of_nil. by f_equal.
  - pose proof (Remove_snd set v) as Hrem. destruct (Remove set v) as [removed set'].
    simpl in Hrem. rewrite IH, Hrem. rewrite list_filter_filter.
    apply list_filter_iff. intros m. rewrite not_elem_of_cons. tauto.
Qed.

(** The range removals leave the records whose value is not that of a
    selected member. *)
Lemma removeWhere_snd (sel : MemberParam -> bool) (set : SortedSet)
    (members : list MemberParam) (n : Z) :
  snd (sorted_set.removeWhere sel set members n) =
  filter (fun m => Value m ∉ map Value (filter (fun x => sel x = true) members)) set.
Proof.
  revert set n. induction members as [|x members IH]; intros set n; simpl.
  - induction set as [|y set IHs]; [done|].
    rewrite filter_cons_True by apply not_elem_of_nil. by f_equal.
  - destruct (sel x) eqn:Hsel.
    + rewrite IH, Remove_snd, list_filter_filter.
      rewrite (filter_cons_True _ x members) by done. simpl.
      apply list_filter_iff. intros m. rewrite not_elem_of_cons. tauto.
    + rewrite IH. rewrite (filter_cons_False _ x members); [done|].
      rewrite Hsel. discriminate.
Qed.

Lemma filter_all {A} (P : A -> Prop) `{forall x, Decision (P x)} (l : list A) :
  Forall P l -> filter P l = l.
Proof.
  induction 1 as [|x l Hx Hl IH]; [done|].
  rewrite filter_cons_True by done. by f_equal.
Qed.

Lemma filter_none {A} (P : A -> Prop) `{forall x, Decision (P x)} (l : list A) :
  Forall (fun x => ~ P x) l -> filter P l = [].
Proof.
  induction 1 as [|x l Hx Hl IH]; [done|].
  by rewrite filter_cons_False.
Qed.

Lemma removeWhere_all (sel : MemberParam -> bool) (set : SortedSet) (n : Z) :
  Forall (fun m => sel m = true) set ->
  snd (sorted_set.removeWhere sel set set n) = [].
Proof.
  intros Hall. rewrite removeWhere_snd.
  apply filter_none. apply Forall_forall. intros m Hm Hnot.
  apply Hnot. apply list_elem_of_In, in_map. apply list_elem_of_In.
  apply list_elem_of_filter. split; [|done].
  by apply (proj1 (Forall_forall _ _) Hall).
Qed.

(** HDEL leaves the fields that are not among the deleted ones. *)
Lemma deleteFields_lookup (hash : gmap string Scalar) (fields : list string) (n : Z)
    (f : string) :
  snd (hash.deleteFields hash fields n) !! f =
  if decide (f ∈ fields) then None else hash !! f.
Proof.
  revert hash n. induction fields as [|g fields IH]; intros hash n; simpl.
  - done.
  - destruct (hash !! g) eqn:Hg; rewrite IH.
    + destruct (decide (f ∈ fields)) as [Hin|Hnin].
      * rewrite decide_True; [done|]. by right.
      * destruct (decide (f = g)) as [->|Hne].
        -- rewrite decide_True by left. apply lookup_delete_eq.
        -- rewrite decide_False by (rewrite elem_of_cons; tauto).
           by rewrite lookup_delete_ne.
    + destruct (decide (f ∈ fields)) as [Hin|Hnin].
      * rewrite decide_True; [done|]. by right.
      * destruct (decide (f = g)) as [->|Hne].
        -- by rewrite decide_True by left.
        -- by rewrite decide_False by (rewrite elem_of_cons; tauto).
Qed.

#[local] Arguments hash.deleteFields : simpl never.
#[local] Arguments sorted_set.removeEach : simpl never.
#[local] Arguments sorted_set.removeWhere : simpl never.

(** C8: HDEL, ZREM, ZREMRANGEBYSCORE and ZREMRANGEBYLEX never remove a key
    from the keyspace, whatever the command; and when such a command removes
    every element of the hash or sorted set at its key, the last remaining one
    included, the key stays and holds the empty hash or the empty sorted
    set. *)
Theorem emptied_collection_stays_at_key (st : Store) (c key : string) :
  (forall cmd : list string,
      keysKept st (snd (hash.handleHDEL cmd st)) /\
      keysKept st (snd (sorted_set.handleZREM cmd st)) /\
      keysKept st (snd (sorted_set.handleZREMRANGEBYSCORE cmd st)) /\
      keysKept st (snd (sorted_set.handleZREMRANGEBYLEX cmd st))) /\
  (forall (h : gmap string Scalar) (fields : list string),
      st !! key = Some (VHash h) -> fields <> [] ->
      (forall f, is_Some (h !! f) -> f ∈ fields) ->
      exists reply,
        hash.handleHDEL (c :: key :: fields) st = (Ok reply, <[key := VHash ∅]> st)) /\
  (forall (set : SortedSet) (members : list string),
      st !! key = Some (VSortedSet set) -> members <> [] ->
      (forall m, m ∈ set -> Value m ∈ members) ->
      exists reply,
        sorted_set.handleZREM (c :: key :: members) st =
          (Ok reply, <[key := VSortedSet []]> st)) /\
  (forall (set : SortedSet) (minTok maxTok : string) (lo hi : Score),
      st !! key = Some (VSortedSet set) ->
      ParseFloat minTok = Ok lo -> ParseFloat maxTok = Ok hi ->
      Forall (fun m => ScoreGe (MScore m) lo && ScoreLe (MScore m) hi = true) set ->
      exists reply,
        sorted_set.handleZREMRANGEBYSCORE [c; key; minTok; maxTok] st =
          (Ok reply, <[key := VSortedSet []]> st)) /\
  (forall (set : SortedSet) (minTok maxTok : string),
      st !! key = Some (VSortedSet set) ->
      sorted_set.scoresDiffer set (llen set - 1) = false ->
      Forall (fun m => sorted_set.inLexRange (Value m) minTok maxTok = true) set ->
      exists reply,
        sorted_set.handleZREMRANGEBYLEX [c; key; minTok; maxTok] st =
          (Ok reply, <[key := VSortedSet []]> st)).
Proof.
  split; [|split; [|split; [|split]]].
  - intros cmd. repeat split.
    + unfold hash.handleHDEL. keys_kept_by_cases.
    + unfold sorted_set.handleZREM. keys_kept_by_cases.
    + unfold sorted_set.handleZREMRANGEBYSCORE. keys_kept_by_cases.
    + unfold sorted_set.handleZREMRANGEBYLEX. keys_kept_by_cases.
  - intros h fields Hkey Hne Hall.
    destruct fields as [|f fields]; [done|].
    pose proof (deleteFields_lookup h (f :: fields) 0) as Hlook.
    unfold hash.handleHDEL. simpl. handler_steps.
    destruct (hash.deleteFields h (f :: fields) 0) as [count h'] eqn:Hdel.
    simpl in Hlook. eexists. unfold bind, SetValue, ret. simpl.
    f_equal. f_equal. f_equal. apply map_eq. intros k. rewrite Hlook, lookup_empty.
    destruct (decide (k ∈ f :: fields)) as [|Hnin]; [done|].
    destruct (h !! k) eqn:Hk; [|done]. exfalso. apply Hnin, Hall. eauto.
  - intros set members Hkey Hne Hall.
    destruct members as [|v members]; [done|].
    pose proof (removeEach_snd set (v :: members) 0) as Hsnd.
    unfold sorted_set.handleZREM. simpl. handler_steps.
    destruct (sorted_set.removeEach set (v :: members) 0) as [count set'] eqn:Hrem.
    simpl in Hsnd. eexists. unfold bind, mutateAt, ret. simpl.
    f_equal. f_equal. f_equal. rewrite Hsnd.
    apply filter_none. apply Forall_forall. intros m Hm Hnot.
    by apply Hnot, Hall.
  - intros set minTok maxTok lo hi Hkey Hlo Hhi Hall.
    pose proof (removeWhere_all
      (fun m => ScoreGe (MScore m) lo && ScoreLe (MScore m) hi) set 0 Hall) as Hsnd.
    unfold sorted_set.handleZREMRANGEBYSCORE. simpl. unfold arg. simpl.
    rewrite Hlo, Hhi. handler_steps. unfold GetAll.
    destruct (sorted_set.removeWhere _ set set 0) as [count set'] eqn:Hrem.
    simpl in Hsnd. subst set'. eexists. reflexivity.
  - intros set minTok maxTok Hkey Hsame Hall.
    pose proof (removeWhere_all
      (fun m => sorted_set.inLexRange (Value m) minTok maxTok) set 0 Hall) as Hsnd.
    unfold sorted_set.handleZREMRANGEBYLEX. simpl. unfold arg. simpl.
    handler_steps. unfold GetAll. rewrite Hsame.
    destruct (sorted_set.removeWhere _ set set 0) as [count set'] eqn:Hrem.
    simpl in Hsnd. subst set'. eexists. reflexivity.
Qed.

End removal_properties.

(** ZREM z a on the sorted set {a: 1} and HDEL h f on the hash {f: v}. *)
Lemma emptied_collection_stays_at_key_witness :
  (exists reply,
      sorted_set.handleZREM ["ZREM"; "z"; "a"] oneMemberStore =
        (Ok reply, <[ "z" := VSortedSet [] ]> oneMemberStore)) /\
  (exists reply,
      hash.handleHDEL ["HDEL"; "h"; "f"] oneFieldStore =
        (Ok reply, <[ "h" := VHash ∅ ]> oneFieldStore)).
Proof.
  split.
  - destruct (emptied_collection_stays_at_key (H := reference.externals)
                oneMemberStore "ZREM" "z") as (_ & _ & Hzrem & _).
    apply (Hzrem [mkMember "a" (ScoreOfInt 1)] ["a"]); [reflexivity|discriminate|].
    intros m Hm. apply list_elem_of_singleton in Hm as ->. left.
  - destruct (emptied_collection_stays_at_key (H := reference.externals)
                oneFieldStore "HDEL" "h") as (_ & Hhdel & _).
    apply (Hhdel {[ "f" := SStr "v" ]} ["f"]); [reflexivity|discriminate|].
    intros f [x Hx]. apply lookup_singleton_Some in Hx as [<- _]. left.
Defined.

(** ** ZADD options *)

Section zadd_properties.
Context `{Externals}.

Lemma EqualFold_NX (o : string) : EqualFold o "NX" = String.eqb (ToLower o) "nx".
Proof. reflexivity. Qed.

Lemma Contains_policy (o : string) :
  Contains ["xx"; "nx"] (ToLower o) =
  String.eqb (ToLower o) "xx" || String.eqb (ToLower o) "nx".
Proof. unfold Contains. simpl. by rewrite orb_false_r. Qed.

Lemma Contains_comparison (o : string) :
  Contains ["gt"; "lt"] (ToLower o) =
  String.eqb (ToLower o) "gt" || String.eqb (ToLower o) "lt".
Proof. unfold Contains. simpl. by rewrite orb_false_r. Qed.

#[local] Arguments Contains : simpl never.
#[local] Arguments EqualFold : simpl never.

(** With no XX among the options, the loop cannot get past both an NX and
    a GT or LT: whichever of the two comes later finds the other recorded. *)
Lemma parseOptions_nx_comparison (options : list string) (n : nat)
    (o : sorted_set.ZaddOptions) :
  (forall x, x ∈ options -> ToLower x <> "xx") ->
  policyNoneOrNX o ->
  ~ (holdsNX o /\ is_Some (sorted_set.comparison o)) ->
  (holdsNX o \/ exists x, x ∈ options /\ isNX x) ->
  (is_Some (sorted_set.comparison o) \/ exists x, x ∈ options /\ isComparison x) ->
  exists e, sorted_set.parseOptions options n o = Err e.
Proof.
  revert o. induction options as [|x options IH]; intros o Hxx Hpol Hboth Hnx Hcmp.
  - exfalso. apply Hboth. split.
    + destruct Hnx as [?|(y & Hy & _)]; [done|]. by apply not_elem_of_nil in Hy.
    + destruct Hcmp as [?|(y & Hy & _)]; [done|]. by apply not_elem_of_nil in Hy.
  - assert (forall y, y ∈ options -> ToLower y <> "xx") as Hxx'.
    { intros y Hy. apply Hxx. by right. }
    assert (ToLower x <> "xx") as Hx by (apply Hxx; left).
    simpl. rewrite Contains_policy, Contains_comparison, EqualFold_NX.
    destruct (String.eqb_spec (ToLower x) "xx") as [|_]; [done|].
    destruct (String.eqb_spec (ToLower x) "nx") as [Hisnx|Hnotnx]; simpl.
    + destruct (bool_decide (is_Some (sorted_set.comparison o))) eqn:Hc; [eauto|].
      apply bool_decide_eq_false in Hc.
      apply IH; simpl; try done.
      * right. eauto.
      * intros [_ Hs]. done.
      * left. unfold holdsNX. simpl. eauto.
      * destruct Hcmp as [?|(y & Hy & Hcy)]; [done|]. right.
        apply elem_of_cons in Hy as [->|Hy]; [|eauto].
        destruct Hcy as [Hg|Hl]; rewrite Hisnx in *; discriminate.
    + destruct (String.eqb_spec (ToLower x) "gt") as [Hgt|Hngt];
        [|destruct (String.eqb_spec (ToLower x) "lt") as [Hlt|Hnlt]]; simpl.
      1,2: rewrite EqualFold_NX;
        destruct (String.eqb_spec (ToLower (default "" (sorted_set.updatePolicy o))) "nx")
          as [Hup|Hup]; [eauto|];
        assert (~ holdsNX o) as Hno
          by (intros (p & Hp & Hpnx); rewrite Hp in Hup; simpl in Hup; done);
        apply IH; simpl; try done;
        [ intros [Hh _]; by apply Hno
        | destruct Hnx as [?|(y & Hy & Hny)]; [done|]; right;
          apply elem_of_cons in Hy as [->|Hy]; [|eauto];
          unfold isNX in Hny; congruence
        | left; eauto ].
      assert (~ isNX x) as Hxn by done.
      assert (~ isComparison x) as Hxc by (intros [?|?]; done).
      assert (holdsNX o \/ exists y, y ∈ options /\ isNX y) as Hnx'.
      { destruct Hnx as [?|(y & Hy & Hny)]; [by left|]. right.
        apply elem_of_cons in Hy as [->|Hy]; [done|eauto]. }
      assert (is_Some (sorted_set.comparison o) \/ exists y, y ∈ options /\ isComparison y)
        as Hcmp'.
      { destruct Hcmp as [?|(y & Hy & Hcy)]; [by left|]. right.
        apply elem_of_cons in Hy as [->|Hy]; [done|eauto]. }
      destruct (EqualFold x "ch"); [by apply IH|].
      destruct (EqualFold x "incr"); [|eauto].
      destruct (1 <? n)%nat; [eauto|]. by apply IH.
Qed.

(** When only NX and XX tokens are given, the loop ends without an error
    and holds the last of them as the update policy. *)
Lemma parseOptions_policy_last (options : list string) (n : nat)
    (o : sorted_set.ZaddOptions) :
  Forall (fun x => ToLower x = "nx" \/ ToLower x = "xx") options ->
  sorted_set.comparison o = None ->
  sorted_set.parseOptions options n o =
    Ok (sorted_set.mkOptions
          (match last options with Some x => Some x | None => sorted_set.updatePolicy o end)
          None (sorted_set.changed o) (sorted_set.incr o)).
Proof.
  revert o. induction options as [|x options IH]; intros o Hall Hcmp.
  - simpl. destruct o; simpl in *. by subst.
  - inversion Hall as [|? ? Hx Hrest]; subst.
    simpl. rewrite Contains_policy, EqualFold_NX, Hcmp.
    replace (String.eqb (ToLower x) "xx" || String.eqb (ToLower x) "nx") with true
      by (destruct Hx as [-> | ->]; reflexivity).
    rewrite bool_decide_eq_false_2 by (by intros [? ?]).
    rewrite andb_false_r. rewrite IH by done. simpl.
    destruct options as [|y options]; [done|].
    rewrite last_cons_cons.
    destruct (last (y :: options)) eqn:Hlast; [done|].
    by apply last_None in Hlast.
Qed.

(** C4, as it holds: when the options of a ZADD hold NX and a GT or LT and
    no XX, the command is answered with an error and the keyspace is left as
    it is, in every order of the options.  NX together with XX is not
    rejected: the option loop keeps the later of the two as the update
    policy. *)
Theorem zadd_rejects_comparison_with_nx (st : Store) (cmd : list string) :
  ((exists x, x ∈ sorted_set.optionTokens cmd /\ isNX x) ->
   (exists x, x ∈ sorted_set.optionTokens cmd /\ isComparison x) ->
   (forall x, x ∈ sorted_set.optionTokens cmd -> ToLower x <> "xx") ->
   exists e, sorted_set.handleZADD cmd st = (Err e, st)) /\
  (forall (options : list string) (x : string) (n : nat),
      Forall (fun y => ToLower y = "nx" \/ ToLower y = "xx") (options ++ [x]) ->
      sorted_set.parseOptions (options ++ [x]) n sorted_set.noOptions =
        Ok (sorted_set.mkOptions (Some x) None None None)).
Proof.
  split.
  - intros Hnx Hcmp Hxx.
    destruct (parseOptions_nx_comparison (sorted_set.optionTokens cmd)
                (length (sorted_set.parseMembers
                           (drop (Z.to_nat (sorted_set.findMembersStart cmd 0 0)) cmd)))
                sorted_set.noOptions) as [e He]; try done.
    { by left. }
    { intros [(p & Hp & _) _]. done. }
    { by right. }
    { by right. }
    unfold sorted_set.handleZADD.
    unfold sorted_set.zaddKeyFunc.
    destruct (length cmd <? 4)%nat eqn:Hlen; [by eexists|].
    apply Nat.ltb_ge in Hlen.
    destruct cmd as [|c [|key rest]]; simpl in Hlen; try lia.
    change (take 1 (drop 1 (c :: key :: rest))) with [key].
    rewrite (bind_ok _ _ st (mkKeys [] [] [key]) st) by reflexivity.
    rewrite (bind_ok _ _ st key st) by reflexivity.
    cbv zeta.
    destruct ((_ <? 2) || _); [by eexists|].
    rewrite (bind_err _ _ st e st); [by eexists|].
    unfold lift. by rewrite He.
  - intros options x n Hall.
    rewrite parseOptions_policy_last by done.
    by rewrite last_snoc.
Qed.

(** On an absent key ZADD replies with the cardinality of the new set
    whatever options the loop has read, INCR included. *)
Lemma zadd_absent_key_replies_cardinality (st : Store) (c key : string)
    (rest : list string) (o : sorted_set.ZaddOptions) :
  let cmd := c :: key :: rest in
  let pairs := drop (Z.to_nat (sorted_set.findMembersStart cmd 0 0)) cmd in
  let members := sorted_set.parseMembers pairs in
  st !! key = None ->
  (2 <= length rest)%nat ->
  2 <= sorted_set.findMembersStart cmd 0 0 ->
  llen pairs mod 2 = 0 ->
  sorted_set.parseOptions (sorted_set.optionTokens cmd) (length members)
    sorted_set.noOptions = Ok o ->
  sorted_set.handleZADD cmd st =
    (Ok (":" +:+ fmtD (Cardinality (NewSortedSet members)) +:+ CRLF),
     <[key := VSortedSet (NewSortedSet members)]> (<[key := VNil]> st)).
Proof.
  intros cmd pairs members Habsent Hlen Hstart Heven Hopts.
  unfold sorted_set.handleZADD, sorted_set.zaddKeyFunc.
  replace (length cmd <? 4)%nat with false
    by (symmetry; apply Nat.ltb_ge; simpl; lia).
  change (take 1 (drop 1 cmd)) with [key].
  rewrite (bind_ok _ _ st (mkKeys [] [] [key]) st) by reflexivity.
  rewrite (bind_ok _ _ st key st) by reflexivity.
  cbv zeta. fold pairs. fold members.
  replace (sorted_set.findMembersStart cmd 0 0 <? 2) with false by lia.
  rewrite Heven. change (false || negb (0 =? 0)) with false. cbv iota.
  rewrite (bind_ok _ _ st o st) by (unfold lift; by rewrite Hopts).
  rewrite (bind_ok _ _ st false st) by (by apply KeyExists_absent).
  unfold bind, CreateKeyAndLock, SetValue, ret. rewrite Habsent. reflexivity.
Qed.

End zadd_properties.

(** ** The order of scores *)

Section score_order.

Lemma SFcompare_key (x y : Score) :
  IsNaN x = false -> IsNaN y = false ->
  SFcompare x y = Some (keyCompare (scoreKey x) (scoreKey y)).
Proof.
  intros Hx Hy.
  destruct x as [sx|sx| |sx mx ex]; try discriminate;
  destruct y as [sy|sy| |sy my ey]; try discriminate;
  try destruct sx; try destruct sy; try reflexivity.
  simpl. rewrite Z.compare_opp, (Z.compare_antisym ey ex).
  destruct (ey ?= ex); reflexivity.
Qed.

Lemma keyCompare_spec (a b : Z * Z * Z) :
  let '(a1, a2, a3) := a in
  let '(b1, b2, b3) := b in
  match keyCompare a b with
  | Lt => a1 < b1 \/ (a1 = b1 /\ (a2 < b2 \/ (a2 = b2 /\ a3 < b3)))
  | Eq => a1 = b1 /\ a2 = b2 /\ a3 = b3
  | Gt => b1 < a1 \/ (a1 = b1 /\ (b2 < a2 \/ (a2 = b2 /\ b3 < a3)))
  end.
Proof.
  destruct a as [[a1 a2] a3], b as [[b1 b2] b3]. unfold keyCompare.
  destruct (Z.compare_spec a1 b1); [|lia|lia].
  destruct (Z.compare_spec a2 b2); [|lia|lia].
  destruct (Z.compare_spec a3 b3); lia.
Qed.

(** [cmp.Compare] is negative exactly when the first score lies before the
    second on the line of [scoreKey]. *)
Lemma cmpCompare_lt_key (x y : Score) :
  cmpCompare x y < 0 <-> keyCompare (scoreKey x) (scoreKey y) = Lt.
Proof.
  unfold cmpCompare.
  destruct (IsNaN x) eqn:Hx.
  - destruct x; try discriminate.
    destruct (IsNaN y) eqn:Hy.
    + destruct y; try discriminate. simpl. split; [lia|discriminate].
    + destruct y as [sy|sy| |sy my ey]; try discriminate;
        try destruct sy; simpl; split; (lia || reflexivity).
  - destruct (IsNaN y) eqn:Hy.
    + destruct y; try discriminate.
      destruct x as [sx|sx| |sx mx ex]; try discriminate;
        try destruct sx; simpl; split; (lia || discriminate).
    + unfold ScoreLt, SFltb.
      rewrite (SFcompare_key x y Hx Hy), (SFcompare_key y x Hy Hx).
      pose proof (keyCompare_spec (scoreKey x) (scoreKey y)) as Hxy.
      pose proof (keyCompare_spec (scoreKey y) (scoreKey x)) as Hyx.
      destruct (scoreKey x) as [[a1 a2] a3], (scoreKey y) as [[b1 b2] b3].
      destruct (keyCompare (a1, a2, a3) (b1, b2, b3)),
               (keyCompare (b1, b2, b3) (a1, a2, a3));
        split; intros; (lia || discriminate || reflexivity).
Qed.

(** [cmp.Compare] on scores is a strict weak ordering. *)
Lemma cmpCompare_strictWeakOrder :
  strictWeakOrder (fun a b : MemberParam => cmpCompare (MScore a) (MScore b) < 0).
Proof.
  split.
  - intros a b Hab Hba. apply cmpCompare_lt_key in Hab, Hba.
    pose proof (keyCompare_spec (scoreKey (MScore a)) (scoreKey (MScore b))) as Hxy.
    pose proof (keyCompare_spec (scoreKey (MScore b)) (scoreKey (MScore a))) as Hyx.
    destruct (scoreKey (MScore a)) as [[a1 a2] a3], (scoreKey (MScore b)) as [[b1 b2] b3].
    rewrite Hab in Hxy. rewrite Hba in Hyx. lia.
  - intros a b c Hac. rewrite !cmpCompare_lt_key. apply cmpCompare_lt_key in Hac.
    pose proof (keyCompare_spec (scoreKey (MScore a)) (scoreKey (MScore c))) as Hxz.
    pose proof (keyCompare_spec (scoreKey (MScore a)) (scoreKey (MScore b))) as Hxy.
    pose proof (keyCompare_spec (scoreKey (MScore b)) (scoreKey (MScore c))) as Hyz.
    destruct (scoreKey (MScore a)) as [[a1 a2] a3], (scoreKey (MScore b)) as [[b1 b2] b3],
             (scoreKey (MScore c)) as [[c1 c2] c3].
    rewrite Hac in Hxz.
    destruct (keyCompare (a1, a2, a3) (b1, b2, b3)); [|by left|];
    destruct (keyCompare (b1, b2, b3) (c1, c2, c3)); try (by right); lia.
Qed.

(** Where no score is NaN, "not less" in the other direction is [<=]. *)
Lemma not_cmpCompare_lt_ScoreLe (x y : Score) :
  IsNaN x = false -> IsNaN y = false ->
  ~ cmpCompare y x < 0 -> ScoreLe x y = true.
Proof.
  intros Hx Hy Hnot. rewrite cmpCompare_lt_key in Hnot.
  unfold ScoreLe, SFleb. rewrite (SFcompare_key x y Hx Hy).
  pose proof (keyCompare_spec (scoreKey x) (scoreKey y)) as Hxy.
  pose proof (keyCompare_spec (scoreKey y) (scoreKey x)) as Hyx.
  destruct (scoreKey x) as [[a1 a2] a3], (scoreKey y) as [[b1 b2] b3].
  destruct (keyCompare (a1, a2, a3) (b1, b2, b3)); try reflexivity.
  destruct (keyCompare (b1, b2, b3) (a1, a2, a3)); try done; lia.
Qed.

(** Every score but NaN lies in the full range. *)
Lemma full_range_all (x : Score) :
  IsNaN x = false -> ScoreGe x (Inf (-1)) && ScoreLe x (Inf 1) = true.
Proof.
  intros Hx. destruct x as [s|s| |s m e]; try discriminate; destruct s; reflexivity.
Qed.

End score_order.

(** ** Sorting *)

Section sorting.
Context {A : Type} (cmp : A -> A -> Z).
Hypothesis cmp_order : strictWeakOrder (fun a b => cmp a b < 0).

Lemma sink_perm (x : A) (revPrefix : list A) :
  reference.sink cmp x revPrefix ≡ₚ x :: revPrefix.
Proof.
  induction revPrefix as [|y rest IH]; simpl; [done|].
  destruct (cmp x y <? 0); [|done].
  rewrite IH. apply Permutation_swap.
Qed.

(** The prefix stays sorted, last element first, when an element sinks
    into it. *)
Lemma sink_sorted (x : A) (revPrefix : list A) :
  StronglySorted (fun a b => ~ cmp a b < 0) revPrefix ->
  StronglySorted (fun a b => ~ cmp a b < 0) (reference.sink cmp x revPrefix).
Proof.
  destruct cmp_order as [Hasym Hneg].
  induction 1 as [|y rest Hrest IH Hy]; simpl.
  - constructor; constructor.
  - destruct (cmp x y <? 0) eqn:Hlt.
    + apply Z.ltb_lt in Hlt. constructor; [exact IH|].
      rewrite (sink_perm x rest). constructor; [|exact Hy].
      by apply Hasym.
    + apply Z.ltb_ge in Hlt. constructor; [by constructor|].
      constructor; [lia|].
      eapply Forall_impl; [exact Hy|]. simpl. intros z Hyz Hxz.
      destruct (Hneg x y z Hxz); [lia|done].
Qed.

Lemma StronglySorted_snoc (R : A -> A -> Prop) (l : list A) (x : A) :
  StronglySorted R l -> Forall (fun y => R y x) l -> StronglySorted R (l ++ [x]).
Proof.
  induction 1 as [|y l Hl IH Hy]; intros Hx; simpl.
  - constructor; constructor.
  - inversion Hx as [|? ? Hyx Hlx]; subst. constructor; [by apply IH|].
    apply Forall_app. split; [done|]. by constructor.
Qed.

Lemma StronglySorted_rev (R : A -> A -> Prop) (l : list A) :
  StronglySorted R l -> StronglySorted (fun a b => R b a) (rev l).
Proof.
  induction 1 as [|y l Hl IH Hy]; simpl; [constructor|].
  apply StronglySorted_snoc; [done|].
  apply Forall_forall. intros z Hz. apply (proj1 (Forall_forall _ _) Hy).
  apply list_elem_of_In. apply list_elem_of_In, in_rev in Hz. done.
Qed.

Lemma insertion_perm (data acc : list A) :
  fold_left (fun revPrefix x => reference.sink cmp x revPrefix) data acc ≡ₚ acc ++ data.
Proof.
  revert acc. induction data as [|x data IH]; intros acc; simpl.
  - by rewrite app_nil_r.
  - rewrite IH, sink_perm. simpl. apply Permutation_middle.
Qed.

Lemma insertion_sorted (data acc : list A) :
  StronglySorted (fun a b => ~ cmp a b < 0) acc ->
  StronglySorted (fun a b => ~ cmp a b < 0)
    (fold_left (fun revPrefix x => reference.sink cmp x revPrefix) data acc).
Proof.
  revert acc. induction data as [|x data IH]; intros acc Hacc; simpl; [done|].
  by apply IH, sink_sorted.
Qed.

(** Sorting by insertion rearranges the slice and leaves no element less
    than one before it. *)
Lemma insertionSort_sorts (data : list A) :
  reference.insertionSort cmp data ≡ₚ data /\
  StronglySorted (fun a b => ~ cmp b a < 0) (reference.insertionSort cmp data).
Proof.
  unfold reference.insertionSort. split.
  - rewrite <- Permutation_rev. by rewrite insertion_perm.
  - apply (StronglySorted_rev (fun a b => ~ cmp a b < 0)).
    apply insertion_sorted. constructor.
Qed.

End sorting.

(** The reference sort keeps the contract of [slices.SortFunc]. *)
Lemma reference_sort_contract : SortFuncContract (H := reference.externals).
Proof. intros A cmp data Horder. by apply insertionSort_sorts. Qed.

(** ** ZRANGE over the full score range *)

Section zrange_properties.
Context `{Externals}.

Lemma StronglySorted_impl_in {A} (R R' : A -> A -> Prop) (P : A -> Prop) (l : list A) :
  (forall a b, P a -> P b -> R a b -> R' a b) ->
  Forall P l -> StronglySorted R l -> StronglySorted R' l.
Proof.
  intros Himpl HP Hsorted. induction Hsorted as [|x l Hl IH Hx]; [constructor|].
  inversion HP as [|? ? HPx HPl]; subst. constructor; [by apply IH|].
  apply Forall_forall. intros y Hy.
  apply Himpl; [done| |].
  - by apply (proj1 (Forall_forall _ _) HPl).
  - by apply (proj1 (Forall_forall _ _) Hx).
Qed.

(** C5, as it holds: for a sorted set without NaN scores, ZRANGE over the
    score range from -inf to +inf replies with exactly the members of the
    set, in non-decreasing order of score.  The handler sorts by score only:
    among members of equal score the order is the one the sort leaves, which
    need not be the lexicographic order of the values. *)
Theorem zrange_full_range_score_order (st : Store) (c key lo hi : string)
    (set : SortedSet) :
  SortFuncContract ->
  ParseFloat lo = Ok (Inf (-1)) -> ParseFloat hi = Ok (Inf 1) ->
  st !! key = Some (VSortedSet set) ->
  noNaN set ->
  exists out,
    sorted_set.handleZRANGE [c; key; lo; hi] st =
      (Ok (sorted_set.rangeReply false out), st) /\
    out ≡ₚ GetAll set /\
    scoreAscending out.
Proof.
  intros Hsort Hlo Hhi Hkey Hnan.
  destruct (Hsort MemberParam (fun a b => cmpCompare (MScore a) (MScore b)) (GetAll set)
              cmpCompare_strictWeakOrder) as [Hperm Hsorted].
  set (sorted := SortFunc MemberParam (fun a b => cmpCompare (MScore a) (MScore b)) (GetAll set))
    in *.
  assert (noNaN sorted) as Hnan'.
  { unfold noNaN. by rewrite Hperm. }
  exists sorted. split; [|split; [done|]].
  - unfold sorted_set.handleZRANGE. simpl. unfold arg. simpl. rewrite Hlo, Hhi.
    handler_steps.
    assert ((0 >? Cardinality set) = false) as ->.
    { unfold Cardinality, llen. rewrite Z.gtb_ltb. apply Z.ltb_ge. lia. }
    fold sorted.
    assert (sorted_set.window sorted 0 (Cardinality set - 0) = sorted) as ->.
    { unfold sorted_set.window, Cardinality, llen. simpl. rewrite drop_0.
      apply take_ge. apply Permutation_length in Hperm. unfold GetAll in Hperm. lia. }
    rewrite filter_all; [reflexivity|].
    eapply Forall_impl; [exact Hnan'|]. intros m Hm. by apply full_range_all.
  - unfold scoreAscending.
    apply (StronglySorted_impl_in
             (fun a b => ~ cmpCompare (MScore b) (MScore a) < 0) _
             (fun m => IsNaN (MScore m) = false) sorted); [|done|done].
    intros a b Ha Hb Hab. by apply not_cmpCompare_lt_ScoreLe.
Qed.

(** The same-score check of ZLEXCOUNT never reads the score of the last
    record: it is the check of ZREMRANGEBYLEX run on the set without that
    record. *)
Lemma scoresDiffer_last_unchecked (set : list MemberParam) (last : MemberParam) :
  sorted_set.scoresDiffer (set ++ [last]) (llen (set ++ [last]) - 2) =
  sorted_set.scoresDiffer set (llen set - 1).
Proof.
  unfold sorted_set.scoresDiffer, llen. rewrite length_app. simpl length.
  replace (Z.to_nat (Z.of_nat (length set + 1) - 2))
    with (Z.to_nat (Z.of_nat (length set) - 1)) by lia.
  apply eq_true_iff_eq. rewrite !existsb_exists.
  split; intros (i & Hi & Hne); exists i; (split; [done|]);
    apply in_seq in Hi; unfold sorted_set.scoreAt in *.
  - by rewrite !app_nth1 in Hne by lia.
  - by rewrite !app_nth1 by lia.
Qed.

(** ZLEXCOUNT counts the members in the lexicographic range as soon as all
    records but the last carry one score, whatever the score of the last. *)
Lemma zlexcount_last_record_unchecked (st : Store) (c key minimum maximum : string)
    (set : list MemberParam) (last : MemberParam) :
  st !! key = Some (VSortedSet (set ++ [last])) ->
  sorted_set.scoresDiffer set (llen set - 1) = false ->
  sorted_set.handleZLEXCOUNT [c; key; minimum; maximum] st =
    (Ok (":" +:+
         fmtD (llen (filter (fun m => sorted_set.inLexRange (Value m) minimum maximum = true)
                       (set ++ [last]))) +:+ CRLF), st).
Proof.
  intros Hkey Hsame.
  unfold sorted_set.handleZLEXCOUNT. simpl. unfold arg. simpl.
  handler_steps. unfold GetAll.
  rewrite scoresDiffer_last_unchecked, Hsame. reflexivity.
Qed.

End zrange_properties.

(** ** Sorted-set commands on the reference implementation *)

(** ZADD z GT CH NX 1 a: NX comes after GT and the command is refused. *)
Lemma zadd_rejects_comparison_with_nx_witness :
  exists e,
    sorted_set.handleZADD (H := reference.externals)
      ["ZADD"; "z"; "GT"; "CH"; "NX"; "1"; "a"] emptyStore = (Err e, emptyStore).
Proof.
  apply (proj1 (zadd_rejects_comparison_with_nx (H := reference.externals)
                  emptyStore ["ZADD"; "z"; "GT"; "CH"; "NX"; "1"; "a"])).
  - exists "NX". split; [|reflexivity]. vm_compute. repeat constructor.
  - exists "GT". split; [|by left]. vm_compute. repeat constructor.
  - intros x Hx. vm_compute in Hx.
    repeat (apply elem_of_cons in Hx as [->|Hx]; [discriminate|]).
    by apply not_elem_of_nil in Hx.
Defined.

(** C4 as stated fails: ZADD z NX XX 1 a is not refused, and neither is
    ZADD z NX XX GT 1 a, which gives GT together with NX. *)
Lemma zadd_nx_xx_counterexample :
  fst (sorted_set.handleZADD (H := reference.externals)
         ["ZADD"; "z"; "NX"; "XX"; "1"; "a"] emptyStore) = Ok (":1" +:+ CRLF) /\
  fst (sorted_set.handleZADD (H := reference.externals)
         ["ZADD"; "z"; "NX"; "XX"; "GT"; "1"; "a"] emptyStore) = Ok (":1" +:+ CRLF).
Proof. split; vm_compute; reflexivity. Qed.

(** C3 on the code: ZADD z INCR 5 a on an absent key z creates the member
    with score 5 and replies with the count :1, not with the new score; on
    the key that holds {a: 1} the same command replies with the new score
    6. *)
Theorem zadd_incr_absent_key_replies_count :
  sorted_set.handleZADD (H := reference.externals)
    ["ZADD"; "z"; "INCR"; "5"; "a"] emptyStore =
    (Ok (":1" +:+ CRLF), {[ "z" := VSortedSet [mkMember "a" (ScoreOfInt 5)] ]}) /\
  sorted_set.handleZADD (H := reference.externals)
    ["ZADD"; "z"; "INCR"; "5"; "a"] oneMemberStore =
    (Ok ("+6.000000" +:+ CRLF), {[ "z" := VSortedSet [mkMember "a" (ScoreOfInt 6)] ]}).
Proof. split; vm_compute; reflexivity. Qed.

(** C1 on the code: on the sorted set {a: 1, b: 2}, whose two scores
    differ, ZLEXCOUNT z a b replies 2: the loop that compares neighbouring
    scores stops two short of the length and never looks at the last record.
    ZREMRANGEBYLEX, whose loop stops one short, replies 0 on the same set. *)
Theorem zlexcount_ignores_last_score :
  sorted_set.scoresDiffer twoScores (llen twoScores - 1) = true /\
  sorted_set.scoresDiffer twoScores (llen twoScores - 2) = false /\
  sorted_set.handleZLEXCOUNT (H := reference.externals)
    ["ZLEXCOUNT"; "z"; "a"; "b"] twoScoresStore = (Ok (":2" +:+ CRLF), twoScoresStore) /\
  sorted_set.handleZREMRANGEBYLEX (H := reference.externals)
    ["ZREMRANGEBYLEX"; "z"; "a"; "b"] twoScoresStore = (Ok (":0" +:+ CRLF), twoScoresStore).
Proof. repeat split; vm_compute; reflexivity. Qed.

(** ZRANGE z -inf +inf on the set {a: 1, b: 2}, sorted by insertion. *)
Lemma zrange_full_range_score_order_witness :
  exists out,
    sorted_set.handleZRANGE (H := reference.externals)
      ["ZRANGE"; "z"; "-inf"; "+inf"] twoScoresStore =
      (Ok (sorted_set.rangeReply (H := reference.externals) false out), twoScoresStore) /\
    out ≡ₚ GetAll twoScores /\
    scoreAscending out.
Proof.
  apply (zrange_full_range_score_order (H := reference.externals)
           twoScoresStore "ZRANGE" "z" "-inf" "+inf" twoScores).
  - exact reference_sort_contract.
  - reflexivity.
  - reflexivity.
  - reflexivity.
  - repeat constructor.
Defined.

(** C5 as stated fails on ties: after ZADD z 1 b 1 a the set hands out b
    before a, the score sort leaves the two where they are, and ZRANGE z -inf
    +inf replies b before a although a is the lesser value. *)
Lemma zrange_tie_order_counterexample :
  snd (sorted_set.handleZADD (H := reference.externals)
         ["ZADD"; "z"; "1"; "b"; "1"; "a"] emptyStore) = tieStore /\
  fst (sorted_set.handleZRANGE (H := reference.externals)
         ["ZRANGE"; "z"; "-inf"; "+inf"] tieStore) =
    Ok (sorted_set.rangeReply (H := reference.externals) false tieMembers) /\
  ~ scoreThenLexAscending (H := reference.externals) tieMembers.
Proof.
  split; [vm_compute; reflexivity|]. split; [vm_compute; reflexivity|].
  intros Hsorted. inversion Hsorted as [|? ? _ Hb]; subst.
  inversion Hb as [|? ? Hba _]; subst.
  destruct Hba as [Hlt|[_ Hlex]]; [discriminate|].
  vm_compute in Hlex. by apply Hlex.
Qed.

(** * Further properties *)

(** ** The string commands *)

Lemma onlyKey_refl (key : string) (st : Store) : onlyKey key st st.
Proof. by intros k. Qed.

Lemma onlyKey_insert (key : string) (v : StoredValue) (st st' : Store) :
  onlyKey key st st' -> onlyKey key st (<[key := v]> st').
Proof. intros Hst k Hk. rewrite lookup_insert_ne by done. by apply Hst. Qed.

(** Splits a handler into its branches; in each the keyspace is the
    initial one or has writes at the one key. *)
Ltac frame_by_cases :=
  unfold KeyLock, KeyUnlock, KeyRLock, KeyRUnlock, sorted_set.notSortedSet,
    list_plugin.ignore;
  unfold bind, lift, ret, fail, panic, KeyExists, GetValue, SetValue, mutateAt,
    CreateKeyAndLock;
  repeat case_match; simplify_eq/=;
  repeat (apply onlyKey_insert); try apply onlyKey_refl.

Section string_more.
Context `{Externals}.

Lemma handleSetRange_frame (cmd : list string) (st : Store) :
  onlyKey (arg cmd 1) st (snd (str.handleSetRange cmd st)).
Proof.
  unfold str.handleSetRange, str.setRangeKeyFunc.
  destruct (negb (length cmd =? 4)%nat) eqn:Hlen; [apply onlyKey_refl|].
  destruct cmd as [|c [|key rest]]; try discriminate.
  change (take 1 (drop 1 (c :: key :: rest))) with [key].
  rewrite (bind_ok _ _ st (mkKeys [] [] [key]) st) by reflexivity.
  rewrite (bind_ok _ _ st key st) by reflexivity.
  change (arg (c :: key :: rest) 1) with key. unfold WriteKeys.
  frame_by_cases.
Qed.

Lemma handleStrLen_readonly (cmd : list string) (st : Store) :
  snd (str.handleStrLen cmd st) = st.
Proof. unfold str.handleStrLen. frame_by_cases; reflexivity. Qed.

Lemma handleSubStr_readonly (cmd : list string) (st : Store) :
  snd (str.handleSubStr cmd st) = st.
Proof. unfold str.handleSubStr. frame_by_cases; reflexivity. Qed.

(** X1.  A command of the string registry changes no key other than the
    write keys its extractor names: SETRANGE may change its key only, and
    the commands registered with [Sync: false] (STRLEN, SUBSTR, GETRANGE)
    leave the keyspace as it is, for every command array, also when they
    answer with an error. *)
Theorem str_commands_change_only_write_keys (c : str.Command) (cmd : list string)
    (st : Store) :
  c ∈ str.Commands ->
  (forall keys k,
      str.KeyExtractionFunc c cmd = Ok keys -> k ∉ WriteKeys keys ->
      snd (str.HandlerFunc c cmd st) !! k = st !! k) /\
  (str.Sync c = false -> snd (str.HandlerFunc c cmd st) = st).
Proof.
  intros Hc. unfold str.Commands in Hc.
  repeat (apply elem_of_cons in Hc as [->|Hc]); [| | | |by apply not_elem_of_nil in Hc];
    simpl; (split; [|try discriminate]).
  - intros keys k Hkeys Hk. apply handleSetRange_frame.
    unfold str.setRangeKeyFunc in Hkeys.
    destruct (negb (length cmd =? 4)%nat) eqn:Hlen; [discriminate|].
    inversion Hkeys; subst. simpl in Hk.
    destruct cmd as [|c0 [|key rest]]; try discriminate.
    intros ->. apply Hk. left.
  - intros keys k _ _. by rewrite handleStrLen_readonly.
  - intros _. apply handleStrLen_readonly.
  - intros keys k _ _. by rewrite handleSubStr_readonly.
  - intros _. apply handleSubStr_readonly.
  - intros keys k _ _. by rewrite handleSubStr_readonly.
  - intros _. apply handleSubStr_readonly.
Qed.

Lemma wrap64_small (z : Z) : - 2 ^ 63 <= z < 2 ^ 63 -> wrap64 z = z.
Proof. intros Hz. unfold wrap64. rewrite Z.mod_small; lia. Qed.



Lemma handleStrLen_string (st : Store) (c key value : string) :
  st !! key = Some (VString value) ->
  str.handleStrLen [c; key] st = (Ok (":" +:+ fmtD (slen value) +:+ CRLF), st).
Proof.
  intros Hkey. unfold str.handleStrLen. simpl. by handler_steps.
Qed.

(** X3.  SETRANGE of module str at the edges: on an absent key it stores
    the new string; with an offset at or past the length of the stored string
    it appends the new string; with a negative offset it prepends it.  In
    each case the reply is the length of the stored string, and a STRLEN
    that follows replies the same integer. *)
Theorem setrange_create_append_prepend (st : Store) (c c' key offsetTok newStr : string)
    (offset : Z) :
  AdaptType offsetTok = SInt offset ->
  (st !! key = None ->
   let st' := <[key := VString newStr]> st in
   str.handleSetRange [c; key; offsetTok; newStr] st =
     (Ok (":" +:+ fmtD (slen newStr) +:+ CRLF), st') /\
   str.handleStrLen [c'; key] st' = (Ok (":" +:+ fmtD (slen newStr) +:+ CRLF), st')) /\
  (forall str0,
      st !! key = Some (VString str0) -> slen str0 <= offset ->
      let st' := <[key := VString (str0 +:+ newStr)]> st in
      str.handleSetRange [c; key; offsetTok; newStr] st =
        (Ok (":" +:+ fmtD (slen (str0 +:+ newStr)) +:+ CRLF), st') /\
      str.handleStrLen [c'; key] st' =
        (Ok (":" +:+ fmtD (slen (str0 +:+ newStr)) +:+ CRLF), st')) /\
  (forall str0,
      st !! key = Some (VString str0) -> offset < 0 ->
      let st' := <[key := VString (newStr +:+ str0)]> st in
      str.handleSetRange [c; key; offsetTok; newStr] st =
        (Ok (":" +:+ fmtD (slen (newStr +:+ str0)) +:+ CRLF), st') /\
      str.handleStrLen [c'; key] st' =
        (Ok (":" +:+ fmtD (slen (newStr +:+ str0)) +:+ CRLF), st')).
Proof.
  intros Htok.
  assert (forall v, str.handleStrLen [c'; key] (<[key := VString v]> st) =
                    (Ok (":" +:+ fmtD (slen v) +:+ CRLF), <[key := VString v]> st)) as Hlen.
  { intros v. apply handleStrLen_string, lookup_insert_eq. }
  split; [|split].
  - intros Habsent st'. split; [|apply Hlen].
    unfold str.handleSetRange. simpl. unfold arg. simpl. rewrite Htok. simpl.
    handler_steps. unfold bind, CreateKeyAndLock, SetValue, KeyUnlock, ret.
    rewrite Habsent. simpl. by rewrite insert_insert_eq.
  - intros str0 Hkey Hoff st'. split; [|apply Hlen].
    unfold str.handleSetRange. simpl. unfold arg. simpl. rewrite Htok. simpl.
    handler_steps. replace (offset >=? slen str0) with true by lia. reflexivity.
  - intros str0 Hkey Hoff st'. split; [|apply Hlen].
    unfold str.handleSetRange. simpl. unfold arg. simpl. rewrite Htok. simpl.
    handler_steps. assert (0 <= slen str0) by (unfold slen; lia).
    replace (offset >=? slen str0) with false by lia.
    replace (offset <? 0) with true by lia. reflexivity.
Qed.


Lemma length_bytes (s : string) : length (bytes s) = String.length s.
Proof. induction s as [|b s IH]; simpl; [done|]. by f_equal. Qed.

Lemma bytes_string_of_list (l : list ascii) : bytes (string_of_list_ascii l) = l.
Proof. apply list_ascii_of_string_of_list_ascii. Qed.

Lemma setRangeLoop_overwrites (str0 newStr : string) (rest : list ascii) :
  slen str0 < 2 ^ 63 ->
  forall (i offset : Z) (strRunes : list Z),
    llen strRunes = slen str0 -> 0 <= offset -> 0 <= i ->
    drop (Z.to_nat i) (runes newStr) = map (fun b => Z.of_nat (nat_of_ascii b)) rest ->
    str.setRangeLoop str0 newStr rest i offset strRunes =
      Ok (take (Z.to_nat offset) strRunes ++
          map (fun b => Z.of_nat (nat_of_ascii b)) rest ++
          drop (Z.to_nat offset + length rest) strRunes).
Proof.
  intros Hmax. induction rest as [|b rest IH]; intros i offset strRunes Hlen Ho Hi Hrest.
  - simpl. rewrite Nat.add_0_r. by rewrite take_drop.
  - unfold llen in Hlen. cbn [str.setRangeLoop].
    destruct (offset <? slen str0) eqn:Hin.
    + replace ((0 <=? offset) && (offset <? llen strRunes)) with true
        by (unfold llen; lia).
      rewrite wrap64_small by lia.
      rewrite IH; [| unfold llen; rewrite length_insert; lia | lia | lia |].
      * f_equal.
        replace (Z.to_nat (offset + 1)) with (S (Z.to_nat offset)) by lia.
        rewrite (take_S_r _ _ (Z.of_nat (nat_of_ascii b)))
          by (apply list_lookup_insert_eq; lia).
        rewrite take_insert_ge by lia.
        rewrite drop_insert_lt by lia.
        rewrite <- app_assoc. cbn [map length app].
        replace (Z.to_nat offset + S (length rest))%nat
          with (S (Z.to_nat offset) + length rest)%nat by lia.
        reflexivity.
      * replace (Z.to_nat (i + 1)) with (Z.to_nat i + 1)%nat by lia.
        rewrite <- drop_drop, Hrest. reflexivity.
    + assert (Z.to_nat i < length (runes newStr))%nat as Hilt.
      { destruct (decide (Z.to_nat i < length (runes newStr))%nat) as [|Hge]; [done|].
        rewrite drop_ge in Hrest by lia. discriminate. }
      unfold sliceList.
      replace ((0 <=? i) && (i <=? llen (runes newStr)) &&
               (llen (runes newStr) <=? llen (runes newStr))) with true
        by (unfold llen; lia).
      rewrite take_ge by (rewrite length_drop; unfold llen; lia).
      rewrite Hrest.
      rewrite take_ge by lia. rewrite drop_ge by lia.
      by rewrite app_nil_r.
Qed.

Lemma isASCII_overwrite (s new : string) (offset : Z) :
  isASCII s -> isASCII new -> isASCII (overwrite s offset new).
Proof.
  unfold isASCII, overwrite. intros Hs Hnew. rewrite bytes_string_of_list.
  apply Forall_app; split; [by apply Forall_take|].
  apply Forall_app; split; [done|by apply Forall_drop].
Qed.

Lemma codes_overwrite (s new : string) (offset : Z) :
  codes (overwrite s offset new) =
  take (Z.to_nat offset) (codes s) ++ codes new ++
  drop (Z.to_nat offset + length (bytes new)) (codes s).
Proof.
  unfold codes, overwrite. rewrite bytes_string_of_list.
  rewrite !map_app, <- firstn_map, <- skipn_map. by rewrite length_bytes.
Qed.

(** X4.  SETRANGE of module str with an offset inside the stored string,
    on ASCII strings (where the rune conversions are the identity on bytes):
    the new string is written over the stored one from the offset on, the
    stored string grows when the new one reaches past its end and keeps its
    tail otherwise; the reply is the length of the result, the larger of the
    old length and offset plus the length of the new string. *)
Theorem setrange_overwrites_from_offset (st : Store) (c key offsetTok newStr : string)
    (offset : Z) (str0 : string) :
  runesOnASCII ->
  isASCII str0 -> isASCII newStr -> slen str0 < 2 ^ 63 ->
  AdaptType offsetTok = SInt offset ->
  st !! key = Some (VString str0) ->
  0 <= offset < slen str0 ->
  str.handleSetRange [c; key; offsetTok; newStr] st =
    (Ok (":" +:+ fmtD (Z.max (slen str0) (offset + slen newStr)) +:+ CRLF),
     <[key := VString (overwrite str0 offset newStr)]> st) /\
  slen (overwrite str0 offset newStr) = Z.max (slen str0) (offset + slen newStr).
Proof.
  intros Hrunes Hstr Hnew Hmax Htok Hkey Hoff.
  destruct (Hrunes _ Hstr) as [Hrs _]. destruct (Hrunes _ Hnew) as [Hrn _].
  destruct (Hrunes _ (isASCII_overwrite _ _ offset Hstr Hnew)) as [_ Hback].
  assert (length (codes str0) = String.length str0) as Hclen
    by (unfold codes; by rewrite length_map, length_bytes).
  assert (length (codes (overwrite str0 offset newStr)) =
          Z.to_nat (Z.max (slen str0) (offset + slen newStr))) as Hrlen.
  { rewrite codes_overwrite, !length_app, length_take, length_drop, Hclen.
    unfold codes. rewrite length_map, length_bytes. unfold slen in *. lia. }
  split.
  - unfold str.handleSetRange. simpl. unfold arg. simpl. rewrite Htok. simpl.
    handler_steps.
    replace (offset >=? slen str0) with false by lia.
    replace (offset <? 0) with false by lia.
    rewrite (setRangeLoop_overwrites str0 newStr (bytes newStr) Hmax 0 offset (runes str0));
      [| unfold llen; rewrite Hrs, Hclen; done | lia | lia | by rewrite Hrn ].
    simpl. unfold bind, SetValue, ret. simpl.
    rewrite Hrs. fold (codes newStr). rewrite <- codes_overwrite, Hback.
    unfold llen. rewrite Hrlen. rewrite Z2Nat.id by (unfold slen; lia). reflexivity.
  - unfold slen at 1. rewrite <- length_bytes.
    replace (length (bytes (overwrite str0 offset newStr)))
      with (length (codes (overwrite str0 offset newStr)))
      by (unfold codes; by rewrite length_map).
    rewrite Hrlen. rewrite Z2Nat.id by (unfold slen; lia). reflexivity.
Qed.


Lemma Join_singletons (l : list ascii) :
  Join (map (fun b => String b "") l) = string_of_list_ascii l.
Proof.
  induction l as [|b l IH]; [done|].
  change (String b "" +:+ Join (map (fun b => String b "") l) =
          String b (string_of_list_ascii l)).
  by rewrite append_cons, IH.
Qed.

Lemma string_of_list_app (l1 l2 : list ascii) :
  string_of_list_ascii (l1 ++ l2) = string_of_list_ascii l1 +:+ string_of_list_ascii l2.
Proof.
  induction l1 as [|b l1 IH]; [done|].
  change (String b (string_of_list_ascii (l1 ++ l2)) =
          String b (string_of_list_ascii l1) +:+ string_of_list_ascii l2).
  by rewrite append_cons, IH.
Qed.

Lemma string_of_bytes (s : string) : string_of_list_ascii (bytes s) = s.
Proof. apply string_of_list_ascii_of_string. Qed.

(** X5.  SETRANGE of the string plugin with an offset inside the stored
    string, on ASCII strings: the handler replaces the single character at
    the offset by the whole new string, whatever the length of the new
    string, so that the result has the old length less one plus the length
    of the new string. *)
Theorem plugin_setrange_replaces_one_character (st : Store)
    (c key offsetTok newStr : string) (offset : Z) (str0 : string) :
  splitOnASCII ->
  isASCII str0 -> isASCII newStr -> slen str0 < 2 ^ 63 ->
  AdaptType offsetTok = SInt offset ->
  st !! key = Some (VString str0) ->
  0 <= offset < slen str0 ->
  string_plugin.handleSetRange [c; key; offsetTok; newStr] st =
    (Ok (":" +:+ fmtD (slen str0 - 1 + slen newStr) +:+ CRLF +:+ LF),
     <[key := VString (replaceAt str0 offset newStr)]> st) /\
  slen (replaceAt str0 offset newStr) = slen str0 - 1 + slen newStr.
Proof.
  intros Hsplit Hstr Hnew Hmax Htok Hkey Hoff.
  assert (slen (replaceAt str0 offset newStr) = slen str0 - 1 + slen newStr) as Hrlen.
  { unfold slen at 1. rewrite <- length_bytes. unfold replaceAt.
    rewrite bytes_string_of_list, !length_app, length_take, length_drop, !length_bytes.
    unfold slen in *. lia. }
  split; [|exact Hrlen].
  assert (llen (map (fun b => String b "") (bytes str0)) = slen str0) as Hl
    by (unfold llen, slen; by rewrite length_map, length_bytes).
  unfold string_plugin.handleSetRange. simpl. unfold arg. simpl. rewrite Htok. simpl.
  handler_steps.
  replace (offset >=? slen str0) with false by lia.
  replace (offset <? 0) with false by lia.
  rewrite (Hsplit _ Hstr), (Hsplit _ Hnew). unfold sliceList. rewrite Hl.
  destruct (offset =? 0) eqn:H0; [|destruct (offset =? wrap64 (slen str0 - 1)) eqn:Hlast].
  - assert (offset = 0) as -> by lia.
    replace ((0 <=? 1) && (1 <=? slen str0) && (slen str0 <=? slen str0)) with true by lia.
    simpl. unfold bind, KeyLock, SetValue, ret. simpl.
    rewrite take_ge by (rewrite length_drop, length_map, length_bytes; unfold slen; lia).
    rewrite skipn_map, Join_singletons. change (Z.to_nat 1) with 1%nat.
    assert (newStr +:+ string_of_list_ascii (drop 1 (bytes str0)) = replaceAt str0 0 newStr) as ->.
    { unfold replaceAt. simpl. rewrite <- (string_of_bytes newStr) at 1.
      by rewrite <- string_of_list_app. }
    by rewrite Hrlen.
  - rewrite wrap64_small in Hlast by (unfold slen in *; lia).
    assert (offset = slen str0 - 1) as Ho by lia.
    replace ((0 <=? 0) && (0 <=? slen str0 - 1) && (slen str0 - 1 <=? slen str0))
      with true by lia.
    simpl. unfold bind, KeyLock, SetValue, ret. simpl.
    change (Z.to_nat 0) with 0%nat. rewrite drop_0.
    rewrite Z.sub_0_r, firstn_map, Join_singletons.
    assert (string_of_list_ascii (take (Z.to_nat (slen str0 - 1)) (bytes str0)) +:+ newStr =
            replaceAt str0 offset newStr) as ->.
    { unfold replaceAt. rewrite Ho.
      rewrite (drop_ge (bytes str0)) by (rewrite length_bytes; unfold slen; lia).
      rewrite app_nil_r, string_of_list_app. by rewrite string_of_bytes. }
    by rewrite Hrlen.
  - rewrite wrap64_small in Hlast by (unfold slen in *; lia).
    rewrite wrap64_small by lia.
    replace ((0 <=? 0) && (0 <=? offset) && (offset <=? slen str0)) with true by lia.
    replace ((0 <=? offset + 1) && (offset + 1 <=? slen str0) && (slen str0 <=? slen str0))
      with true by lia.
    simpl. unfold bind, KeyLock, SetValue, ret. simpl.
    change (Z.to_nat 0) with 0%nat. rewrite drop_0, Z.sub_0_r.
    rewrite (take_ge (drop _ _)) by (rewrite length_drop, length_map, length_bytes; unfold slen in *; lia).
    rewrite firstn_map, skipn_map, <- !map_app, Join_singletons.
    replace (Z.to_nat (offset + 1)) with (Z.to_nat offset + 1)%nat by lia.
    fold (replaceAt str0 offset newStr). by rewrite Hrlen.
Qed.

End string_more.

(** The rune conversions and [Split] of the reference implementation are
    the byte-wise ones. *)
Lemma reference_runesOnASCII : runesOnASCII (H := reference.externals).
Proof.
  intros s _. split; [reflexivity|].
  unfold runesString, codes. simpl. unfold reference.runesString.
  rewrite map_map.
  rewrite (map_ext _ id); [by rewrite map_id; apply string_of_list_ascii_of_string|].
  intros b. rewrite Nat2Z.id. apply ascii_nat_embedding.
Qed.

Lemma reference_splitOnASCII : splitOnASCII (H := reference.externals).
Proof. intros s _. reflexivity. Qed.

Ltac ascii_bytes := unfold isASCII; simpl; repeat (constructor; [vm_compute; lia|]); constructor.

(** SETRANGE k 1 ipp on a keyspace that also holds the key j leaves j as it
    is. *)
Lemma str_commands_change_only_write_keys_witness :
  exists c, str.getCommand (H := reference.externals) "setrange" = Some c /\
    snd (str.HandlerFunc c ["SETRANGE"; "k"; "1"; "ipp"] twoKeysStore) !! "j" =
    twoKeysStore !! "j".
Proof.
  eexists. split; [reflexivity|].
  match goal with
  | |- snd (str.HandlerFunc ?c _ _) !! _ = _ =>
      destruct (str_commands_change_only_write_keys (H := reference.externals) c
                  ["SETRANGE"; "k"; "1"; "ipp"] twoKeysStore
                  (proj2 (elem_of_cons _ _ _) (or_introl eq_refl)))
        as [Hframe _]
  end.
  apply (Hframe (mkKeys [] [] ["k"]) "j" eq_refl).
  simpl. apply not_elem_of_cons. split; [discriminate|apply not_elem_of_nil].
Defined.


(** SETRANGE k 0 abc on the empty keyspace stores "abc" and replies 3. *)
Lemma setrange_create_append_prepend_witness :
  str.handleSetRange (H := reference.externals) ["SETRANGE"; "k"; "0"; "abc"] emptyStore =
  (Ok (":3" +:+ CRLF), <["k" := VString "abc"]> emptyStore).
Proof.
  exact (proj1 (proj1 (setrange_create_append_prepend (H := reference.externals)
                         emptyStore "SETRANGE" "STRLEN" "k" "0" "abc" 0 eq_refl) eq_refl)).
Defined.

(** SETRANGE k 3 pful on "hello" stores "helpful" and replies 7. *)
Lemma setrange_overwrites_from_offset_witness :
  str.handleSetRange (H := reference.externals) ["SETRANGE"; "k"; "3"; "pful"] helloStore =
  (Ok (":7" +:+ CRLF), <["k" := VString "helpful"]> helloStore).
Proof.
  refine (proj1 (setrange_overwrites_from_offset (H := reference.externals)
                   helloStore "SETRANGE" "k" "3" "pful" 3 "hello"
                   reference_runesOnASCII _ _ _ eq_refl eq_refl _)).
  - ascii_bytes.
  - ascii_bytes.
  - vm_compute. reflexivity.
  - vm_compute. split; [discriminate|reflexivity].
Defined.

(** SETRANGE k 1 ipp of the string plugin on "hello" stores "hippllo": only
    the "e" is replaced. *)
Lemma plugin_setrange_replaces_one_character_witness :
  string_plugin.handleSetRange (H := reference.externals)
    ["SETRANGE"; "k"; "1"; "ipp"] helloStore =
  (Ok (":7" +:+ CRLF +:+ LF), <["k" := VString "hippllo"]> helloStore).
Proof.
  refine (proj1 (plugin_setrange_replaces_one_character (H := reference.externals)
                   helloStore "SETRANGE" "k" "1" "ipp" 1 "hello"
                   reference_splitOnASCII _ _ _ eq_refl eq_refl _)).
  - ascii_bytes.
  - ascii_bytes.
  - vm_compute. reflexivity.
  - vm_compute. split; [discriminate|reflexivity].
Defined.

(** ** The list commands *)

Section list_more.
Context `{Externals}.

Lemma handleLLen_readonly (cmd : list string) (st : Store) :
  snd (list_plugin.handleLLen cmd st) = st.
Proof. unfold list_plugin.handleLLen. by frame_by_cases. Qed.

Lemma handleLIndex_readonly (cmd : list string) (st : Store) :
  snd (list_plugin.handleLIndex cmd st) = st.
Proof. unfold list_plugin.handleLIndex. by frame_by_cases. Qed.

Lemma handleLRange_readonly (cmd : list string) (st : Store) :
  snd (list_plugin.handleLRange cmd st) = st.
Proof. unfold list_plugin.handleLRange. by frame_by_cases. Qed.

Lemma handleLSet_frame (cmd : list string) (st : Store) :
  onlyKey (arg cmd 1) st (snd (list_plugin.handleLSet cmd st)).
Proof. unfold list_plugin.handleLSet. by frame_by_cases. Qed.

Lemma handleLTrim_frame (cmd : list string) (st : Store) :
  onlyKey (arg cmd 1) st (snd (list_plugin.handleLTrim cmd st)).
Proof. unfold list_plugin.handleLTrim. by frame_by_cases. Qed.

Lemma handleLRem_frame (cmd : list string) (st : Store) :
  onlyKey (arg cmd 1) st (snd (list_plugin.handleLRem cmd st)).
Proof. unfold list_plugin.handleLRem. by frame_by_cases. Qed.

Lemma handleLPush_frame (cmd : list string) (st : Store) :
  onlyKey (arg cmd 1) st (snd (list_plugin.handleLPush cmd st)).
Proof. unfold list_plugin.handleLPush. by frame_by_cases. Qed.

Lemma handleRPush_frame (cmd : list string) (st : Store) :
  onlyKey (arg cmd 1) st (snd (list_plugin.handleRPush cmd st)).
Proof. unfold list_plugin.handleRPush. by frame_by_cases. Qed.

Lemma handlePop_frame (cmd : list string) (st : Store) :
  onlyKey (arg cmd 1) st (snd (list_plugin.handlePop cmd st)).
Proof. unfold list_plugin.handlePop. by frame_by_cases. Qed.


Lemma handleLMove_frame (cmd : list string) (st : Store) (k : string) :
  k <> arg cmd 1 -> k <> arg cmd 2 ->
  snd (list_plugin.handleLMove cmd st) !! k = st !! k.
Proof.
  intros H1 H2. unfold list_plugin.handleLMove.
  unfold KeyLock, KeyUnlock.
  unfold bind, lift, ret, fail, panic, KeyExists, GetValue, SetValue.
  repeat case_match; simplify_eq/=; by rewrite ?lookup_insert_ne.
Qed.

Lemma HandleCommand_frame (cmd : list string) (st : Store) (k : string) :
  k <> arg cmd 1 ->
  (ToLower (arg cmd 0) = "lmove" -> k <> arg cmd 2) ->
  snd (list_plugin.HandleCommand cmd st) !! k = st !! k.
Proof.
  intros H1 H2. unfold list_plugin.HandleCommand.
  destruct cmd as [|word rest]; [done|].
  change (arg (word :: rest) 0) with word in H2.
  repeat (case_match; [first
    [ by rewrite ?handleLLen_readonly, ?handleLIndex_readonly, ?handleLRange_readonly
    | by apply handleLSet_frame
    | by apply handleLTrim_frame
    | by apply handleLRem_frame
    | by apply handleLPush_frame
    | by apply handleRPush_frame
    | by apply handlePop_frame
    | apply handleLMove_frame; [done|]; apply H2; by apply String.eqb_eq ] |]).
  done.
Qed.

Lemma HandleCommand_readonly (cmd : list string) (st : Store) :
  ToLower (arg cmd 0) ∈ ["llen"; "lindex"; "lrange"] ->
  snd (list_plugin.HandleCommand cmd st) = st.
Proof.
  intros Hw. unfold list_plugin.HandleCommand.
  destruct cmd as [|word rest]; [done|].
  change (arg (word :: rest) 0) with word in Hw.
  repeat (apply elem_of_cons in Hw as [->|Hw]); [| | |by apply not_elem_of_nil in Hw]; simpl.
  - apply handleLLen_readonly.
  - apply handleLIndex_readonly.
  - apply handleLRange_readonly.
Qed.

(** X6.  A command of the list plugin changes no key other than those
    its registered key extractor names: whenever the extractor of the
    command word accepts the command array, every key it does not return
    holds the same value after [HandleCommand], for every keyspace and also
    when the handler answers with an error or panics.  LLEN, LINDEX and
    LRANGE leave the whole keyspace unchanged. *)
Theorem list_commands_change_only_extracted_keys (c : list_plugin.Command)
    (cmd : list string) (st : Store) (keys : list string) :
  c ∈ list_plugin.commands list_plugin.NewModule ->
  ToLower (arg cmd 0) = list_plugin.CommandName c ->
  list_plugin.KeyExtractionFunc c cmd = Ok keys ->
  (forall k, k ∉ keys -> snd (list_plugin.HandleCommand cmd st) !! k = st !! k) /\
  (list_plugin.CommandName c ∈ ["llen"; "lindex"; "lrange"] ->
   snd (list_plugin.HandleCommand cmd st) = st).
Proof.
  intros Hc Hword Hkeys. split.
  - intros k Hk. apply HandleCommand_frame.
    + intros ->. apply Hk. clear Hk Hword.
      unfold list_plugin.NewModule in Hc. simpl in Hc.
      repeat (apply elem_of_cons in Hc as [->|Hc]);
        try (by apply not_elem_of_nil in Hc);
        simpl in Hkeys;
        unfold list_plugin.keyAt1, list_plugin.keysAt12 in Hkeys;
        case_match; simplify_eq; apply elem_of_cons; by left.
    + intros Hmove ->. apply Hk. rewrite Hmove in Hword. clear Hk.
      unfold list_plugin.NewModule in Hc. simpl in Hc.
      repeat (apply elem_of_cons in Hc as [->|Hc]);
        try (by apply not_elem_of_nil in Hc);
        simpl in Hword; try discriminate.
      simpl in Hkeys. unfold list_plugin.keysAt12 in Hkeys.
      case_match; simplify_eq.
      apply elem_of_cons; right. apply elem_of_cons; by left.
  - intros Hro. apply HandleCommand_readonly. by rewrite Hword.
Qed.


Lemma handleLLen_list (st : Store) (c key : string) (l : list Scalar) :
  st !! key = Some (VList l) ->
  list_plugin.handleLLen [c; key] st = (Ok (":" +:+ fmtD (llen l) +:+ CRLF +:+ LF), st).
Proof.
  intros Hkey. unfold list_plugin.handleLLen. simpl. unfold arg. simpl. by handler_steps.
Qed.

(** X7.  Pushing onto an existing list: RPUSH stores the list followed by
    the new elements, LPUSH stores the new elements, in the order of the
    command, followed by the list; both reply OK, and an LLEN that follows
    replies the old length plus the number of elements pushed. *)
Theorem push_extends_list (st : Store) (word c key elem : string) (elems : list string)
    (l : list Scalar) :
  st !! key = Some (VList l) ->
  let new := map AdaptType (elem :: elems) in
  let pushedRight := <[key := VList (l ++ new)]> st in
  let pushedLeft := <[key := VList (new ++ l)]> st in
  list_plugin.handleRPush (word :: key :: elem :: elems) st = (Ok list_plugin.OK, pushedRight) /\
  list_plugin.handleLPush (word :: key :: elem :: elems) st = (Ok list_plugin.OK, pushedLeft) /\
  list_plugin.handleLLen [c; key] pushedRight =
    (Ok (":" +:+ fmtD (llen l + 1 + llen elems) +:+ CRLF +:+ LF), pushedRight) /\
  list_plugin.handleLLen [c; key] pushedLeft =
    (Ok (":" +:+ fmtD (llen l + 1 + llen elems) +:+ CRLF +:+ LF), pushedLeft).
Proof.
  intros Hkey new pushedRight pushedLeft.
  assert (llen (l ++ new) = llen l + 1 + llen elems) as Hr.
  { unfold llen, new. rewrite length_app. simpl. rewrite length_map. lia. }
  assert (llen (new ++ l) = llen l + 1 + llen elems) as Hl.
  { unfold llen, new. rewrite length_app. simpl. rewrite length_map. lia. }
  repeat split.
  - unfold list_plugin.handleRPush. simpl. unfold arg. simpl. by handler_steps.
  - unfold list_plugin.handleLPush. simpl. unfold arg. simpl. by handler_steps.
  - rewrite <- Hr. apply handleLLen_list, lookup_insert_eq.
  - rewrite <- Hl. apply handleLLen_list, lookup_insert_eq.
Qed.

(** X8.  Pushing onto an absent key: LPUSH and RPUSH create the list of the
    new elements, while the command words LPUSHX and RPUSHX, in any letter
    case, answer with an error and leave the keyspace without the key. *)
Theorem push_on_absent_key (st : Store) (word key elem : string) (elems : list string) :
  st !! key = None ->
  let created := <[key := VList (map AdaptType (elem :: elems))]> st in
  (ToLower word <> "rpushx" ->
   list_plugin.handleRPush (word :: key :: elem :: elems) st = (Ok list_plugin.OK, created)) /\
  (ToLower word = "rpushx" ->
   list_plugin.handleRPush (word :: key :: elem :: elems) st =
     (Err (word +:+ " command on non-list item"), st)) /\
  (ToLower word <> "lpushx" ->
   list_plugin.handleLPush (word :: key :: elem :: elems) st = (Ok list_plugin.OK, created)) /\
  (ToLower word = "lpushx" ->
   list_plugin.handleLPush (word :: key :: elem :: elems) st =
     (Err (word +:+ " command on non-list item"), st)).
Proof.
  intros Hkey created. repeat split.
  - intros Hw. apply String.eqb_neq in Hw.
    unfold list_plugin.handleRPush. simpl. unfold arg. simpl. handler_steps. rewrite Hw.
    unfold bind, list_plugin.ignore, CreateKeyAndLock, SetValue, GetValue, ret.
    rewrite Hkey. simpl. rewrite lookup_insert_eq. simpl.
    unfold created. by rewrite !insert_insert_eq.
  - intros Hw. apply String.eqb_eq in Hw.
    unfold list_plugin.handleRPush. simpl. unfold arg. simpl. handler_steps. by rewrite Hw.
  - intros Hw. apply String.eqb_neq in Hw.
    unfold list_plugin.handleLPush. simpl. unfold arg. simpl. handler_steps. rewrite Hw.
    unfold bind, list_plugin.ignore, CreateKeyAndLock, SetValue, GetValue, ret.
    rewrite Hkey. simpl. rewrite lookup_insert_eq. simpl.
    unfold created. rewrite app_nil_r. by rewrite !insert_insert_eq.
  - intros Hw. apply String.eqb_eq in Hw.
    unfold list_plugin.handleLPush. simpl. unfold arg. simpl. handler_steps. by rewrite Hw.
Qed.


Lemma llen_nonneg {A} (l : list A) : 0 <= llen l.
Proof. unfold llen. lia. Qed.

Lemma llen_cons {A} (x : A) (l : list A) : llen (x :: l) = llen l + 1.
Proof. unfold llen. simpl length. lia. Qed.

Lemma llen_app {A} (l1 l2 : list A) : llen (l1 ++ l2) = llen l1 + llen l2.
Proof. unfold llen. rewrite length_app. lia. Qed.

Lemma to_nat_llen {A} (l : list A) : Z.to_nat (llen l) = length l.
Proof. unfold llen. lia. Qed.

Lemma sliceList_tail (x : Scalar) (l : list Scalar) :
  sliceList (x :: l) 1 (llen (x :: l)) = Ok l.
Proof.
  unfold sliceList. rewrite llen_cons. pose proof (llen_nonneg l).
  replace ((0 <=? 1) && (1 <=? llen l + 1) && (llen l + 1 <=? llen l + 1)) with true by lia.
  change (Z.to_nat 1) with 1%nat. simpl drop. rewrite drop_0.
  replace (Z.to_nat (llen l + 1 - 1)) with (length l)
    by (rewrite <- (to_nat_llen l); lia).
  by rewrite take_ge.
Qed.

Lemma sliceList_front (x : Scalar) (l : list Scalar) :
  sliceList (l ++ [x]) 0 (llen (l ++ [x]) - 1) = Ok l.
Proof.
  unfold sliceList. rewrite llen_app, llen_cons. pose proof (llen_nonneg l).
  change (llen (@nil Scalar)) with 0.
  replace ((0 <=? 0) && (0 <=? llen l + (0 + 1) - 1) &&
           (llen l + (0 + 1) - 1 <=? llen l + (0 + 1))) with true by lia.
  change (Z.to_nat 0) with 0%nat. rewrite drop_0.
  replace (Z.to_nat (llen l + (0 + 1) - 1 - 0)) with (length l)
    by (rewrite <- (to_nat_llen l); lia).
  by rewrite take_app_length.
Qed.

Lemma indexList_last (x : Scalar) (l : list Scalar) :
  indexList (l ++ [x]) (llen (l ++ [x]) - 1) = Ok x.
Proof.
  rewrite llen_app, llen_cons. change (llen (@nil Scalar)) with 0.
  pose proof (llen_nonneg l).
  apply indexList_lookup; [lia|].
  replace (Z.to_nat (llen l + (0 + 1) - 1)) with (length l)
    by (rewrite <- (to_nat_llen l); lia).
  by rewrite list_lookup_middle.
Qed.

(** X9.  LPOP takes the first element of the list and RPOP the last: the
    reply is the simple string of the element and the rest of the list is
    stored back at the key.  The command word decides in any letter case,
    and every word other than RPOP pops from the head. *)
Theorem pop_takes_from_either_end (st : Store) (word key : string) (x : Scalar)
    (l : list Scalar) :
  (st !! key = Some (VList (x :: l)) -> ToLower word <> "rpop" ->
   list_plugin.handlePop [word; key] st =
     (Ok ("+" +:+ fmtV x +:+ CRLF +:+ LF), <[key := VList l]> st)) /\
  (st !! key = Some (VList (l ++ [x])) -> ToLower word = "rpop" ->
   list_plugin.handlePop [word; key] st =
     (Ok ("+" +:+ fmtV x +:+ CRLF +:+ LF), <[key := VList l]> st)).
Proof.
  split.
  - intros Hkey Hw. apply String.eqb_neq in Hw.
    unfold list_plugin.handlePop. simpl. unfold arg. simpl. handler_steps. rewrite Hw.
    rewrite sliceList_tail. by handler_steps.
  - intros Hkey Hw. apply String.eqb_eq in Hw.
    unfold list_plugin.handlePop. simpl. unfold arg. simpl. handler_steps. rewrite Hw.
    rewrite sliceList_front. handler_steps. rewrite indexList_last. by handler_steps.
Qed.

(** X10.  Popping the only element of a list leaves the empty list at the
    key, and a pop from an empty list panics on the slice expression rather
    than answering; a pop from an absent key answers with an error. *)
Theorem pop_until_empty_then_panics (st : Store) (word word' key : string) (x : Scalar) :
  (st !! key = Some (VList [x]) ->
   list_plugin.handlePop [word; key] st =
     (Ok ("+" +:+ fmtV x +:+ CRLF +:+ LF), <[key := VList []]> st) /\
   fst (list_plugin.handlePop [word'; key] (<[key := VList []]> st)) = Panic) /\
  (st !! key = Some (VList []) -> fst (list_plugin.handlePop [word; key] st) = Panic) /\
  (st !! key = None ->
   list_plugin.handlePop [word; key] st =
     (Err (ToUpper word +:+ " command on non-list item"), st)).
Proof.
  assert (forall w st0, st0 !! key = Some (VList []) ->
            fst (list_plugin.handlePop [w; key] st0) = Panic) as Hempty.
  { intros w st0 Hkey.
    unfold list_plugin.handlePop. simpl. unfold arg. simpl. handler_steps.
    by destruct (String.eqb (ToLower w) "rpop"). }
  split; [|split].
  - intros Hkey. split; [|apply Hempty, lookup_insert_eq].
    unfold list_plugin.handlePop. simpl. unfold arg. simpl. handler_steps.
    by destruct (String.eqb (ToLower word) "rpop").
  - apply Hempty.
  - intros Hkey.
    unfold list_plugin.handlePop. simpl. unfold arg. simpl. by handler_steps.
Qed.


(** X11.  LSET followed by LINDEX at the same index: for an index in
    [0, len) LSET stores the typed new value at that index, keeping the
    length of the list, and LINDEX then replies with that value; for every
    other index LSET answers with an error and changes nothing. *)
Theorem lset_then_lindex (st : Store) (c c' key tok value : string) (index : Z)
    (l : list Scalar) :
  st !! key = Some (VList l) ->
  AdaptType tok = SInt index ->
  (0 <= index < llen l ->
   let updated := <[Z.to_nat index := AdaptType value]> l in
   let st' := <[key := VList updated]> st in
   list_plugin.handleLSet [c; key; tok; value] st = (Ok list_plugin.OK, st') /\
   llen updated = llen l /\
   list_plugin.handleLIndex [c'; key; tok] st' =
     (Ok ("+" +:+ fmtS (AdaptType value) +:+ CRLF +:+ LF), st')) /\
  (index < 0 \/ llen l <= index ->
   list_plugin.handleLSet [c; key; tok; value] st =
     (Err "index must be within range", st)).
Proof.
  intros Hkey Htok. pose proof (llen_nonneg l) as Hl. split.
  - intros Hin updated st'.
    assert (llen updated = llen l) as Hlen by (unfold llen, updated; by rewrite length_insert).
    split; [|split; [exact Hlen|]].
    + unfold list_plugin.handleLSet. simpl. unfold arg. simpl. handler_steps.
      rewrite Htok. simpl.
      replace ((index >=? 0) && (index <? llen l)) with true by lia. reflexivity.
    + assert (st' !! key = Some (VList updated)) as Hkey' by apply lookup_insert_eq.
      unfold list_plugin.handleLIndex. simpl. unfold arg. simpl. rewrite Htok. simpl.
      handler_steps. rewrite Hlen.
      replace ((index >=? 0) && (index <? llen l)) with true by lia. simpl.
      rewrite (indexList_lookup updated index (AdaptType value)); [done|lia|].
      apply list_lookup_insert_eq. rewrite <- (to_nat_llen l). lia.
  - intros Hout.
    unfold list_plugin.handleLSet. simpl. unfold arg. simpl. handler_steps.
    rewrite Htok. simpl.
    replace ((index >=? 0) && (index <? llen l)) with false by lia. reflexivity.
Qed.

(** X12.  LTRIM keeps the half-open range from start up to, not
    including, end: the element at index end is dropped and start = end
    empties the list.  The end -1 and every end above the length keep the
    list from start on.  An end below start other than -1 is an error. *)
Theorem ltrim_keeps_half_open_range (st : Store) (c key startTok endTok : string)
    (start end_ : Z) (l : list Scalar) :
  st !! key = Some (VList l) ->
  AdaptType startTok = SInt start -> AdaptType endTok = SInt end_ ->
  (0 <= start < llen l -> start <= end_ <= llen l ->
   list_plugin.handleLTrim [c; key; startTok; endTok] st =
     (Ok list_plugin.OK,
      <[key := VList (take (Z.to_nat (end_ - start)) (drop (Z.to_nat start) l))]> st)) /\
  (0 <= start < llen l -> end_ = -1 \/ llen l < end_ ->
   list_plugin.handleLTrim [c; key; startTok; endTok] st =
     (Ok list_plugin.OK, <[key := VList (drop (Z.to_nat start) l)]> st)) /\
  (end_ < start -> end_ <> -1 ->
   list_plugin.handleLTrim [c; key; startTok; endTok] st =
     (Err "end index must be greater than start index or -1", st)).
Proof.
  intros Hkey Hs He. pose proof (llen_nonneg l) as Hl. split; [|split].
  - intros Hin Hend.
    unfold list_plugin.handleLTrim. simpl. unfold arg. simpl. rewrite Hs, He. simpl.
    replace ((end_ <? start) && negb (end_ =? -1)) with false by lia.
    handler_steps.
    replace ((start >=? 0) && (start <? llen l)) with true by lia. simpl.
    replace ((end_ =? -1) || (end_ >? llen l)) with false by lia.
    unfold sliceList.
    replace ((0 <=? start) && (start <=? end_) && (end_ <=? llen l)) with true by lia.
    reflexivity.
  - intros Hin Hend.
    unfold list_plugin.handleLTrim. simpl. unfold arg. simpl. rewrite Hs, He. simpl.
    replace ((end_ <? start) && negb (end_ =? -1)) with false by lia.
    handler_steps.
    replace ((start >=? 0) && (start <? llen l)) with true by lia. simpl.
    replace ((end_ =? -1) || (end_ >? llen l)) with true by lia.
    unfold sliceList.
    replace ((0 <=? start) && (start <=? llen l) && (llen l <=? llen l)) with true by lia.
    rewrite take_ge
      by (rewrite length_drop, <- (to_nat_llen l); lia).
    reflexivity.
  - intros Hlt Hne.
    unfold list_plugin.handleLTrim. simpl. unfold arg. simpl. rewrite Hs, He. simpl.
    replace ((end_ <? start) && negb (end_ =? -1)) with true by lia. reflexivity.
Qed.


Lemma sliceList_head (x : Scalar) (l : list Scalar) : sliceList (x :: l) 0 1 = Ok [x].
Proof.
  unfold sliceList. rewrite llen_cons. pose proof (llen_nonneg l).
  replace ((0 <=? 0) && (0 <=? 1) && (1 <=? llen l + 1)) with true by lia.
  reflexivity.
Qed.

Lemma sliceList_last (x : Scalar) (l : list Scalar) :
  sliceList (l ++ [x]) (llen (l ++ [x]) - 1) (llen (l ++ [x])) = Ok [x].
Proof.
  unfold sliceList. rewrite llen_app, llen_cons. change (llen (@nil Scalar)) with 0.
  pose proof (llen_nonneg l).
  replace ((0 <=? llen l + (0 + 1) - 1) && (llen l + (0 + 1) - 1 <=? llen l + (0 + 1)) &&
           (llen l + (0 + 1) <=? llen l + (0 + 1))) with true by lia.
  replace (Z.to_nat (llen l + (0 + 1) - 1)) with (length l)
    by (rewrite <- (to_nat_llen l); lia).
  rewrite drop_app_length.
  replace (Z.to_nat (llen l + (0 + 1) - (llen l + (0 + 1) - 1))) with 1%nat by lia.
  reflexivity.
Qed.

(** X13.  LMOVE between two different keys that hold lists moves exactly
    one element: the first (LEFT) or last (RIGHT) element of the source
    leaves it and becomes the first (LEFT) or last (RIGHT) element of the
    destination; the directions are read in any letter case and the reply is
    OK.  On an empty source the handler panics. *)
Theorem lmove_moves_one_element (st : Store) (c src dst fromTok toTok : string)
    (x : Scalar) (source destination : list Scalar) :
  src <> dst ->
  st !! dst = Some (VList destination) ->
  ToLower toTok = "left" \/ ToLower toTok = "right" ->
  let arrived := if String.eqb (ToLower toTok) "left"
                 then x :: destination else destination ++ [x] in
  (ToLower fromTok = "left" -> st !! src = Some (VList (x :: source)) ->
   list_plugin.handleLMove [c; src; dst; fromTok; toTok] st =
     (Ok list_plugin.OK, <[dst := VList arrived]> (<[src := VList source]> st))) /\
  (ToLower fromTok = "right" -> st !! src = Some (VList (source ++ [x])) ->
   list_plugin.handleLMove [c; src; dst; fromTok; toTok] st =
     (Ok list_plugin.OK, <[dst := VList arrived]> (<[src := VList source]> st))) /\
  (ToLower fromTok = "left" \/ ToLower fromTok = "right" ->
   st !! src = Some (VList []) ->
   fst (list_plugin.handleLMove [c; src; dst; fromTok; toTok] st) = Panic).
Proof.
  intros Hne Hdst Hto arrived. split; [|split].
  - intros Hfrom Hsrc.
    unfold list_plugin.handleLMove. simpl. unfold arg. simpl. rewrite Hfrom.
    unfold arrived.
    destruct Hto as [-> | ->]; simpl; handler_steps;
      rewrite sliceList_tail; handler_steps;
      unfold bind, lift, SetValue, KeyUnlock, ret; simpl;
      rewrite ?sliceList_head, ?(indexList_lookup (x :: source) 0 x) by (lia || done);
      reflexivity.
  - intros Hfrom Hsrc.
    unfold list_plugin.handleLMove. simpl. unfold arg. simpl. rewrite Hfrom.
    unfold arrived.
    destruct Hto as [-> | ->]; simpl; handler_steps;
      rewrite sliceList_front; handler_steps;
      unfold bind, lift, SetValue, KeyUnlock, ret; simpl;
      rewrite ?sliceList_last, ?indexList_last; reflexivity.
  - intros Hfrom Hsrc.
    unfold list_plugin.handleLMove. simpl. unfold arg. simpl.
    destruct Hfrom as [-> | ->]; destruct Hto as [-> | ->]; simpl; handler_steps;
      reflexivity.
Qed.


(** The reply loop of LRANGE over descending indices appends the bulk
    strings of the elements from the highest index down. *)
Lemma appendElems_descending (l : list Scalar) (n : nat) (start : Z) (acc : string) :
  Z.of_nat n <= start + 1 -> start < llen l ->
  list_plugin.appendElems l (map (fun k => start - Z.of_nat k) (seq 0 n)) acc =
  Ok (acc +:+ bulkAll (rev (take n (drop (Z.to_nat (start + 1) - n) l)))).
Proof.
  revert start acc. induction n as [|n IH]; intros start acc Hn Hlt.
  - simpl. by rewrite append_empty_r.
  - rewrite <- cons_seq, <- seq_shift, map_cons, map_map. simpl list_plugin.appendElems.
    destruct (lookup_lt_is_Some_2 l (Z.to_nat start)) as [x Hx].
    { rewrite <- (to_nat_llen l). lia. }
    replace (start - Z.of_nat 0) with start by lia.
    rewrite (indexList_lookup l start x) by (done || lia).
    erewrite map_ext; [rewrite (IH (start - 1))|]; [|lia|lia|intros; simpl; lia].
    f_equal. rewrite append_assoc_string. f_equal.
    replace (Z.to_nat (start - 1 + 1)) with (Z.to_nat start) by lia.
    replace (Z.to_nat (start + 1) - S n)%nat with (Z.to_nat start - n)%nat by lia.
    rewrite (take_S_r _ n x).
    + rewrite rev_app_distr. reflexivity.
    + rewrite lookup_drop. rewrite <- Hx. f_equal. lia.
Qed.

(** X14.  LRANGE with both indices inside the list: when start is below
    end the reply is the array of the elements from start through end, both
    included; when start is above end it is the array of the elements from
    start down through end, in reversed order; equal indices are answered with
    an error, so a range of one element cannot be asked for this way.  The
    keyspace is unchanged. *)
Theorem lrange_both_directions (st : Store) (c key startTok endTok : string)
    (start end_ : Z) (l : list Scalar) :
  st !! key = Some (VList l) ->
  AdaptType startTok = SInt start -> AdaptType endTok = SInt end_ ->
  0 <= start < llen l -> 0 <= end_ < llen l ->
  (start < end_ ->
   list_plugin.handleLRange [c; key; startTok; endTok] st =
     (Ok ("*" +:+ fmtD (end_ - start + 1) +:+ CRLF +:+
          bulkAll (take (Z.to_nat (end_ - start + 1)) (drop (Z.to_nat start) l)) +:+ LF),
      st)) /\
  (end_ < start ->
   list_plugin.handleLRange [c; key; startTok; endTok] st =
     (Ok ("*" +:+ fmtD (start - end_ + 1) +:+ CRLF +:+
          bulkAll (rev (take (Z.to_nat (start - end_ + 1)) (drop (Z.to_nat end_) l))) +:+ LF),
      st)) /\
  (start = end_ ->
   list_plugin.handleLRange [c; key; startTok; endTok] st =
     (Err "start and end indices cannot be equal", st)).
Proof.
  intros Hkey Hs He Hsin Hein.
  assert (list_plugin.handleLRange [c; key; startTok; endTok] st =
          if start =? end_ then (Err "start and end indices cannot be equal", st)
          else match list_plugin.appendElems l (list_plugin.rangeIndices start end_)
                       ("*" +:+ fmtD (Z.abs (start - end_) + 1) +:+ CRLF) with
               | Ok body => (Ok (body +:+ LF), st)
               | Err e => (Err e, st)
               | Panic => (Panic, st)
               end) as Hshape.
  { unfold list_plugin.handleLRange. simpl. unfold arg. simpl. rewrite Hs, He. simpl.
    handler_steps.
    replace ((start >=? 0) && (start <? llen l)) with true by lia.
    replace ((end_ >=? 0) && (end_ <? llen l)) with true by lia. simpl.
    replace (end_ =? -1) with false by lia.
    destruct (start =? end_); [done|].
    unfold bind, lift, ret.
    by destruct (list_plugin.appendElems _ _ _). }
  rewrite Hshape. split; [|split].
  - intros Hlt. replace (start =? end_) with false by lia.
    unfold list_plugin.rangeIndices. replace (start <? end_) with true by lia.
    rewrite appendElems_consecutive by lia.
    replace (Z.abs (start - end_) + 1) with (end_ - start + 1) by lia.
    by rewrite !append_assoc_string.
  - intros Hgt. replace (start =? end_) with false by lia.
    unfold list_plugin.rangeIndices. replace (start <? end_) with false by lia.
    rewrite appendElems_descending by lia.
    replace (Z.abs (start - end_) + 1) with (start - end_ + 1) by lia.
    replace (Z.to_nat (start + 1) - Z.to_nat (start - end_ + 1))%nat
      with (Z.to_nat end_) by lia.
    by rewrite !append_assoc_string.
  - intros ->. by rewrite Z.eqb_refl.
Qed.

End list_more.

(** RPUSH l x on a keyspace that also holds the key k leaves k as it is. *)
Lemma list_commands_change_only_extracted_keys_witness :
  snd (list_plugin.HandleCommand (H := reference.externals)
         ["RPUSH"; "l"; "x"] listAndStringStore) !! "k" =
  listAndStringStore !! "k".
Proof.
  refine (proj1 (list_commands_change_only_extracted_keys (H := reference.externals)
                   _ ["RPUSH"; "l"; "x"] listAndStringStore ["l"]
                   (list_elem_of_lookup_2 (list_plugin.commands list_plugin.NewModule) 11%nat _ eq_refl) eq_refl eq_refl) "k" _).
  apply not_elem_of_cons. split; [discriminate|apply not_elem_of_nil].
Defined.

(** RPUSH l c on the list a, b, a, a. *)
Lemma push_extends_list_witness :
  list_plugin.handleRPush (H := reference.externals) ["RPUSH"; "l"; "c"] abaaStore =
  (Ok list_plugin.OK, <["l" := VList (abaaList ++ [SStr "c"])]> abaaStore).
Proof.
  exact (proj1 (push_extends_list (H := reference.externals)
                  abaaStore "RPUSH" "LLEN" "l" "c" [] abaaList eq_refl)).
Defined.

(** LPUSHX l a on the empty keyspace. *)
Lemma push_on_absent_key_witness :
  list_plugin.handleLPush (H := reference.externals) ["LPUSHX"; "l"; "a"] emptyStore =
  (Err "LPUSHX command on non-list item", emptyStore).
Proof.
  exact (proj2 (proj2 (proj2 (push_on_absent_key (H := reference.externals)
                                emptyStore "LPUSHX" "l" "a" [] eq_refl))) eq_refl).
Defined.

(** RPOP l on the list a, b, a, a. *)
Lemma pop_takes_from_either_end_witness :
  list_plugin.handlePop (H := reference.externals) ["RPOP"; "l"] abaaStore =
  (Ok ("+a" +:+ CRLF +:+ LF), <["l" := VList [SStr "a"; SStr "b"; SStr "a"]]> abaaStore).
Proof.
  exact (proj2 (pop_takes_from_either_end (H := reference.externals)
                  abaaStore "RPOP" "l" (SStr "a") [SStr "a"; SStr "b"; SStr "a"])
               eq_refl eq_refl).
Defined.

(** LPOP l twice on the list a: the second pop panics. *)
Lemma pop_until_empty_then_panics_witness :
  fst (list_plugin.handlePop (H := reference.externals) ["LPOP"; "l"]
         (<["l" := VList []]> oneElemStore)) = Panic.
Proof.
  exact (proj2 (proj1 (pop_until_empty_then_panics (H := reference.externals)
                         oneElemStore "LPOP" "LPOP" "l" (SStr "a")) eq_refl)).
Defined.

(** LSET l 1 z on the list a, b, a, a. *)
Lemma lset_then_lindex_witness :
  list_plugin.handleLSet (H := reference.externals) ["LSET"; "l"; "1"; "z"] abaaStore =
  (Ok list_plugin.OK,
   <["l" := VList [SStr "a"; SStr "z"; SStr "a"; SStr "a"]]> abaaStore).
Proof.
  exact (proj1 (proj1 (lset_then_lindex (H := reference.externals)
                         abaaStore "LSET" "LINDEX" "l" "1" "z" 1 abaaList eq_refl eq_refl)
                      ltac:(unfold llen; simpl; lia))).
Defined.

(** LTRIM l 1 3 on the list a, b, a, a keeps b, a. *)
Lemma ltrim_keeps_half_open_range_witness :
  list_plugin.handleLTrim (H := reference.externals) ["LTRIM"; "l"; "1"; "3"] abaaStore =
  (Ok list_plugin.OK, <["l" := VList [SStr "b"; SStr "a"]]> abaaStore).
Proof.
  exact (proj1 (ltrim_keeps_half_open_range (H := reference.externals)
                  abaaStore "LTRIM" "l" "1" "3" 1 3 abaaList eq_refl eq_refl eq_refl)
               ltac:(unfold llen; simpl; lia) ltac:(unfold llen; simpl; lia)).
Defined.

(** LMOVE l m LEFT RIGHT on the lists a, b, a, a and c. *)
Lemma lmove_moves_one_element_witness :
  list_plugin.handleLMove ["LMOVE"; "l"; "m"; "LEFT"; "RIGHT"] twoListsStore =
  (Ok list_plugin.OK,
   <["m" := VList [SStr "c"; SStr "a"]]>
     (<["l" := VList [SStr "b"; SStr "a"; SStr "a"]]> twoListsStore)).
Proof.
  exact (proj1 (lmove_moves_one_element
                  twoListsStore "LMOVE" "l" "m" "LEFT" "RIGHT" (SStr "a")
                  [SStr "b"; SStr "a"; SStr "a"] [SStr "c"]
                  ltac:(discriminate) eq_refl (or_intror eq_refl))
               eq_refl eq_refl).
Defined.

(** LRANGE l 2 1 on the list a, b, a, a replies a, b. *)
Lemma lrange_both_directions_witness :
  list_plugin.handleLRange (H := reference.externals) ["LRANGE"; "l"; "2"; "1"] abaaStore =
  (Ok ("*2" +:+ CRLF +:+ "$1" +:+ CRLF +:+ "a" +:+ CRLF +:+
       "$1" +:+ CRLF +:+ "b" +:+ CRLF +:+ LF), abaaStore).
Proof.
  exact (proj1 (proj2 (lrange_both_directions (H := reference.externals)
                         abaaStore "LRANGE" "l" "2" "1" 2 1 abaaList
                         eq_refl eq_refl eq_refl
                         ltac:(unfold llen; simpl; lia) ltac:(unfold llen; simpl; lia)))
               ltac:(lia)).
Defined.

(** ** The hash commands *)

Lemma setEntries_overwrite (entries : list (string * Scalar)) :
  NoDup entries.*1 ->
  forall (h : gmap string Scalar) (count : Z),
    hash.setEntries false entries h count =
    (count + Z.of_nat (length entries), list_to_map entries ∪ h).
Proof.
  induction entries as [|[field value] rest IH]; intros Hnd h count.
  - simpl. rewrite (left_id_L ∅ (∪)). f_equal. lia.
  - apply NoDup_cons in Hnd as [Hfield Hnd]. cbn [hash.setEntries].
    rewrite IH by done. f_equal; [simpl length; lia|].
    rewrite list_to_map_cons, <- insert_union_l.
    by rewrite insert_union_r by by apply not_elem_of_list_to_map.
Qed.

Lemma union_insert_present (h l : gmap string Scalar) (field : string) (value : Scalar) :
  is_Some (h !! field) -> h ∪ <[field := value]> l = h ∪ l.
Proof.
  intros [x Hx]. apply map_eq. intros k. rewrite !lookup_union.
  destruct (decide (k = field)) as [->|Hne].
  - rewrite Hx, lookup_insert_eq. by destruct (l !! field).
  - by rewrite lookup_insert_ne.
Qed.

Lemma setEntries_absent_only (entries : list (string * Scalar)) :
  NoDup entries.*1 ->
  forall (h : gmap string Scalar) (count : Z),
    snd (hash.setEntries true entries h count) = h ∪ list_to_map entries.
Proof.
  induction entries as [|[field value] rest IH]; intros Hnd h count.
  - simpl. by rewrite (right_id_L ∅ (∪)).
  - apply NoDup_cons in Hnd as [Hfield Hnd]. cbn [hash.setEntries].
    rewrite list_to_map_cons.
    destruct (h !! field) eqn:Hh.
    + rewrite IH by done. symmetry. by apply union_insert_present.
    + rewrite IH by done. rewrite <- insert_union_l. by rewrite insert_union_r.
Qed.

Lemma setEntries_counts_growth (entries : list (string * Scalar)) :
  forall (h : gmap string Scalar) (count : Z),
    fst (hash.setEntries true entries h count) =
    count + (Z.of_nat (size (snd (hash.setEntries true entries h count))) - Z.of_nat (size h)).
Proof.
  induction entries as [|[field value] rest IH]; intros h count.
  - simpl. lia.
  - cbn [hash.setEntries]. destruct (h !! field) eqn:Hh.
    + apply IH.
    + rewrite IH. rewrite (map_size_insert_None field value h) by done. lia.
Qed.

(** One step of a handler: the next keyspace read or pure computation. *)
Ltac step_bind :=
  erewrite bind_ok by (first [ eapply KeyExists_present; eassumption
                             | eapply KeyExists_absent; eassumption
                             | eapply GetValue_present; eassumption
                             | reflexivity ]);
  cbv beta.

Ltac hash_steps := repeat (first [ step_bind | progress cbn [negb hash.asHash] ]).

Section hash_more.
Context `{Externals} `{hash.MapOrder}.

Lemma rangeOver_NoDup (m : gmap string Scalar) : NoDup (hash.rangeOver m).*1.
Proof. rewrite hash.rangeOver_entries. apply NoDup_fst_map_to_list. Qed.

Lemma rangeOver_list_to_map (m : gmap string Scalar) : list_to_map (hash.rangeOver m) = m.
Proof.
  rewrite (list_to_map_proper _ (map_to_list m)).
  - apply list_to_map_to_list.
  - apply rangeOver_NoDup.
  - apply hash.rangeOver_entries.
Qed.

Lemma rangeOver_length (m : gmap string Scalar) : length (hash.rangeOver m) = size m.
Proof. rewrite hash.rangeOver_entries. apply length_map_to_list. Qed.

Lemma even_pairs (word key field value : string) (rest : list string) :
  llen rest mod 2 = 0 ->
  (llen (drop 2 (word :: key :: field :: value :: rest)) mod 2 =? 0) = true.
Proof.
  intros Heven. apply Z.eqb_eq. simpl drop. rewrite !llen_cons.
  rewrite <- Z.add_assoc. change (1 + 1) with (1 * 2). by rewrite Z.mod_add.
Qed.

Lemma hsetKeyFunc_key (st : Store) (word key field value : string) (rest : list string)
    (k : AccessKeys -> M string) :
  bind (lift (hash.hsetKeyFunc (word :: key :: field :: value :: rest))) k st =
  k (mkKeys [] [] [key]) st.
Proof. done. Qed.

Lemma handleHSET_overwrites (st : Store) (word key field value : string)
    (rest : list string) (h : gmap string Scalar) :
  llen rest mod 2 = 0 ->
  st !! key = Some (VHash h) -> EqualFold word "hsetnx" = false ->
  hash.handleHSET (word :: key :: field :: value :: rest) st =
    (Ok (":" +:+ fmtD (Z.of_nat (size (hash.collectEntries (field :: value :: rest) ∅))) +:+
         CRLF),
     <[key := VHash (hash.collectEntries (field :: value :: rest) ∅ ∪ h)]> st).
Proof.
  intros Heven Hkey Hnx.
  unfold hash.handleHSET. rewrite hsetKeyFunc_key. cbv beta. step_bind.
  rewrite even_pairs by done. hash_steps.
  change (arg (word :: key :: field :: value :: rest) 0) with word. rewrite Hnx.
  rewrite setEntries_overwrite by apply rangeOver_NoDup.
  rewrite rangeOver_list_to_map, rangeOver_length. reflexivity.
Qed.

Lemma handleHSET_absent_only (st : Store) (word key field value : string)
    (rest : list string) (h : gmap string Scalar) :
  llen rest mod 2 = 0 ->
  st !! key = Some (VHash h) -> EqualFold word "hsetnx" = true ->
  hash.handleHSET (word :: key :: field :: value :: rest) st =
    (Ok (":" +:+
         fmtD (Z.of_nat (size (h ∪ hash.collectEntries (field :: value :: rest) ∅)) -
               Z.of_nat (size h)) +:+ CRLF),
     <[key := VHash (h ∪ hash.collectEntries (field :: value :: rest) ∅)]> st).
Proof.
  intros Heven Hkey Hnx.
  unfold hash.handleHSET. rewrite hsetKeyFunc_key. cbv beta. step_bind.
  rewrite even_pairs by done. hash_steps.
  change (arg (word :: key :: field :: value :: rest) 0) with word. rewrite Hnx.
  pose proof (setEntries_counts_growth
                (hash.rangeOver
                   (hash.collectEntries (drop 2 (word :: key :: field :: value :: rest)) ∅))
                h 0) as Hc.
  pose proof (setEntries_absent_only
                (hash.rangeOver
                   (hash.collectEntries (drop 2 (word :: key :: field :: value :: rest)) ∅))
                (rangeOver_NoDup _) h 0) as Hm.
  destruct (hash.setEntries true _ h 0) as [count h'].
  simpl in Hc, Hm. subst count h'. rewrite rangeOver_list_to_map. reflexivity.
Qed.

(** X15.  HSET and HSETNX on a key that holds a hash, in whatever order
    the map of new entries is visited: HSET stores the new entries over the
    hash and replies with the number of entries given (distinct fields);
    HSETNX stores only the entries whose field the hash does not hold and
    replies with the number of fields added.  On an absent key both store the
    new entries. *)
Theorem hset_merges_entries (st : Store) (word key field value : string)
    (rest : list string) :
  llen rest mod 2 = 0 ->
  let cmd := word :: key :: field :: value :: rest in
  let entries := hash.collectEntries (field :: value :: rest) ∅ in
  (forall h, st !! key = Some (VHash h) -> EqualFold word "hsetnx" = false ->
   hash.handleHSET cmd st =
     (Ok (":" +:+ fmtD (Z.of_nat (size entries)) +:+ CRLF),
      <[key := VHash (entries ∪ h)]> st)) /\
  (forall h, st !! key = Some (VHash h) -> EqualFold word "hsetnx" = true ->
   hash.handleHSET cmd st =
     (Ok (":" +:+ fmtD (Z.of_nat (size (h ∪ entries)) - Z.of_nat (size h)) +:+ CRLF),
      <[key := VHash (h ∪ entries)]> st)) /\
  (st !! key = None ->
   hash.handleHSET cmd st =
     (Ok (":" +:+ fmtD (Z.of_nat (size entries)) +:+ CRLF),
      <[key := VHash entries]> st)).
Proof.
  intros Heven cmd entries. split; [|split].
  - intros h Hkey Hnx. by apply handleHSET_overwrites.
  - intros h Hkey Hnx. by apply handleHSET_absent_only.
  - intros Hkey.
    unfold hash.handleHSET, cmd. rewrite hsetKeyFunc_key. cbv beta. step_bind.
    rewrite even_pairs by done. hash_steps.
    unfold bind, CreateKeyAndLock, SetValue, KeyUnlock, ret.
    rewrite Hkey. simpl. by rewrite insert_insert_eq.
Qed.

Lemma handleHGET_one (st : Store) (c key field : string) (h : gmap string Scalar)
    (value : Scalar) :
  st !! key = Some (VHash h) -> h !! field = Some value ->
  hash.handleHGET [c; key; field] st =
    (Ok ("*" +:+ fmtD 1 +:+ CRLF +:+ hash.renderValue value), st).
Proof.
  intros Hkey Hfield. unfold hash.handleHGET. hash_steps.
  simpl. unfold hash.hgetField. rewrite Hfield. unfold ret.
  destruct value; simpl; by rewrite ?append_assoc_string.
Qed.

(** X16.  HSET of one field followed by HGET of that field replies with
    the typed value that was set, and an HSETNX of the same field after that
    replies 0 and leaves the hash as it is, so that the HGET still replies
    with the first value. *)
Theorem hset_hget_round_trip (st : Store) (set setnx get key field value other : string)
    (h : gmap string Scalar) :
  st !! key = Some (VHash h) ->
  EqualFold set "hsetnx" = false -> EqualFold setnx "hsetnx" = true ->
  let st' := <[key := VHash (<[field := AdaptType value]> h)]> st in
  hash.handleHSET [set; key; field; value] st = (Ok (":" +:+ fmtD 1 +:+ CRLF), st') /\
  hash.handleHGET [get; key; field] st' =
    (Ok ("*" +:+ fmtD 1 +:+ CRLF +:+ hash.renderValue (AdaptType value)), st') /\
  hash.handleHSET [setnx; key; field; other] st' = (Ok (":" +:+ fmtD 0 +:+ CRLF), st').
Proof.
  intros Hkey Hset Hsetnx st'.
  assert (st' !! key = Some (VHash (<[field := AdaptType value]> h))) as Hkey'
    by apply lookup_insert_eq.
  split; [|split].
  - rewrite (handleHSET_overwrites st set key field value [] h) by done.
    simpl hash.collectEntries.
    rewrite <- insert_union_l, (left_id_L ∅ (∪)).
    rewrite map_size_insert_None, map_size_empty by apply lookup_empty.
    reflexivity.
  - apply (handleHGET_one st' get key field _ _ Hkey'). apply lookup_insert_eq.
  - rewrite (handleHSET_absent_only st' setnx key field other [] _) by done.
    simpl hash.collectEntries.
    rewrite union_insert_present by (rewrite lookup_insert_eq; eauto).
    rewrite (right_id_L ∅ (∪)), Z.sub_diag.
    unfold st'. by rewrite insert_insert_eq.
Qed.

Lemma wrap64_add_l (a b : Z) : wrap64 (wrap64 a + b) = wrap64 (a + b).
Proof.
  unfold wrap64. f_equal.
  replace ((a + 2 ^ 63) mod 2 ^ 64 - 2 ^ 63 + b + 2 ^ 63)
    with ((a + 2 ^ 63) mod 2 ^ 64 + b) by lia.
  rewrite Zplus_mod_idemp_l. f_equal. lia.
Qed.

Lemma handleHINCRBY_int (st : Store) (c key field tok : string) (n i : Z)
    (h : gmap string Scalar) :
  EqualFold c "hincrbyfloat" = false -> Atoi tok = Ok n ->
  st !! key = Some (VHash h) ->
  h !! field = Some (SInt i) \/ (h !! field = None /\ i = 0) ->
  hash.handleHINCRBY [c; key; field; tok] st =
    (Ok (":" +:+ fmtD (wrap64 (i + n)) +:+ CRLF),
     <[key := VHash (<[field := SInt (wrap64 (i + n))]> h)]> st).
Proof.
  intros Hc Htok Hkey Hfield.
  unfold hash.handleHINCRBY. repeat step_bind.
  unfold arg. cbn [nth]. rewrite Hc, Htok. hash_steps.
  destruct Hfield as [Hfield | [Hfield ->]]; rewrite Hfield.
  - repeat step_bind. rewrite Hfield.
    unfold bind, SetValue, KeyUnlock, ret. reflexivity.
  - unfold bind, mutateAt, SetValue, KeyUnlock, ret. cbv beta iota.
    rewrite lookup_insert_eq. by rewrite !insert_insert_eq.
Qed.

(** X17.  HINCRBY with an integer increment: on a hash whose field holds
    an integer, or does not hold the field, which then counts as 0, the
    field becomes the sum in 64-bit arithmetic and the reply is that sum; two
    increments in a row add up; a field that holds a string is answered
    with an error and the keyspace is unchanged; on an absent key the hash
    with the field set to the increment is created. *)
Theorem hincrby_adds_to_field (st : Store) (c key field tok : string) (n : Z) :
  EqualFold c "hincrbyfloat" = false -> Atoi tok = Ok n ->
  (forall h i, st !! key = Some (VHash h) ->
     h !! field = Some (SInt i) \/ (h !! field = None /\ i = 0) ->
     hash.handleHINCRBY [c; key; field; tok] st =
       (Ok (":" +:+ fmtD (wrap64 (i + n)) +:+ CRLF),
        <[key := VHash (<[field := SInt (wrap64 (i + n))]> h)]> st) /\
     forall tok' m, Atoi tok' = Ok m ->
       hash.handleHINCRBY [c; key; field; tok']
         (<[key := VHash (<[field := SInt (wrap64 (i + n))]> h)]> st) =
       (Ok (":" +:+ fmtD (wrap64 (i + n + m)) +:+ CRLF),
        <[key := VHash (<[field := SInt (wrap64 (i + n + m))]> h)]> st)) /\
  (forall h s, st !! key = Some (VHash h) -> h !! field = Some (SStr s) ->
     hash.handleHINCRBY [c; key; field; tok] st =
       (Err ("value at field " +:+ field +:+ " is not a number"), st)) /\
  (st !! key = None ->
     hash.handleHINCRBY [c; key; field; tok] st =
       (Ok (":" +:+ fmtD n +:+ CRLF), <[key := VHash {[ field := SInt n ]}]> st)).
Proof.
  intros Hc Htok. split; [|split].
  - intros h i Hkey Hfield. split; [by apply handleHINCRBY_int|].
    intros tok' m Htok'.
    rewrite (handleHINCRBY_int _ c key field tok' m (wrap64 (i + n))
               (<[field := SInt (wrap64 (i + n))]> h) Hc Htok');
      [| apply lookup_insert_eq | left; apply lookup_insert_eq].
    by rewrite wrap64_add_l, !insert_insert_eq.
  - intros h s Hkey Hfield.
    unfold hash.handleHINCRBY. repeat step_bind.
    unfold arg. cbn [nth]. rewrite Hc, Htok. hash_steps.
    rewrite Hfield. repeat step_bind. by rewrite Hfield.
  - intros Hkey.
    unfold hash.handleHINCRBY. repeat step_bind.
    unfold arg. cbn [nth]. rewrite Hc, Htok. hash_steps.
    unfold bind, CreateKeyAndLock, SetValue, KeyUnlock, ret.
    rewrite Hkey. simpl. by rewrite insert_insert_eq.
Qed.


Lemma deleteFields_count (h : gmap string Scalar) (fields : list string) (n : Z) :
  fst (hash.deleteFields h fields n) =
  n + (Z.of_nat (size h) - Z.of_nat (size (snd (hash.deleteFields h fields n)))).
Proof.
  revert h n. induction fields as [|g fields IH]; intros h n; simpl.
  - lia.
  - destruct (h !! g) eqn:Hg; rewrite IH; [|done].
    rewrite (map_size_delete_Some g h) by eauto.
    assert (size h <> 0%nat) as Hsize.
    { intros Hz. apply map_size_empty_inv in Hz. subst h. by rewrite lookup_empty in Hg. }
    lia.
Qed.

(** X18.  HDEL replies with the number of fields by which the hash
    shrinks; after it HEXISTS replies 0 for each of the named fields, and the
    fields that were not named are held as before. *)
Theorem hdel_then_hexists (st : Store) (c c' key field : string) (fields : list string)
    (h : gmap string Scalar) :
  st !! key = Some (VHash h) ->
  exists (count : Z) (h' : gmap string Scalar),
    hash.handleHDEL (c :: key :: field :: fields) st =
      (Ok (":" +:+ fmtD count +:+ CRLF), <[key := VHash h']> st) /\
    count = Z.of_nat (size h) - Z.of_nat (size h') /\
    (forall f, f ∈ field :: fields ->
       hash.handleHEXISTS [c'; key; f] (<[key := VHash h']> st) =
         (Ok (":0" +:+ CRLF), <[key := VHash h']> st)) /\
    (forall f, f ∉ field :: fields -> h' !! f = h !! f).
Proof.
  intros Hkey.
  exists (fst (hash.deleteFields h (field :: fields) 0)),
         (snd (hash.deleteFields h (field :: fields) 0)).
  split; [|split; [|split]].
  - unfold hash.handleHDEL. repeat step_bind. hash_steps.
    change (drop 2 (c :: key :: field :: fields)) with (field :: fields).
    destruct (hash.deleteFields h (field :: fields) 0) as [count h'].
    reflexivity.
  - rewrite deleteFields_count. lia.
  - intros f Hf.
    set (st' := <[key := VHash (hash.deleteFields h (field :: fields) 0).2]> st).
    assert (st' !! key = Some (VHash (hash.deleteFields h (field :: fields) 0).2)) as Hkey'
      by apply lookup_insert_eq.
    unfold hash.handleHEXISTS. hash_steps. unfold arg. cbn [nth].
    rewrite deleteFields_lookup. by rewrite decide_True.
  - intros f Hf. rewrite deleteFields_lookup. by rewrite decide_False.
Qed.

Lemma keyAt1_bind {A} (cmd : list string) (st : Store) (k : string -> M A) :
  (forall key, cmd !! 1%nat = Some key -> onlyKey key st (snd (k key st))) ->
  onlyKey (arg cmd 1) st
    (snd (bind (lift (indexList (take 1 (drop 1 cmd)) 0)) k st)).
Proof.
  intros Hk. destruct cmd as [|c [|key rest]].
  - apply onlyKey_refl.
  - apply onlyKey_refl.
  - change (take 1 (drop 1 (c :: key :: rest))) with [key].
    rewrite (bind_ok _ _ st key st) by reflexivity. by apply Hk.
Qed.

Lemma handleHSET_frame (cmd : list string) (st : Store) :
  onlyKey (arg cmd 1) st (snd (hash.handleHSET cmd st)).
Proof.
  unfold hash.handleHSET, hash.hsetKeyFunc.
  destruct (length cmd <? 4)%nat; [apply onlyKey_refl|].
  rewrite (bind_ok _ _ st (mkKeys [] [] (take 1 (drop 1 cmd))) st) by reflexivity.
  apply keyAt1_bind. intros key _. frame_by_cases.
Qed.

Lemma handleHINCRBY_frame (cmd : list string) (st : Store) :
  onlyKey (arg cmd 1) st (snd (hash.handleHINCRBY cmd st)).
Proof.
  unfold hash.handleHINCRBY, hash.hincrbyKeyFunc.
  destruct (negb (length cmd =? 4)%nat); [apply onlyKey_refl|].
  rewrite (bind_ok _ _ st (mkKeys [] [] (take 1 (drop 1 cmd))) st) by reflexivity.
  apply keyAt1_bind. intros key _. frame_by_cases.
Qed.

Lemma handleHDEL_frame (cmd : list string) (st : Store) :
  onlyKey (arg cmd 1) st (snd (hash.handleHDEL cmd st)).
Proof.
  unfold hash.handleHDEL, hash.hdelKeyFunc.
  destruct (length cmd <? 3)%nat; [apply onlyKey_refl|].
  rewrite (bind_ok _ _ st (mkKeys [] [] (take 1 (drop 1 cmd))) st) by reflexivity.
  apply keyAt1_bind. intros key _. frame_by_cases.
Qed.

(** X19.  The hash commands and the keyspace: HGET, HSTRLEN, HVALS, HLEN,
    HKEYS, HGETALL and HEXISTS leave the keyspace as it is, and HSET, HSETNX,
    HINCRBY, HINCRBYFLOAT and HDEL change no key other than the key of the
    command, for every command array and keyspace, also when they answer
    with an error. *)
Theorem hash_commands_change_only_their_key (cmd : list string) (st : Store) :
  (snd (hash.handleHGET cmd st) = st /\
   snd (hash.handleHSTRLEN cmd st) = st /\
   snd (hash.handleHVALS cmd st) = st /\
   snd (hash.handleHLEN cmd st) = st /\
   snd (hash.handleHKEYS cmd st) = st /\
   snd (hash.handleHGETALL cmd st) = st /\
   snd (hash.handleHEXISTS cmd st) = st) /\
  (forall k, k <> arg cmd 1 ->
     snd (hash.handleHSET cmd st) !! k = st !! k /\
     snd (hash.handleHINCRBY cmd st) !! k = st !! k /\
     snd (hash.handleHDEL cmd st) !! k = st !! k).
Proof.
  split.
  - repeat split.
    + unfold hash.handleHGET. by frame_by_cases.
    + unfold hash.handleHSTRLEN. by frame_by_cases.
    + unfold hash.handleHVALS. by frame_by_cases.
    + unfold hash.handleHLEN. by frame_by_cases.
    + unfold hash.handleHKEYS. by frame_by_cases.
    + unfold hash.handleHGETALL. by frame_by_cases.
    + unfold hash.handleHEXISTS. by frame_by_cases.
  - intros k Hk. repeat split.
    + by apply handleHSET_frame.
    + by apply handleHINCRBY_frame.
    + by apply handleHDEL_frame.
Qed.


(** X20.  HGET and HSTRLEN on what is missing: on an absent key both
    reply with the nil bulk string, whatever the number of fields asked
    for, and not with an array; on a hash that does not hold the field HGET
    replies with an array holding the nil bulk string and HSTRLEN with an
    array holding 0. *)
Theorem hget_hstrlen_missing (st : Store) (c key field : string) (fields : list string) :
  (st !! key = None ->
   hash.handleHGET (c :: key :: field :: fields) st = (Ok ("$-1" +:+ CRLF), st) /\
   hash.handleHSTRLEN (c :: key :: field :: fields) st = (Ok ("$-1" +:+ CRLF), st)) /\
  (forall h, st !! key = Some (VHash h) -> h !! field = None ->
   hash.handleHGET [c; key; field] st =
     (Ok ("*" +:+ fmtD 1 +:+ CRLF +:+ "$-1" +:+ CRLF), st) /\
   hash.handleHSTRLEN [c; key; field] st =
     (Ok ("*" +:+ fmtD 1 +:+ CRLF +:+ ":0" +:+ CRLF), st)).
Proof.
  split.
  - intros Hkey. split.
    + unfold hash.handleHGET. by hash_steps.
    + unfold hash.handleHSTRLEN. by hash_steps.
  - intros h Hkey Hfield. split.
    + unfold hash.handleHGET. hash_steps. simpl.
      unfold hash.hgetField. rewrite Hfield. unfold ret.
      by rewrite ?append_assoc_string.
    + unfold hash.handleHSTRLEN. hash_steps. simpl.
      unfold hash.hstrlenField. rewrite Hfield. unfold ret.
      by rewrite ?append_assoc_string.
Qed.

End hash_more.

(** HSETNX h f x g y on the hash {f: v} adds g only. *)
Lemma hset_merges_entries_witness :
  hash.handleHSET (H := reference.externals) (H0 := reference.mapOrder) ["HSETNX"; "h"; "f"; "x"; "g"; "y"] oneFieldStore =
  (Ok (":1" +:+ CRLF),
   <["h" := VHash ({[ "f" := SStr "v" ]} ∪
                   hash.collectEntries (H := reference.externals) ["f"; "x"; "g"; "y"] ∅)]> oneFieldStore).
Proof.
  exact (proj1 (proj2 (hset_merges_entries (H := reference.externals) (H0 := reference.mapOrder) oneFieldStore "HSETNX" "h" "f" "x" ["g"; "y"]
                         eq_refl))
               {[ "f" := SStr "v" ]} eq_refl eq_refl).
Defined.

(** HSET h g 7 on the hash {f: v}, then HGET h g. *)
Lemma hset_hget_round_trip_witness :
  hash.handleHGET (H := reference.externals) ["HGET"; "h"; "g"]
    (<["h" := VHash (<["g" := SInt 7]> {[ "f" := SStr "v" ]})]> oneFieldStore) =
  (Ok ("*1" +:+ CRLF +:+ ":7" +:+ CRLF),
   <["h" := VHash (<["g" := SInt 7]> {[ "f" := SStr "v" ]})]> oneFieldStore).
Proof.
  exact (proj1 (proj2 (hset_hget_round_trip (H := reference.externals) (H0 := reference.mapOrder) oneFieldStore "HSET" "HSETNX" "HGET" "h" "g" "7"
                         "8" {[ "f" := SStr "v" ]} eq_refl eq_refl eq_refl))).
Defined.

(** HINCRBY h n 3 on the hash {n: 5}. *)
Lemma hincrby_adds_to_field_witness :
  hash.handleHINCRBY (H := reference.externals) ["HINCRBY"; "h"; "n"; "3"] counterStore =
  (Ok (":8" +:+ CRLF), <["h" := VHash (<["n" := SInt 8]> {[ "n" := SInt 5 ]})]> counterStore).
Proof.
  exact (proj1 (proj1 (hincrby_adds_to_field (H := reference.externals) counterStore "HINCRBY" "h" "n" "3" 3
                         eq_refl eq_refl)
                      {[ "n" := SInt 5 ]} 5 eq_refl (or_introl eq_refl))).
Defined.

(** HDEL h f on the hash {f: v}, then HEXISTS h f. *)
Lemma hdel_then_hexists_witness :
  exists count h',
    hash.handleHDEL ["HDEL"; "h"; "f"] oneFieldStore =
      (Ok (":" +:+ fmtD count +:+ CRLF), <["h" := VHash h']> oneFieldStore) /\
    hash.handleHEXISTS ["HEXISTS"; "h"; "f"] (<["h" := VHash h']> oneFieldStore) =
      (Ok (":0" +:+ CRLF), <["h" := VHash h']> oneFieldStore).
Proof.
  destruct (hdel_then_hexists oneFieldStore "HDEL" "HEXISTS" "h" "f" []
              {[ "f" := SStr "v" ]} eq_refl) as (count & h' & Hdel & _ & Hex & _).
  exists count, h'. split; [exact Hdel|].
  apply Hex. apply elem_of_cons. by left.
Defined.

(** HGET h g on the hash {f: v}. *)
Lemma hget_hstrlen_missing_witness :
  hash.handleHGET (H := reference.externals) ["HGET"; "h"; "g"] oneFieldStore =
  (Ok ("*1" +:+ CRLF +:+ "$-1" +:+ CRLF), oneFieldStore).
Proof.
  exact (proj1 (proj2 (hget_hstrlen_missing (H := reference.externals) oneFieldStore "HGET" "h" "g" [])
                      {[ "f" := SStr "v" ]} eq_refl eq_refl)).
Defined.

(** HSET h f x on a keyspace that also holds the key k leaves k as it is. *)
Lemma hash_commands_change_only_their_key_witness :
  snd (hash.handleHSET (H := reference.externals) (H0 := reference.mapOrder)
         ["HSET"; "h"; "f"; "x"] hashAndStringStore) !! "k" =
  hashAndStringStore !! "k".
Proof.
  exact (proj1 (proj2 (hash_commands_change_only_their_key
                         (H := reference.externals) (H0 := reference.mapOrder)
                         ["HSET"; "h"; "f"; "x"] hashAndStringStore)
                      "k" ltac:(discriminate))).
Defined.

(** ** Further sorted-set commands *)

Ltac zset_steps :=
  repeat (first [ step_bind | progress cbn [negb sorted_set.asSortedSet] ]).

Section sorted_set_more.
Context `{Externals}.



Lemma removeRanks_in_bounds (key : string) (members : list MemberParam) (n : nat) :
  forall (from : Z) (set : SortedSet) (count : Z) (st : Store),
    0 <= from -> from + Z.of_nat n <= llen members ->
    exists set',
      sorted_set.removeRanks key set members
        (map (fun k => from + Z.of_nat k) (seq 0 n)) count st =
      (Ok (count + Z.of_nat n), if n is O then st else <[key := VSortedSet set']> st).
Proof.
  induction n as [|n IH]; intros from set count st Hfrom Hn.
  - exists set. simpl. unfold ret. f_equal. f_equal. lia.
  - rewrite <- cons_seq, <- seq_shift, map_cons, map_map.
    cbn [sorted_set.removeRanks].
    pose proof (llen_nonneg members) as Hl.
    destruct (lookup_lt_is_Some_2 members (Z.to_nat from)) as [m Hm].
    { rewrite <- (to_nat_llen members). lia. }
    replace (from + Z.of_nat 0) with from by lia.
    rewrite (bind_ok _ _ st m st) by (unfold lift; by rewrite (indexList_lookup members from m)).
    unfold mutateAt at 1. unfold bind at 1.
    erewrite map_ext by (intros; simpl; rewrite Nat2Z.inj_succ, <- Z.add_succ_comm; reflexivity).
    destruct (IH (Z.succ from) (snd (Remove set (Value m))) (count + 1)
                (<[key := VSortedSet (snd (Remove set (Value m)))]> st))
      as [set' Hrun]; [lia|lia|].
    rewrite Hrun. destruct n.
    + eexists. f_equal. f_equal. lia.
    + exists set'. rewrite insert_insert_eq. f_equal. f_equal. lia.
Qed.

(** X22.  ZREMRANGEBYRANK: a negative rank counts from the end; ranks
    that then lie outside [0, cardinality - 1] are answered with the error
    "indices out of bounds" and nothing is removed; ranks inside are
    accepted in either order, the reply is the number of ranks between them,
    both included, and a sorted set stays at the key. *)
Theorem zremrangebyrank_bounds (st : Store) (c key startTok stopTok : string)
    (start stop : Z) (set : SortedSet) :
  SortFuncContract ->
  Atoi startTok = Ok start -> Atoi stopTok = Ok stop ->
  - 2 ^ 63 <= start < 2 ^ 63 -> - 2 ^ 63 <= stop < 2 ^ 63 ->
  Cardinality set < 2 ^ 63 ->
  st !! key = Some (VSortedSet set) ->
  forall first last : Z,
    first = (if start <? 0 then start + Cardinality set else start) ->
    last = (if stop <? 0 then stop + Cardinality set else stop) ->
    (first < 0 \/ Cardinality set <= first \/ last < 0 \/ Cardinality set <= last ->
     sorted_set.handleZREMRANGEBYRANK [c; key; startTok; stopTok] st =
       (Err "indices out of bounds", st)) /\
    (0 <= first < Cardinality set -> 0 <= last < Cardinality set ->
     exists set',
       sorted_set.handleZREMRANGEBYRANK [c; key; startTok; stopTok] st =
         (Ok (":" +:+ fmtD (Z.abs (first - last) + 1) +:+ CRLF),
          <[key := VSortedSet set']> st)).
Proof.
  intros Hsort Hstart Hstop Hsr Hpr Hcard Hkey first last Hfirst Hlast.
  pose proof (llen_nonneg set) as Hl. unfold Cardinality in *.
  assert ((if start <? 0 then wrap64 (start + llen set) else start) = first) as Hf.
  { subst first. destruct (start <? 0) eqn:Hs; [|done]. apply wrap64_small. lia. }
  assert ((if stop <? 0 then wrap64 (stop + llen set) else stop) = last) as Hla.
  { subst last. destruct (stop <? 0) eqn:Hs; [|done]. apply wrap64_small. lia. }
  split.
  - intros Hout.
    unfold sorted_set.handleZREMRANGEBYRANK. repeat step_bind.
    unfold arg. cbn [nth]. rewrite Hstart, Hstop. zset_steps.
    unfold Cardinality. rewrite Hf, Hla.
    replace ((first <? 0) || (first >? llen set - 1) || (last <? 0) || (last >? llen set - 1))
      with true by lia.
    reflexivity.
  - intros Hfin Hlin.
    destruct (Hsort MemberParam (fun a b => cmpCompare (MScore a) (MScore b)) (GetAll set))
      as [Hperm _].
    { destruct cmpCompare_strictWeakOrder as [Hasym Hcot]. split.
      - intros a b. apply Hasym.
      - intros a b c0. apply Hcot. }
    assert (llen (SortFunc MemberParam (fun a b => cmpCompare (MScore a) (MScore b))
                    (GetAll set)) = llen set) as Hlen.
    { unfold llen. by rewrite Hperm. }
    unfold sorted_set.handleZREMRANGEBYRANK. repeat step_bind.
    unfold arg. cbn [nth]. rewrite Hstart, Hstop. zset_steps.
    unfold Cardinality. rewrite Hf, Hla.
    replace ((first <? 0) || (first >? llen set - 1) || (last <? 0) || (last >? llen set - 1))
      with false by lia.
    destruct (first <? last) eqn:Horder.
    + destruct (removeRanks_in_bounds key
                  (SortFunc MemberParam (fun a b => cmpCompare (MScore a) (MScore b))
                     (GetAll set))
                  (Z.to_nat (last - first + 1)) first set 0 st) as [set' Hrun];
        [lia | rewrite Hlen; lia |].
      exists set'. rewrite (bind_ok _ _ _ _ _ Hrun).
      replace (Z.to_nat (last - first + 1)) with (S (Z.to_nat (last - first))) by lia.
      replace (0 + Z.of_nat (S (Z.to_nat (last - first)))) with (Z.abs (first - last) + 1)
        by lia.
      reflexivity.
    + destruct (removeRanks_in_bounds key
                  (SortFunc MemberParam (fun a b => cmpCompare (MScore a) (MScore b))
                     (GetAll set))
                  (Z.to_nat (first - last + 1)) last set 0 st) as [set' Hrun];
        [lia | rewrite Hlen; lia |].
      exists set'. rewrite (bind_ok _ _ _ _ _ Hrun).
      replace (Z.to_nat (first - last + 1)) with (S (Z.to_nat (first - last))) by lia.
      replace (0 + Z.of_nat (S (Z.to_nat (first - last)))) with (Z.abs (first - last) + 1)
        by lia.
      reflexivity.
Qed.







Lemma findMembersStart_none (rest : list string) (i : Z) :
  Forall (fun tok => sorted_set.isScoreToken tok = false) rest ->
  sorted_set.findMembersStart rest i 0 = 0.
Proof.
  intros Hrest. revert i. induction Hrest as [|tok rest Htok _ IH]; intros i; simpl.
  - done.
  - rewrite Htok. apply IH.
Qed.

(** X26.  ZADD looks for the first score from the command word on, the
    key included: when the key itself reads as a score (a number, or -inf or
    +inf), the pairs are taken to start at the key and the command is
    answered with the error "score/member pairs must be float/string"; so is
    a command none of whose tokens reads as a score.  The keyspace is
    unchanged. *)
Theorem zadd_key_read_as_score (st : Store) (c key a b : string) (rest : list string) :
  (sorted_set.isScoreToken key = true ->
   sorted_set.handleZADD (c :: key :: a :: b :: rest) st =
     (Err "score/member pairs must be float/string", st)) /\
  (Forall (fun tok => sorted_set.isScoreToken tok = false) (c :: key :: a :: b :: rest) ->
   sorted_set.handleZADD (c :: key :: a :: b :: rest) st =
     (Err "score/member pairs must be float/string", st)).
Proof.
  split.
  - intros Hkey.
    assert (sorted_set.findMembersStart (c :: key :: a :: b :: rest) 0 0 = 1) as Hstart.
    { cbn [sorted_set.findMembersStart]. change (negb (0 =? 0)) with false. cbv iota.
      rewrite Hkey. change (0 + 1) with 1.
      replace (if sorted_set.isScoreToken c then 0 else 0) with 0
        by (by destruct (sorted_set.isScoreToken c)).
      change (negb (0 =? 0)) with false. cbv iota. reflexivity. }
    unfold sorted_set.handleZADD. repeat step_bind. by rewrite Hstart.
  - intros Hnone.
    unfold sorted_set.handleZADD. repeat step_bind.
    by rewrite (findMembersStart_none _ 0 Hnone).
Qed.

End sorted_set_more.


(** ZREMRANGEBYRANK z 0 5 on a set of two members. *)
Lemma zremrangebyrank_bounds_witness :
  sorted_set.handleZREMRANGEBYRANK (H := reference.externals)
    ["ZREMRANGEBYRANK"; "z"; "0"; "5"] twoScoresStore =
  (Err "indices out of bounds", twoScoresStore).
Proof.
  apply (proj1 (zremrangebyrank_bounds (H := reference.externals)
                  twoScoresStore "ZREMRANGEBYRANK" "z" "0" "5" 0 5 twoScores
                  reference_sort_contract eq_refl eq_refl
                  ltac:(lia) ltac:(lia) ltac:(vm_compute; reflexivity) eq_refl
                  0 5 eq_refl eq_refl)).
  right. right. right. vm_compute. discriminate.
Defined.


(** ** Errors and the keyspace *)

(** Splits a handler into its branches; a branch that ends in an error has
    not written to the keyspace. *)
Ltac error_by_cases :=
  unfold KeyLock, KeyUnlock, KeyRLock, KeyRUnlock, sorted_set.notSortedSet,
    list_plugin.ignore;
  unfold bind, lift, ret, fail, panic, KeyExists, GetValue, SetValue, mutateAt,
    CreateKeyAndLock, sliceList, indexList;
  repeat case_match; simplify_eq/=;
  rewrite ?lookup_insert_eq in *; simplify_eq/=;
  try done; try (intros; simplify_eq/=; done).

Section errors.
Context `{Externals}.

Lemma handleLLen_errors : errorsKeepKeyspace list_plugin.handleLLen.
Proof. intros cmd st e _. apply handleLLen_readonly. Qed.

Lemma handleLIndex_errors : errorsKeepKeyspace list_plugin.handleLIndex.
Proof. intros cmd st e _. apply handleLIndex_readonly. Qed.

Lemma handleLRange_errors : errorsKeepKeyspace list_plugin.handleLRange.
Proof. intros cmd st e _. apply handleLRange_readonly. Qed.

Lemma handleLSet_errors : errorsKeepKeyspace list_plugin.handleLSet.
Proof. intros cmd st e. unfold list_plugin.handleLSet. error_by_cases. Qed.

Lemma handleLTrim_errors : errorsKeepKeyspace list_plugin.handleLTrim.
Proof. intros cmd st e. unfold list_plugin.handleLTrim. error_by_cases. Qed.

Lemma handleLRem_errors : errorsKeepKeyspace list_plugin.handleLRem.
Proof. intros cmd st e. unfold list_plugin.handleLRem. error_by_cases. Qed.

Lemma handleLMove_errors : errorsKeepKeyspace list_plugin.handleLMove.
Proof. intros cmd st e. unfold list_plugin.handleLMove. error_by_cases. Qed.

Lemma handleLPush_errors : errorsKeepKeyspace list_plugin.handleLPush.
Proof. intros cmd st e. unfold list_plugin.handleLPush. error_by_cases. Qed.

Lemma handleRPush_errors : errorsKeepKeyspace list_plugin.handleRPush.
Proof. intros cmd st e. unfold list_plugin.handleRPush. error_by_cases. Qed.

Lemma handlePop_errors : errorsKeepKeyspace list_plugin.handlePop.
Proof. intros cmd st e. unfold list_plugin.handlePop. error_by_cases. Qed.


Lemma list_HandleCommand_errors : errorsKeepKeyspace list_plugin.HandleCommand.
Proof.
  intros cmd st e. unfold list_plugin.HandleCommand.
  destruct cmd as [|word rest]; [done|].
  repeat (case_match; [first
    [ apply handleLLen_errors | apply handleLIndex_errors | apply handleLRange_errors
    | apply handleLSet_errors | apply handleLTrim_errors | apply handleLRem_errors
    | apply handleLMove_errors | apply handleLPush_errors | apply handleRPush_errors
    | apply handlePop_errors ] |]).
  done.
Qed.

Lemma plugin_handleSetRange_errors : errorsKeepKeyspace string_plugin.handleSetRange.
Proof.
  intros cmd st e. unfold string_plugin.handleSetRange, tailOf. error_by_cases.
Qed.

Lemma plugin_handleStrLen_errors : errorsKeepKeyspace string_plugin.handleStrLen.
Proof. intros cmd st e. unfold string_plugin.handleStrLen, tailOf. error_by_cases. Qed.

Lemma plugin_handleSubStr_errors : errorsKeepKeyspace string_plugin.handleSubStr.
Proof. intros cmd st e. unfold string_plugin.handleSubStr, tailOf. error_by_cases. Qed.

Lemma string_HandleCommand_errors : errorsKeepKeyspace string_plugin.HandleCommand.
Proof.
  intros cmd st e. unfold string_plugin.HandleCommand.
  destruct cmd as [|word rest]; [done|].
  repeat (case_match; [first
    [ apply plugin_handleSetRange_errors | apply plugin_handleStrLen_errors
    | apply plugin_handleSubStr_errors ] |]).
  done.
Qed.

(** X24.  A command of the string plugin or of the list plugin that is
    answered with an error has changed nothing: whenever [HandleCommand]
    returns an error, for whatever reason, the keyspace is the one the
    command found. *)
Theorem plugin_errors_keep_keyspace (cmd : list string) (st : Store) (e : string) :
  (fst (string_plugin.HandleCommand cmd st) = Err e ->
   snd (string_plugin.HandleCommand cmd st) = st) /\
  (fst (list_plugin.HandleCommand cmd st) = Err e ->
   snd (list_plugin.HandleCommand cmd st) = st).
Proof.
  split.
  - apply string_HandleCommand_errors.
  - apply list_HandleCommand_errors.
Qed.

End errors.

Section module_errors.
Context `{Externals} `{hash.MapOrder}.













End module_errors.

(** LPUSHX l a on the empty keyspace is an error and creates nothing. *)
Lemma plugin_errors_keep_keyspace_witness :
  snd (list_plugin.HandleCommand (H := reference.externals)
         ["LPUSHX"; "l"; "a"] emptyStore) = emptyStore.
Proof.
  apply (proj2 (plugin_errors_keep_keyspace (H := reference.externals)
                  ["LPUSHX"; "l"; "a"] emptyStore "LPUSHX command on non-list item")).
  reflexivity.
Defined.


(** ZADD 2024 1 a: the key reads as a score. *)
Lemma zadd_key_read_as_score_witness :
  sorted_set.handleZADD (H := reference.externals) ["ZADD"; "2024"; "1"; "a"] emptyStore =
  (Err "score/member pairs must be float/string", emptyStore).
Proof.
  exact (proj1 (zadd_key_read_as_score (H := reference.externals)
                  emptyStore "ZADD" "2024" "1" "a" []) eq_refl).
Defined.
